(** * NeetSync: submission sync pipeline

    A shallow embedding of the background service worker of NeetSync
    (src/background: types.ts, normalize.ts, logger.ts, storage.ts,
    github.ts, progress.ts, queue.ts) and the properties of its queue,
    retry schedule, catalog merge and path resolver.
    The last part adds the message handlers of the service worker, the
    popup's [formatRelativeTime] and the content scripts' [simpleHash],
    [getSlug] and [extractSlug], with further properties of all of these.

    Conventions of the embedding.
    - A JavaScript string is the list of its UTF-16 code units
      ([jsstring]); [lit] turns an ASCII literal into one.  Regular
      expressions without the [u] flag, [substring], [split] and [length]
      all work on code units, and so do the definitions below.
    - Integer-valued numbers (time stamps in milliseconds, retry counters)
      are exact in a double below 2^53 and are modelled by [Z].
    - An object used as a dictionary ([Record<string, T>]) is a finite map
      over its own properties, read and assigned as JavaScript does: a
      name that every object inherits from [Object.prototype] is found
      where no own property has it, and an assignment under "__proto__"
      sets the prototype and adds no property ([member], [assign]).
    - [toLowerCase] and [toUpperCase] are written out on Basic Latin text
      and taken from the engine beyond it ([Engine]); [toISOString] is
      written out; [encodeURIComponent], which throws for a string with
      a lone surrogate, is embedded by that test ([wellFormed]).
    - [chrome.storage] hands out and takes structured copies: a value read
      from it is not aliased with the stored one.  Its calls, and so the
      calls of the logger, resolve; the exceptions of the embedding are
      those of the network code and of the text it builds.
    - The clock, the random generator and GitHub are an environment that
      answers the n-th [Date.now()], [Math.random()] and [fetch]; an
      answer of GitHub has a status, a text and the parsed body or the
      exception of [response.json()].  The text of the two progress
      documents is taken from the environment as well.
    - Besides what the program stores, a world keeps a history: the
      calls of [fetch], the commit attempts made and the storage
      accesses. *)

From Stdlib Require Import ZArith NArith QArith_base List Ascii String DecimalString Lia Bool.
From Stdlib Require Import Sorted Permutation.
From stdpp Require Import base decidable option list gmap.

Open Scope Z_scope.

(** ** JavaScript strings *)

Module Js.

Definition jsstring : Type := list N.

Definition lit (s : string) : jsstring :=
  List.map N_of_ascii (list_ascii_of_string s).

(** Truthiness of a string and of an optional string ([undefined] is
    [None]): only a non-empty string is truthy. *)
Definition truthy (s : jsstring) : bool :=
  match s with [] => false | _ :: _ => true end.

Definition otruthy (o : option jsstring) : bool :=
  match o with Some s => truthy s | None => false end.

(** [a || b] on optional strings. *)
Definition or_else (a b : option jsstring) : option jsstring :=
  if otruthy a then a else b.

(** [\s] of a regular expression, which is also what [trim] strips:
    WhiteSpace and LineTerminator code units. *)
Definition is_space (c : N) : bool :=
  ((9 <=? c) && (c <=? 13) || (c =? 32) || (c =? 160) || (c =? 5760)
   || (8192 <=? c) && (c <=? 8202) || (c =? 8232) || (c =? 8233)
   || (c =? 8239) || (c =? 8287) || (c =? 12288) || (c =? 65279))%N.

Fixpoint trimStart (s : jsstring) : jsstring :=
  match s with
  | c :: s' => if is_space c then trimStart s' else s
  | [] => []
  end.

Definition trimEnd (s : jsstring) : jsstring := rev (trimStart (rev s)).

Definition trim (s : jsstring) : jsstring := trimEnd (trimStart s).

(** The case pairs of Basic Latin, the only ones among the code units
    below 128. *)
Definition lower_unit (c : N) : N :=
  if ((65 <=? c) && (c <=? 90))%N then (c + 32)%N else c.

Definition upper_unit (c : N) : N :=
  if ((97 <=? c) && (c <=? 122))%N then (c - 32)%N else c.

Definition isBasicLatin (s : jsstring) : bool :=
  forallb (fun c => (c <? 128)%N) s.

Definition eqb (a b : jsstring) : bool := bool_decide (a = b).

Fixpoint startsWith (p s : jsstring) : bool :=
  match p, s with
  | [], _ => true
  | _ :: _, [] => false
  | a :: p', b :: s' => (a =? b)%N && startsWith p' s'
  end.

(** [s.includes(p)] *)
Fixpoint includes (s p : jsstring) : bool :=
  startsWith p s ||
  match s with
  | [] => false
  | _ :: s' => includes s' p
  end.

(** [s.split(sep)] for a one-unit separator: never empty, one more field
    than there are separators. *)
Fixpoint split (sep : N) (s : jsstring) : list jsstring :=
  match s with
  | [] => [[]]
  | c :: s' =>
      if (c =? sep)%N then [] :: split sep s'
      else match split sep s' with
           | w :: ws => (c :: w) :: ws
           | [] => [[c]]
           end
  end.

(** [parts.join(sep)] *)
Fixpoint join (sep : jsstring) (parts : list jsstring) : jsstring :=
  match parts with
  | [] => []
  | [p] => p
  | p :: ps => p ++ sep ++ join sep ps
  end.

(** [s.replace(/c/g, r)] for a single code unit [c]. *)
Definition replaceAllUnit (c : N) (r : jsstring) (s : jsstring) : jsstring :=
  List.flat_map (fun x => if (x =? c)%N then r else [x]) s.

(** [s.replace(/[set]/g, '')] *)
Definition removeUnits (p : N -> bool) (s : jsstring) : jsstring :=
  List.filter (fun x => negb (p x)) s.

(** [s.replace(/[set]+/g, r)]: each maximal run of units of the set is
    replaced by one [r]; [inRun] tells that the previous unit was in the
    set. *)
Fixpoint replaceRuns (p : N -> bool) (r : N) (inRun : bool) (s : jsstring)
  : jsstring :=
  match s with
  | [] => []
  | x :: s' =>
      if p x then
        if inRun then replaceRuns p r true s'
        else r :: replaceRuns p r true s'
      else x :: replaceRuns p r false s'
  end.

Definition underscore : N := 95.
Definition is_underscore (c : N) : bool := (c =? underscore)%N.

(** [s.replace(/^_|_$/g, '')]: one underscore off the front, then one off
    what is left at the end. *)
Definition dropLeading (s : jsstring) : jsstring :=
  match s with
  | c :: s' => if is_underscore c then s' else s
  | [] => []
  end.

Definition dropTrailing (s : jsstring) : jsstring := rev (dropLeading (rev s)).

Definition trimUnderscores (s : jsstring) : jsstring :=
  dropTrailing (dropLeading s).

Definition substring0 (n : nat) (s : jsstring) : jsstring := firstn n s.

End Js.

Import Js.

(** ** Objects used as dictionaries

    A [Record<string, T>] read from storage, received in a message or
    written as a literal is an object whose prototype is
    [Object.prototype]; its own properties are a finite map.  [o[k]] also
    finds what every object inherits.  [o[k] = v] with the key "__proto__"
    calls the setter that is inherited under that name: it replaces the
    prototype and adds no property, unless the object has an own property
    of the name (as [JSON.parse] makes one). *)

(** [Object.getOwnPropertyNames(Object.prototype)] *)
Definition inheritedNames : list string :=
  [ "constructor"; "__defineGetter__"; "__defineSetter__"; "hasOwnProperty";
    "__lookupGetter__"; "__lookupSetter__"; "isPrototypeOf";
    "propertyIsEnumerable"; "toString"; "valueOf"; "__proto__";
    "toLocaleString" ]%string.

Definition isInherited (k : jsstring) : bool :=
  existsb (fun n => Js.eqb (lit n) k) inheritedNames.

Arguments isInherited : simpl never.

Definition protoKey : jsstring := lit "__proto__".

(** What [o[k]] finds: an own property; or an inherited one, which is a
    function or, under "__proto__", the prototype itself (truthy, and
    without any of the members the program goes on to read: [sha256],
    [solvedAt], [category], ...); or nothing, [undefined]. *)
Inductive Member (T : Type) :=
| Own (v : T)
| Inherited
| Absent.
Arguments Own {T} v.
Arguments Inherited {T}.
Arguments Absent {T}.

Definition member {T} (o : gmap jsstring T) (k : jsstring) : Member T :=
  match o !! k with
  | Some v => Own v
  | None => if isInherited k then Inherited else Absent
  end.

(** The own properties after [o[k] = v], for an object [v]. *)
Definition assign {T} (k : jsstring) (v : T) (o : gmap jsstring T)
  : gmap jsstring T :=
  if Js.eqb k protoKey && negb (bool_decide (is_Some (o !! k))) then o
  else <[k := v]> o.

(** ** types.ts *)

Inductive OrganizationMode := AUTO | DIFFICULTY | FLAT | CATEGORY.

Record Settings := {
  repoFullName : jsstring;
  branch : jsstring;
  baseDir : jsstring;
  organizationMode : OrganizationMode;
  overwrite : bool;
  includeHeader : bool;
  includeDifficultyFolder : bool;
  includeListFolderWhenKnown : bool;
  filenameIncludeSlug : bool;
  debugMode : bool
}.

Definition DEFAULT_SETTINGS : Settings := {|
  repoFullName := lit "";
  branch := lit "main";
  baseDir := lit "NeetSync";
  organizationMode := AUTO;
  overwrite := true;
  includeHeader := true;
  includeDifficultyFolder := false;
  includeListFolderWhenKnown := true;
  filenameIncludeSlug := false;
  debugMode := false
|}.

Record MappingEntry := {
  me_title : option jsstring;
  me_category : option jsstring;
  me_listName : option jsstring;
  me_difficulty : option jsstring;
  me_sources : option (list jsstring)
}.

Definition LANGUAGE_EXTENSIONS : list (string * string) :=
  [ ("python", "py"); ("python3", "py"); ("javascript", "js");
    ("typescript", "ts"); ("java", "java"); ("cpp", "cpp"); ("c++", "cpp");
    ("c", "c"); ("csharp", "cs"); ("c#", "cs"); ("go", "go");
    ("golang", "go"); ("rust", "rs"); ("swift", "swift"); ("kotlin", "kt");
    ("scala", "scala"); ("ruby", "rb"); ("php", "php"); ("dart", "dart");
    ("racket", "rkt"); ("elixir", "ex"); ("erlang", "erl") ]%string.

(** ** The fingerprint: SHA-256 of the UTF-8 encoding, in hexadecimal *)

Module Sha256.

Local Open Scope N_scope.

Definition is_high_surrogate (c : N) : bool := (0xD800 <=? c) && (c <=? 0xDBFF).
Definition is_low_surrogate (c : N) : bool := (0xDC00 <=? c) && (c <=? 0xDFFF).

Definition replacement : list N := [0xEF; 0xBF; 0xBD].

(** [new TextEncoder().encode(message)]: a surrogate pair is one code
    point, a lone surrogate is encoded as U+FFFD. *)
Fixpoint encode (s : jsstring) : list N :=
  match s with
  | [] => []
  | c :: s' =>
      if c <? 0x80 then c :: encode s'
      else if c <? 0x800 then
        N.lor 0xC0 (N.shiftr c 6) :: N.lor 0x80 (N.land c 0x3F) :: encode s'
      else if is_high_surrogate c then
        match s' with
        | d :: s'' =>
            if is_low_surrogate d then
              let cp := 0x10000 + N.shiftl (c - 0xD800) 10 + (d - 0xDC00) in
              N.lor 0xF0 (N.shiftr cp 18)
              :: N.lor 0x80 (N.land (N.shiftr cp 12) 0x3F)
              :: N.lor 0x80 (N.land (N.shiftr cp 6) 0x3F)
              :: N.lor 0x80 (N.land cp 0x3F) :: encode s''
            else replacement ++ encode s'
        | [] => replacement
        end
      else if is_low_surrogate c then replacement ++ encode s'
      else
        N.lor 0xE0 (N.shiftr c 12)
        :: N.lor 0x80 (N.land (N.shiftr c 6) 0x3F)
        :: N.lor 0x80 (N.land c 0x3F) :: encode s'
  end.

Definition mask32 : N := 0xFFFFFFFF.
Definition add32 (x y : N) : N := N.land (x + y) mask32.
Definition rotr (n x : N) : N :=
  N.lor (N.shiftr x n) (N.land (N.shiftl x (32 - n)) mask32).
Definition not32 (x : N) : N := N.lxor x mask32.

Definition Ch (x y z : N) : N := N.lxor (N.land x y) (N.land (not32 x) z).
Definition Maj (x y z : N) : N :=
  N.lxor (N.lxor (N.land x y) (N.land x z)) (N.land y z).
Definition bigSigma0 (x : N) : N :=
  N.lxor (N.lxor (rotr 2 x) (rotr 13 x)) (rotr 22 x).
Definition bigSigma1 (x : N) : N :=
  N.lxor (N.lxor (rotr 6 x) (rotr 11 x)) (rotr 25 x).
Definition smallSigma0 (x : N) : N :=
  N.lxor (N.lxor (rotr 7 x) (rotr 18 x)) (N.shiftr x 3).
Definition smallSigma1 (x : N) : N :=
  N.lxor (N.lxor (rotr 17 x) (rotr 19 x)) (N.shiftr x 10).

(** The constants of the standard: the first 32 bits of the fractional
    parts of the cube roots (round constants) and of the square roots
    (initial hash value) of the first primes. *)
Definition isPrime (n : N) : bool :=
  (1 <? n)
  && forallb (fun d => negb (n mod N.of_nat d =? 0))
       (seq 2 (N.to_nat n - 2)).

Definition primes : list N :=
  List.filter isPrime (List.map N.of_nat (seq 2 310)).

(** The integer cube root, one bit after the other. *)
Fixpoint cubeRoot (bits : nat) (x acc : N) : N :=
  match bits with
  | O => acc
  | S bits' =>
      let c := acc + 2 ^ N.of_nat bits' in
      if c * c * c <=? x then cubeRoot bits' x c else cubeRoot bits' x acc
  end.

Definition K : list N :=
  List.map (fun p => N.land (cubeRoot 40 (p * 2 ^ 96) 0) mask32) primes.

Definition H0 : list N :=
  List.map (fun p => N.land (N.sqrt (p * 2 ^ 64)) mask32) (firstn 8 primes).

(** Big-endian bytes of a number, [n] of them. *)
Fixpoint bytesBE (n : nat) (x : N) : list N :=
  match n with
  | O => []
  | S n' => N.land (N.shiftr x (8 * N.of_nat n')) 0xFF :: bytesBE n' x
  end.

Definition pad (bytes : list N) : list N :=
  let len := N.of_nat (length bytes) in
  let zeros := N.to_nat ((55 + 64 - len mod 64) mod 64) in
  bytes ++ [0x80] ++ repeat 0 zeros ++ bytesBE 8 (8 * len).

Fixpoint wordsBE (n : nat) (bytes : list N) : list N :=
  match n, bytes with
  | S n', a :: b :: c :: d :: rest =>
      (N.shiftl a 24 + N.shiftl b 16 + N.shiftl c 8 + d) :: wordsBE n' rest
  | _, _ => []
  end.

(** The message schedule, most recent word first. *)
Fixpoint schedule (n : nat) (wrev : list N) : list N :=
  match n with
  | O => wrev
  | S n' =>
      let w :=
        add32 (add32 (smallSigma1 (nth 1 wrev 0)) (nth 6 wrev 0))
              (add32 (smallSigma0 (nth 14 wrev 0)) (nth 15 wrev 0)) in
      schedule n' (w :: wrev)
  end.

Definition round (st : list N) (kw : N * N) : list N :=
  match st with
  | [a; b; c; d; e; f; g; h] =>
      let t1 :=
        add32 (add32 (add32 h (bigSigma1 e)) (add32 (Ch e f g) (fst kw)))
              (snd kw) in
      let t2 := add32 (bigSigma0 a) (Maj a b c) in
      [add32 t1 t2; a; b; c; add32 d t1; e; f; g]
  | _ => st
  end.

Definition compress (h : list N) (block : list N) : list N :=
  let w := rev (schedule 48 (rev (wordsBE 16 block))) in
  let st := fold_left round (combine K w) h in
  List.map (fun p => add32 (fst p) (snd p)) (combine h st).

Fixpoint blocks (n : nat) (h : list N) (bytes : list N) : list N :=
  match n with
  | O => h
  | S n' =>
      match bytes with
      | [] => h
      | _ => blocks n' (compress h (firstn 64 bytes)) (skipn 64 bytes)
      end
  end.

Definition digest (bytes : list N) : list N :=
  let padded := pad bytes in
  List.flat_map (bytesBE 4) (blocks (length padded) H0 padded).

Definition hexDigit (n : N) : N := if n <? 10 then 48 + n else 87 + n.

(** [b.toString(16).padStart(2, '0')] *)
Definition hexByte (b : N) : jsstring := [hexDigit (b / 16); hexDigit (b mod 16)].

End Sha256.

(** normalize.ts, [sha256] *)
Definition sha256 (message : jsstring) : jsstring :=
  List.flat_map Sha256.hexByte (Sha256.digest (Sha256.encode message)).

Arguments sha256 : simpl never.

(** [encodeURIComponent(s)] throws a [URIError], "URI malformed" in V8,
    exactly when [s] holds a surrogate that is not part of a pair. *)
Fixpoint wellFormed (s : jsstring) : bool :=
  match s with
  | [] => true
  | c :: s' =>
      if Sha256.is_high_surrogate c then
        match s' with
        | d :: s'' => Sha256.is_low_surrogate d && wellFormed s''
        | [] => false
        end
      else negb (Sha256.is_low_surrogate c) && wellFormed s'
  end.

Definition uriMalformed : jsstring := lit "URI malformed".

(** ** Records of types.ts kept in storage *)

Inductive Source := SrcDom | SrcIntercept.

Record Meta := { runtime : option jsstring; memory : option jsstring }.

Record QueueItem := {
  id : jsstring;
  slug : jsstring;
  title : jsstring;
  category : option jsstring;
  listName : option jsstring;
  difficulty : option jsstring;
  language : jsstring;
  code : jsstring;
  meta : option Meta;
  source : Source;
  at_ : Z;
  retries : Z;
  lastAttempt : option Z
}.

Record SolvedEntry := {
  se_title : jsstring;
  se_category : option jsstring;
  se_listName : option jsstring;
  se_difficulty : option jsstring;
  se_language : jsstring;
  solvedAt : Z;
  se_sha256 : option jsstring
}.

Record Mapping := {
  version : Z;
  updatedAt : Z;
  entries : gmap jsstring MappingEntry
}.

Inductive Level := LInfo | LWarn | LError | LSuccess.

Record LogEntry := {
  le_id : jsstring;
  le_timestamp : Z;
  le_level : Level;
  le_message : jsstring;
  le_details : option jsstring
}.

(** ** The world the service worker runs in *)

(** Keys of [chrome.storage]. *)
Inductive Key :=
  KSettings | KToken | KMapping | KProgress | KQueue | KLastSync | KLogs.

Inductive StorageOp := OpGet (k : Key) | OpSet (k : Key).

Inductive Method := GET | PUT.

(** Outcome of a statement that may throw. *)
Inductive Result (A : Type) :=
| Ok (a : A)
| Throw (message : jsstring).
Arguments Ok {A} a.
Arguments Throw {A} message.

(** A JSON value as [response.json()] parses it; a number is finite, so
    a rational. *)
#[warnings="-register-all"]
Inductive Json :=
| JNull
| JBool (b : bool)
| JNumber (n : Q)
| JString (s : jsstring)
| JArray (items : list Json)
| JObject (members : list (jsstring * Json)).

Definition jsonTruthy (v : Json) : bool :=
  match v with
  | JNull => false
  | JBool b => b
  | JNumber n => negb (Qnum n =? 0)
  | JString s => truthy s
  | JArray _ | JObject _ => true
  end.

(** [v?.sha]: the member of an object, the last one when its text names
    [sha] more than once; [undefined] for every other value. *)
Definition shaOf (v : Json) : option Json :=
  match v with
  | JObject members =>
      fold_left
        (fun found '(k, x) => if Js.eqb k (lit "sha") then Some x else found)
        members None
  | _ => None
  end.

(** Truthiness of a value that may be [undefined]. *)
Definition defined (o : option Json) : bool :=
  match o with Some v => jsonTruthy v | None => false end.

(** A call of [fetch] for the GitHub contents API, by what the pipeline
    decides: the method, the file and branch it is about and the version
    token ([sha]) it carries.  The address (with the file name
    URI-encoded), the commit message and the Base64 body are not part of
    the record. *)
Record Request := {
  rq_method : Method;
  rq_file : jsstring;
  rq_branch : jsstring;
  rq_sha : option Json
}.

(** An answer: its status, what [response.text()] gives (the text, or
    the exception when the body cannot be read) and what
    [response.json()] gives (the parsed body, or the exception, also for
    a body that is no JSON text). *)
Record Response := {
  status : Z;
  bodyText : Result jsstring;
  bodyJson : Result Json
}.

(** What the outside answers: the clock to each [Date.now()], the random
    generator to each [Math.random().toString(36).substr(2, 9)], GitHub to
    each [fetch] (a rejected [fetch] is a [Throw]).

    The text of the two progress documents is taken as given too.
    [generateProgressJson] is [JSON.stringify] over the solved-set in the
    engine's order of keys.  [generateProgressMd] groups the entries in
    objects keyed by list and category names, orders them with
    [localeCompare] and prints dates with [toLocaleDateString]; it throws
    a [TypeError] when such a name is one that every object inherits.
    [progressJson] and [progressMd] answer, for the solved-set, the
    catalog and the reading of the clock, the text or the exception. *)
Record Env := {
  clock : nat -> Z;
  random : nat -> jsstring;
  fetch : nat -> Request -> Result Response;
  progressJson : gmap jsstring SolvedEntry -> Z -> jsstring;
  progressMd : gmap jsstring SolvedEntry -> Mapping -> Z -> Result jsstring
}.

(** How the attempt to commit one queue item ended. *)
Inductive Outcome := Committed | Failed (message : jsstring).

Record World := {
  (* chrome.storage *)
  settings : Settings;
  token : option jsstring;
  mapping : Mapping;
  solved : gmap jsstring SolvedEntry;
  queue : list QueueItem;
  lastSync : option Z;
  storedLogs : list LogEntry;
  (* module state of logger.ts and queue.ts *)
  loggerLogs : list LogEntry;
  loggerInitialized : bool;
  isProcessing : bool;
  (* pending setTimeout(() => processQueue(), delay) *)
  timers : list Z;
  (* answers consumed so far *)
  ticks : nat;
  rands : nat;
  (* history: requests sent, commit attempts made, storage accesses *)
  sent : list Request;
  attempts : list (QueueItem * Outcome);
  ops : list StorageOp
}.

Definition set_mapping (v : Mapping) (w : World) : World :=
  {| settings := settings w; token := token w; mapping := v;
     solved := solved w; queue := queue w; lastSync := lastSync w;
     storedLogs := storedLogs w; loggerLogs := loggerLogs w;
     loggerInitialized := loggerInitialized w; isProcessing := isProcessing w;
     timers := timers w; ticks := ticks w; rands := rands w; sent := sent w;
     attempts := attempts w; ops := ops w |}.

Definition set_solved (v : gmap jsstring SolvedEntry) (w : World) : World :=
  {| settings := settings w; token := token w; mapping := mapping w;
     solved := v; queue := queue w; lastSync := lastSync w;
     storedLogs := storedLogs w; loggerLogs := loggerLogs w;
     loggerInitialized := loggerInitialized w; isProcessing := isProcessing w;
     timers := timers w; ticks := ticks w; rands := rands w; sent := sent w;
     attempts := attempts w; ops := ops w |}.

Definition set_queue (v : list QueueItem) (w : World) : World :=
  {| settings := settings w; token := token w; mapping := mapping w;
     solved := solved w; queue := v; lastSync := lastSync w;
     storedLogs := storedLogs w; loggerLogs := loggerLogs w;
     loggerInitialized := loggerInitialized w; isProcessing := isProcessing w;
     timers := timers w; ticks := ticks w; rands := rands w; sent := sent w;
     attempts := attempts w; ops := ops w |}.

Definition set_lastSync (v : option Z) (w : World) : World :=
  {| settings := settings w; token := token w; mapping := mapping w;
     solved := solved w; queue := queue w; lastSync := v;
     storedLogs := storedLogs w; loggerLogs := loggerLogs w;
     loggerInitialized := loggerInitialized w; isProcessing := isProcessing w;
     timers := timers w; ticks := ticks w; rands := rands w; sent := sent w;
     attempts := attempts w; ops := ops w |}.

Definition set_storedLogs (v : list LogEntry) (w : World) : World :=
  {| settings := settings w; token := token w; mapping := mapping w;
     solved := solved w; queue := queue w; lastSync := lastSync w;
     storedLogs := v; loggerLogs := loggerLogs w;
     loggerInitialized := loggerInitialized w; isProcessing := isProcessing w;
     timers := timers w; ticks := ticks w; rands := rands w; sent := sent w;
     attempts := attempts w; ops := ops w |}.

Definition set_loggerLogs (v : list LogEntry) (w : World) : World :=
  {| settings := settings w; token := token w; mapping := mapping w;
     solved := solved w; queue := queue w; lastSync := lastSync w;
     storedLogs := storedLogs w; loggerLogs := v;
     loggerInitialized := loggerInitialized w; isProcessing := isProcessing w;
     timers := timers w; ticks := ticks w; rands := rands w; sent := sent w;
     attempts := attempts w; ops := ops w |}.

Definition set_loggerInitialized (v : bool) (w : World) : World :=
  {| settings := settings w; token := token w; mapping := mapping w;
     solved := solved w; queue := queue w; lastSync := lastSync w;
     storedLogs := storedLogs w; loggerLogs := loggerLogs w;
     loggerInitialized := v; isProcessing := isProcessing w;
     timers := timers w; ticks := ticks w; rands := rands w; sent := sent w;
     attempts := attempts w; ops := ops w |}.

Definition set_isProcessing (v : bool) (w : World) : World :=
  {| settings := settings w; token := token w; mapping := mapping w;
     solved := solved w; queue := queue w; lastSync := lastSync w;
     storedLogs := storedLogs w; loggerLogs := loggerLogs w;
     loggerInitialized := loggerInitialized w; isProcessing := v;
     timers := timers w; ticks := ticks w; rands := rands w; sent := sent w;
     attempts := attempts w; ops := ops w |}.

Definition set_timers (v : list Z) (w : World) : World :=
  {| settings := settings w; token := token w; mapping := mapping w;
     solved := solved w; queue := queue w; lastSync := lastSync w;
     storedLogs := storedLogs w; loggerLogs := loggerLogs w;
     loggerInitialized := loggerInitialized w; isProcessing := isProcessing w;
     timers := v; ticks := ticks w; rands := rands w; sent := sent w;
     attempts := attempts w; ops := ops w |}.

Definition set_ticks (v : nat) (w : World) : World :=
  {| settings := settings w; token := token w; mapping := mapping w;
     solved := solved w; queue := queue w; lastSync := lastSync w;
     storedLogs := storedLogs w; loggerLogs := loggerLogs w;
     loggerInitialized := loggerInitialized w; isProcessing := isProcessing w;
     timers := timers w; ticks := v; rands := rands w; sent := sent w;
     attempts := attempts w; ops := ops w |}.

Definition set_rands (v : nat) (w : World) : World :=
  {| settings := settings w; token := token w; mapping := mapping w;
     solved := solved w; queue := queue w; lastSync := lastSync w;
     storedLogs := storedLogs w; loggerLogs := loggerLogs w;
     loggerInitialized := loggerInitialized w; isProcessing := isProcessing w;
     timers := timers w; ticks := ticks w; rands := v; sent := sent w;
     attempts := attempts w; ops := ops w |}.

Definition set_sent (v : list Request) (w : World) : World :=
  {| settings := settings w; token := token w; mapping := mapping w;
     solved := solved w; queue := queue w; lastSync := lastSync w;
     storedLogs := storedLogs w; loggerLogs := loggerLogs w;
     loggerInitialized := loggerInitialized w; isProcessing := isProcessing w;
     timers := timers w; ticks := ticks w; rands := rands w; sent := v;
     attempts := attempts w; ops := ops w |}.

Definition set_attempts (v : list (QueueItem * Outcome)) (w : World) : World :=
  {| settings := settings w; token := token w; mapping := mapping w;
     solved := solved w; queue := queue w; lastSync := lastSync w;
     storedLogs := storedLogs w; loggerLogs := loggerLogs w;
     loggerInitialized := loggerInitialized w; isProcessing := isProcessing w;
     timers := timers w; ticks := ticks w; rands := rands w; sent := sent w;
     attempts := v; ops := ops w |}.

Definition set_ops (v : list StorageOp) (w : World) : World :=
  {| settings := settings w; token := token w; mapping := mapping w;
     solved := solved w; queue := queue w; lastSync := lastSync w;
     storedLogs := storedLogs w; loggerLogs := loggerLogs w;
     loggerInitialized := loggerInitialized w; isProcessing := isProcessing w;
     timers := timers w; ticks := ticks w; rands := rands w; sent := sent w;
     attempts := attempts w; ops := v |}.

(** ** A state and exception monad for the asynchronous code

    An [async] function is run to completion; [await] is sequencing. *)

Definition M (A : Type) : Type := World -> Result A * World.

Definition ret {A} (a : A) : M A := fun w => (Ok a, w).

Definition bind {A B} (m : M A) (k : A -> M B) : M B :=
  fun w =>
    match m w with
    | (Ok a, w') => k a w'
    | (Throw e, w') => (Throw e, w')
    end.

Definition throw {A} (e : jsstring) : M A := fun w => (Throw e, w).

(** [try { m } catch (error) { h error.message }] *)
Definition try_catch {A} (m : M A) (h : jsstring -> M A) : M A :=
  fun w =>
    match m w with
    | (Ok a, w') => (Ok a, w')
    | (Throw e, w') => h e w'
    end.

(** [try { m } finally { f }], for an [f] that does not throw. *)
Definition try_finally {A} (m : M A) (f : World -> World) : M A :=
  fun w => let (r, w') := m w in (r, f w').

Definition gets {A} (f : World -> A) : M A := fun w => (Ok (f w), w).
Definition modify (f : World -> World) : M unit := fun w => (Ok tt, f w).

Definition exec {A} (m : M A) (w : World) : World := snd (m w).
Definition result {A} (m : M A) (w : World) : Result A := fst (m w).

#[global] Instance M_ret : MRet M := @ret.
#[global] Instance M_bind : MBind M := fun A B k m => bind m k.

(** [String(n)] for an integer-valued number. *)
Definition numberToString (n : Z) : jsstring :=
  lit (DecimalString.NilZero.string_of_int (Z.to_int n)).

Arguments lit : simpl never.
Arguments numberToString : simpl never.

(** ** [Date.prototype.toISOString]

    The day of the proleptic Gregorian calendar, in UTC, that is [days]
    days after 1 January 1970: year, month and day of the month. *)
Definition civil (days : Z) : Z * Z * Z :=
  let z := days + 719468 in
  let era := z / 146097 in
  let doe := z - era * 146097 in
  let yoe := (doe - doe / 1460 + doe / 36524 - doe / 146096) / 365 in
  let doy := doe - (365 * yoe + yoe / 4 - yoe / 100) in
  let mp := (5 * doy + 2) / 153 in
  let d := doy - (153 * mp + 2) / 5 + 1 in
  let m := if mp <? 10 then mp + 3 else mp - 9 in
  (if m <=? 2 then yoe + era * 400 + 1 else yoe + era * 400, m, d).

(** A number of [0..] in at least [n] digits. *)
Definition digits (n : nat) (z : Z) : jsstring :=
  let s := numberToString z in
  repeat 48%N (n - length s) ++ s.

(** [new Date(t).toISOString()] for a time [t], in ms, that is a date of
    the calendar: YYYY-MM-DDTHH:mm:ss.sssZ, the year in six digits with
    its sign when it is not one of 0..9999. *)
Definition isoString (t : Z) : jsstring :=
  let ms := t mod 86400000 in
  let '(y, m, d) := civil (t / 86400000) in
  (if (0 <=? y) && (y <=? 9999) then digits 4 y
   else lit (if y <? 0 then "-" else "+") ++ digits 6 (Z.abs y))
  ++ lit "-" ++ digits 2 m ++ lit "-" ++ digits 2 d
  ++ lit "T" ++ digits 2 (ms / 3600000)
  ++ lit ":" ++ digits 2 (ms / 60000 mod 60)
  ++ lit ":" ++ digits 2 (ms / 1000 mod 60)
  ++ lit "." ++ digits 3 (ms mod 1000) ++ lit "Z".

(** ** What is taken from the engine

    [toLowerCase] and [toUpperCase] follow the case tables of the Unicode
    version the engine ships, and they are not unit by unit (sharp s has
    the upper case "SS", the Kelvin sign the lower case "k").  On Basic
    Latin text the answer is fixed and written out below; beyond it the
    embedding takes the engine's answer as it is given, and what is
    proved holds for every engine. *)
Class Engine := {
  lowerCase : jsstring -> jsstring;
  upperCase : jsstring -> jsstring
}.

(** An engine for the examples: beyond Basic Latin it has the case pairs
    of Latin-1 and the Kelvin sign. *)
Definition latin1Lower (c : N) : jsstring :=
  if ((0xC0 <=? c) && (c <=? 0xDE) && negb (c =? 0xD7))%N then [(c + 32)%N]
  else if (c =? 0x212A)%N then [107%N]
  else [lower_unit c].

Definition latin1Upper (c : N) : jsstring :=
  if ((0xE0 <=? c) && (c <=? 0xFE) && negb (c =? 0xF7))%N then [(c - 32)%N]
  else if (c =? 0xDF)%N then [83%N; 83%N]
  else if (c =? 0xFF)%N then [0x178%N]
  else if (c =? 0xB5)%N then [0x39C%N]
  else [upper_unit c].

Definition exampleEngine : Engine := {|
  lowerCase := List.flat_map latin1Lower;
  upperCase := List.flat_map latin1Upper
|}.

Section Engine.

Context {engine : Engine}.

(** [s.toLowerCase()] and [s.toUpperCase()] *)
Definition toLowerCase (s : jsstring) : jsstring :=
  if isBasicLatin s then List.map lower_unit s else lowerCase s.

Definition toUpperCase (s : jsstring) : jsstring :=
  if isBasicLatin s then List.map upper_unit s else upperCase s.

(** The own property [key] of [LANGUAGE_EXTENSIONS]. *)
Fixpoint extensionOf (table : list (string * string)) (key : jsstring)
  : option jsstring :=
  match table with
  | [] => None
  | (k, v) :: table' =>
      if Js.eqb (lit k) key then Some (lit v) else extensionOf table' key
  end.

(** What a template literal makes of the member of [Object.prototype]
    with the name [key], as V8 prints it: the source text of a built-in
    function and, for "__proto__", the tag of the prototype object. *)
Definition inheritedText (key : jsstring) : jsstring :=
  if Js.eqb key protoKey then lit "[object Object]"
  else
    lit "function "
    ++ (if Js.eqb key (lit "constructor") then lit "Object" else key)
    ++ lit "() { [native code] }".

(** [getExtension]: [LANGUAGE_EXTENSIONS[normalized] || 'txt'].  The
    table is an object literal, so for a name that every object inherits
    the lookup answers a function or the prototype, which is truthy; the
    only use of the answer is the template literal of [buildFilePath],
    and the answer is given here as that template prints it. *)
Definition getExtension (language : jsstring) : jsstring :=
  let normalized := trim (toLowerCase language) in
  match extensionOf LANGUAGE_EXTENSIONS normalized with
  | Some e => if truthy e then e else lit "txt"
  | None =>
      if isInherited normalized then inheritedText normalized else lit "txt"
  end.

(** ** normalize.ts *)

Definition is_invalid_char (c : N) : bool :=
  ((c =? 60) || (c =? 62) || (c =? 58) || (c =? 34) || (c =? 47)
   || (c =? 92) || (c =? 124) || (c =? 63) || (c =? 42))%N.

Definition sanitize (str : jsstring) : jsstring :=
  substring0 100
    (trimUnderscores
       (replaceRuns is_underscore underscore false
          (replaceRuns is_space underscore false
             (removeUnits is_invalid_char str)))).

Definition capitalize (word : jsstring) : jsstring :=
  toUpperCase (firstn 1 word) ++ skipn 1 word.

Definition slugToTitle (slug : jsstring) : jsstring :=
  join (lit " ") (List.map capitalize (split 45 slug)).

Definition ampersand : N := 38.

Definition normalizeCategory (category : jsstring) : jsstring :=
  sanitize (trim (replaceAllUnit ampersand (lit "And") category)).

Definition normalizeListName (listName : jsstring) : jsstring :=
  sanitize (trim (replaceAllUnit ampersand (lit "And") listName)).

Definition normalizeDifficulty (difficulty : option jsstring)
  : option jsstring :=
  match difficulty with
  | None => None
  | Some d =>
      if negb (truthy d) then None
      else
        let lower := trim (toLowerCase d) in
        if includes lower (lit "easy") then Some (lit "Easy")
        else if includes lower (lit "medium") then Some (lit "Medium")
        else if includes lower (lit "hard") then Some (lit "Hard")
        else None
  end.

(** The file name of [buildFilePath]. *)
Definition buildFileName (settings : Settings) (slug title language : jsstring)
  : jsstring :=
  let ext := getExtension language in
  let sanitizedTitle :=
    sanitize (if truthy title then title else slugToTitle slug) in
  if filenameIncludeSlug settings
  then slug ++ lit "__" ++ sanitizedTitle ++ lit "." ++ ext
  else sanitizedTitle ++ lit "." ++ ext.

(** The folders [buildFilePath] pushes after [baseDir]. *)
Definition folderParts (settings : Settings)
    (mappingEntry : option MappingEntry) (difficulty : option jsstring)
  : list jsstring :=
  let category := mappingEntry ≫= me_category in
  let listName := mappingEntry ≫= me_listName in
  let difficultyNorm :=
    normalizeDifficulty (or_else difficulty (mappingEntry ≫= me_difficulty)) in
  let categoryPart :=
    match category with
    | Some c => if truthy c then normalizeCategory c else lit "Unsorted"
    | None => lit "Unsorted"
    end in
  match organizationMode settings with
  | AUTO =>
      [ match listName with
        | Some l =>
            if includeListFolderWhenKnown settings && truthy l
            then normalizeListName l else lit "Problems"
        | None => lit "Problems"
        end ]
      ++ match difficultyNorm with
         | Some d => if includeDifficultyFolder settings then [d] else []
         | None => []
         end
      ++ [categoryPart]
  | CATEGORY => [lit "Problems"; categoryPart]
  | DIFFICULTY =>
      [lit "Problems"; default (lit "Unknown_Difficulty") difficultyNorm]
  | FLAT => [lit "Problems"]
  end.

Definition pathParts (settings : Settings) (slug title language : jsstring)
    (mappingEntry : option MappingEntry) (difficulty : option jsstring)
  : list jsstring :=
  [baseDir settings]
  ++ folderParts settings mappingEntry difficulty
  ++ [buildFileName settings slug title language].

Definition buildFilePath (settings : Settings) (slug title language : jsstring)
    (mappingEntry : option MappingEntry) (difficulty : option jsstring)
  : jsstring :=
  join (lit "/") (pathParts settings slug title language mappingEntry difficulty).

Definition flatSettings : Settings := {|
  repoFullName := lit "octocat/solutions";
  branch := branch DEFAULT_SETTINGS;
  baseDir := baseDir DEFAULT_SETTINGS;
  organizationMode := FLAT;
  overwrite := overwrite DEFAULT_SETTINGS;
  includeHeader := includeHeader DEFAULT_SETTINGS;
  includeDifficultyFolder := includeDifficultyFolder DEFAULT_SETTINGS;
  includeListFolderWhenKnown := includeListFolderWhenKnown DEFAULT_SETTINGS;
  filenameIncludeSlug := filenameIncludeSlug DEFAULT_SETTINGS;
  debugMode := debugMode DEFAULT_SETTINGS
|}.

(** *** The header of a committed file *)

Record CommentStyle := {
  cs_start : jsstring;
  cs_line : jsstring;
  cs_end : jsstring
}.

Definition blockStyle : CommentStyle :=
  {| cs_start := lit "/*"; cs_line := lit " *"; cs_end := lit " */" |}.

Definition markerStyle (m : string) : CommentStyle :=
  {| cs_start := lit m; cs_line := lit m; cs_end := lit m |}.

(** [names.some(l => lower.includes(l))] *)
Definition someIncluded (lower : jsstring) (names : list string) : bool :=
  existsb (fun l => includes lower (lit l)) names.

Definition getCommentStyle (language : jsstring) : CommentStyle :=
  let lower := toLowerCase language in
  if someIncluded lower
       ["java"; "javascript"; "typescript"; "cpp"; "c++"; "c"; "csharp";
        "c#"; "go"; "golang"; "rust"; "swift"; "kotlin"; "scala"; "dart";
        "php"]%string
  then blockStyle
  else if someIncluded lower
            ["python"; "python3"; "ruby"; "elixir"; "perl"]%string
  then markerStyle "#"
  else if someIncluded lower ["racket"; "lisp"; "scheme"]%string
  then markerStyle ";"
  else if someIncluded lower ["erlang"]%string
  then markerStyle "%"
  else markerStyle "//".

Definition newline : jsstring := [10%N].

(** [if (value) { lines.push(`${commentStyle.line} Label: ${value}`) }] *)
Definition headerLine (cs : CommentStyle) (label : string)
    (value : option jsstring) : list jsstring :=
  match value with
  | Some v => if truthy v then [cs_line cs ++ lit label ++ v] else []
  | None => []
  end.

Section Header.

(** [new Date(t).toISOString()], for a time the calendar can hold. *)
Variable toISOString : Z -> jsstring.

(** The lines [generateHeader] pushes, the empty last one included. *)
Definition headerLines (slug' title' : jsstring)
    (difficulty' category' listName' language' runtime' memory' : option jsstring)
    (solvedAt' : option Z) : list jsstring :=
  let commentStyle :=
    getCommentStyle
      (match language' with
       | Some l => if truthy l then l else lit "unknown"
       | None => lit "unknown"
       end) in
  [cs_start commentStyle;
   cs_line commentStyle ++ lit " Problem: " ++ title';
   cs_line commentStyle ++ lit " Slug: " ++ slug';
   cs_line commentStyle ++ lit " URL: https://neetcode.io/problems/" ++ slug']
  ++ headerLine commentStyle " Difficulty: " difficulty'
  ++ headerLine commentStyle " Category: " category'
  ++ headerLine commentStyle " List: " listName'
  ++ headerLine commentStyle " Runtime: " runtime'
  ++ headerLine commentStyle " Memory: " memory'
  ++ match solvedAt' with
     | Some t =>
         if t =? 0 then []
         else [cs_line commentStyle ++ lit " Solved: " ++ toISOString t]
     | None => []
     end
  ++ [cs_end commentStyle; []].

(** [lines.filter(Boolean).join('\n')] *)
Definition generateHeader (slug' title' : jsstring)
    (difficulty' category' listName' language' runtime' memory' : option jsstring)
    (solvedAt' : option Z) : jsstring :=
  join newline
    (List.filter truthy
       (headerLines slug' title' difficulty' category' listName' language'
          runtime' memory' solvedAt')).

End Header.

(** The content [processItem] commits for an item: the code, under the
    header when [includeHeader] is set. *)
Definition itemContent (toISOString : Z -> jsstring) (st : Settings)
    (item : QueueItem) (mappingEntry : option MappingEntry) : jsstring :=
  if includeHeader st then
    generateHeader toISOString (slug item) (title item)
      (or_else (difficulty item) (mappingEntry ≫= me_difficulty))
      (or_else (category item) (mappingEntry ≫= me_category))
      (or_else (listName item) (mappingEntry ≫= me_listName))
      (Some (language item))
      (meta item ≫= runtime) (meta item ≫= memory)
      (Some (at_ item))
    ++ code item
  else code item.

(** ** progress.ts: how a difficulty is shown *)

(** The circles of the badges, as surrogate pairs. *)
Definition greenCircle : jsstring := [0xD83D; 0xDFE2]%N.
Definition yellowCircle : jsstring := [0xD83D; 0xDFE1]%N.
Definition redCircle : jsstring := [0xD83D; 0xDD34]%N.

Definition getDifficultyBadge (difficulty' : option jsstring) : jsstring :=
  match difficulty' with
  | None => []
  | Some d =>
      if negb (truthy d) then []
      else
        let lower := toLowerCase d in
        if includes lower (lit "easy") then greenCircle
        else if includes lower (lit "medium") then yellowCircle
        else if includes lower (lit "hard") then redCircle
        else []
  end.

(** The counters of the statistics of [generateProgressMd]. *)
Record Difficulties := { Easy : Z; Medium : Z; Hard : Z; Unknown : Z }.

(** [diff?.includes(word)], where [undefined] is falsy. *)
Definition optIncludes (diff : option jsstring) (word : string) : bool :=
  match diff with
  | Some d => includes d (lit word)
  | None => false
  end.

(** One turn of the loop that counts. *)
Definition countDifficulty (difficulties : Difficulties) (entry : SolvedEntry)
  : Difficulties :=
  let diff := toLowerCase <$> se_difficulty entry in
  if optIncludes diff "easy" then
    {| Easy := Easy difficulties + 1; Medium := Medium difficulties;
       Hard := Hard difficulties; Unknown := Unknown difficulties |}
  else if optIncludes diff "medium" then
    {| Easy := Easy difficulties; Medium := Medium difficulties + 1;
       Hard := Hard difficulties; Unknown := Unknown difficulties |}
  else if optIncludes diff "hard" then
    {| Easy := Easy difficulties; Medium := Medium difficulties;
       Hard := Hard difficulties + 1; Unknown := Unknown difficulties |}
  else
    {| Easy := Easy difficulties; Medium := Medium difficulties;
       Hard := Hard difficulties; Unknown := Unknown difficulties + 1 |}.

(** The counters after the loop over [Object.keys(solved)]; [entries'] are
    the solved entries in that order. *)
Definition countDifficulties (entries' : list SolvedEntry) : Difficulties :=
  fold_left countDifficulty entries'
    {| Easy := 0; Medium := 0; Hard := 0; Unknown := 0 |}.

(** ** The content script and the popup *)

(** [ToInt32], what the bit operators make of a number. *)
Definition toInt32 (x : Z) : Z := (x + 2 ^ 31) mod 2 ^ 32 - 2 ^ 31.

(** [hash = ((hash << 5) - hash) + char; hash = hash & hash] *)
Definition simpleHashStep (hash : Z) (char : N) : Z :=
  let hash' := toInt32 (Z.shiftl (toInt32 hash) 5) - hash + Z.of_N char in
  Z.land (toInt32 hash') (toInt32 hash').

(** A digit of [toString(36)]. *)
Definition digit36 (d : Z) : N :=
  if d <? 10 then Z.to_N (48 + d) else Z.to_N (87 + d).

(** The digits of a positive number in base 36, most significant first,
    in front of [acc]. *)
Fixpoint digits36 (fuel : nat) (n : Z) (acc : jsstring) : jsstring :=
  match fuel with
  | O => acc
  | S fuel' =>
      if n <? 36 then digit36 n :: acc
      else digits36 fuel' (n / 36) (digit36 (n mod 36) :: acc)
  end.

(** [n.toString(36)] for a 32-bit integer. *)
Definition toString36 (n : Z) : jsstring :=
  if n <? 0 then lit "-" ++ digits36 7 (- n) [] else digits36 7 n [].

Definition simpleHash (str : jsstring) : jsstring :=
  toString36 (fold_left simpleHashStep str 0).

(** [formatRelativeTime(date)] of the popup, called when the clock reads
    [now']; both are times in milliseconds. *)
Definition formatRelativeTime (now' date : Z) : jsstring :=
  let diff := now' - date in
  let seconds := diff / 1000 in
  let minutes := seconds / 60 in
  let hours := minutes / 60 in
  let days := hours / 24 in
  if 0 <? days then numberToString days ++ lit "d ago"
  else if 0 <? hours then numberToString hours ++ lit "h ago"
  else if 0 <? minutes then numberToString minutes ++ lit "m ago"
  else lit "Just now".

(** ** The content scripts: slugs in URLs *)

(** [/], [?] and [#] *)
Definition isDelimiter (c : N) : bool := ((c =? 47) || (c =? 63) || (c =? 35))%N.

Definition isSlash (c : N) : bool := (c =? 47)%N.

(** The longest run of units outside the set at the start of the string:
    what [[^set]+] captures there. *)
Fixpoint captureRun (delim : N -> bool) (s : jsstring) : jsstring :=
  match s with
  | c :: s' => if delim c then [] else c :: captureRun delim s'
  | [] => []
  end.

(** [s.match(/\/problems\/([^set]+)/)]: the group of the leftmost match,
    that is of the first place where "/problems/" is followed by a unit
    outside the set. *)
Fixpoint matchProblems (delim : N -> bool) (s : jsstring) : option jsstring :=
  match s with
  | [] => None
  | _ :: s' =>
      if startsWith (lit "/problems/") s then
        match captureRun delim (skipn 10 s) with
        | [] => matchProblems delim s'
        | group => Some group
        end
      else matchProblems delim s'
  end.

(** parse_lists.ts, [extractSlug]; [None] is [null]. *)
Definition extractSlug (href : jsstring) : option jsstring :=
  matchProblems isDelimiter href.

(** The content script's [getSlug], for the path of the page. *)
Definition getSlug (pathname : jsstring) : jsstring :=
  default (lit "unknown") (matchProblems isSlash pathname).

(** The address [generateHeader] and [generateProgressMd] write for a
    slug. *)
Definition problemUrl (slug' : jsstring) : jsstring :=
  lit "https://neetcode.io/problems/" ++ slug'.

(** ** progress.ts: the table of recent solutions *)

(** [rows.sort((a, b) => b.solvedAt - a.solvedAt)]: the sort of an array
    is stable, so a row goes in front of the rows that are not newer. *)
Fixpoint insertRow (x : jsstring * SolvedEntry)
    (l : list (jsstring * SolvedEntry)) : list (jsstring * SolvedEntry) :=
  match l with
  | [] => [x]
  | y :: l' =>
      if solvedAt (snd y) <=? solvedAt (snd x) then x :: l
      else y :: insertRow x l'
  end.

Definition sortNewestFirst (rows : list (jsstring * SolvedEntry))
  : list (jsstring * SolvedEntry) :=
  fold_right insertRow [] rows.

(** The rows of the table "Recently Solved" of [generateProgressMd];
    [rows] are the solved entries with their slugs, in the order of
    [Object.keys(solved)]. *)
Definition recentRows (rows : list (jsstring * SolvedEntry))
  : list (jsstring * SolvedEntry) :=
  firstn 20 (sortNewestFirst rows).

Section Program.

Variable env : Env.

(** [Date.now()] *)
Definition now : M Z :=
  fun w => (Ok (clock env (ticks w)), set_ticks (S (ticks w)) w).

(** [Math.random().toString(36).substr(2, 9)] *)
Definition randomSuffix : M jsstring :=
  fun w => (Ok (random env (rands w)), set_rands (S (rands w)) w).

(** [`${Date.now()}-${Math.random().toString(36).substr(2, 9)}`] *)
Definition generateId : M jsstring :=
  t ← now; r ← randomSuffix; mret (numberToString t ++ lit "-" ++ r).

(** [chrome.storage.*.get(key)] and [.set({ [key]: value })], noted in the
    history. *)
Definition storageGet {A} (k : Key) (f : World -> A) : M A :=
  fun w => (Ok (f w), set_ops (ops w ++ [OpGet k]) w).

Definition storageSet (k : Key) (f : World -> World) : M unit :=
  fun w => (Ok tt, set_ops (ops w ++ [OpSet k]) (f w)).

(** *** logger.ts *)

Definition MAX_LOGS : nat := 100.

Definition logger_init : M unit :=
  initialized ← gets loggerInitialized;
  if initialized : bool then mret tt
  else
    stored ← storageGet KLogs storedLogs;
    modify (fun w => set_loggerInitialized true (set_loggerLogs stored w)).

Definition logger_persist : M unit :=
  logs ← gets loggerLogs;
  storageSet KLogs (set_storedLogs logs).

Definition addLog (level : Level) (message : jsstring)
    (details : option jsstring) : M unit :=
  logger_init;;
  i ← generateId;
  t ← now;
  let entry := {| le_id := i; le_timestamp := t; le_level := level;
                  le_message := message; le_details := details |} in
  modify (fun w =>
    let logs := entry :: loggerLogs w in
    set_loggerLogs
      (if decide (MAX_LOGS < length logs)%nat then firstn MAX_LOGS logs
       else logs) w);;
  logger_persist.

Definition logger_info := addLog LInfo.
Definition logger_warn := addLog LWarn.
Definition logger_error := addLog LError.
Definition logger_success := addLog LSuccess.

(** *** storage.ts

    The stored settings are kept merged with [DEFAULT_SETTINGS], the stored
    mapping, progress and queue with their empty defaults. *)

Definition getSettings : M Settings := storageGet KSettings settings.
Definition getToken : M (option jsstring) :=
  storageGet KToken (fun w => if otruthy (token w) then token w else None).
Definition getMapping : M Mapping := storageGet KMapping mapping.
Definition saveMapping (m : Mapping) : M unit :=
  storageSet KMapping (set_mapping m).
Definition getProgress : M (gmap jsstring SolvedEntry) :=
  storageGet KProgress solved.
Definition saveProgress (p : gmap jsstring SolvedEntry) : M unit :=
  storageSet KProgress (set_solved p).
Definition getQueue : M (list QueueItem) := storageGet KQueue queue.
Definition saveQueue (q : list QueueItem) : M unit :=
  storageSet KQueue (set_queue q).
Definition setLastSync (timestamp : Z) : M unit :=
  storageSet KLastSync (set_lastSync (Some timestamp)).

(** The entry sent with a catalog merge. *)
Record IncomingEntry := {
  in_title : option jsstring;
  in_category : option jsstring;
  in_listName : option jsstring;
  in_difficulty : option jsstring;
  sourceUrl : jsstring
}.

(** [[...new Set(l)]]: the first occurrence of each element, in order. *)
Fixpoint uniq (seen l : list jsstring) : list jsstring :=
  match l with
  | [] => []
  | x :: l' =>
      if bool_decide (x ∈ seen) then uniq seen l'
      else x :: uniq (x :: seen) l'
  end.

(** The entry [mergeMapping] stores for a slug. *)
Definition mergeEntry (existing : option MappingEntry) (entry : IncomingEntry)
  : MappingEntry :=
  {| me_title := or_else (in_title entry) (existing ≫= me_title);
     me_category := or_else (in_category entry) (existing ≫= me_category);
     me_listName := or_else (in_listName entry) (existing ≫= me_listName);
     me_difficulty :=
       or_else (in_difficulty entry) (existing ≫= me_difficulty);
     me_sources :=
       Some (uniq [] (default [] (existing ≫= me_sources)
                      ++ [sourceUrl entry])) |}.

(** The loop of [mergeMapping] over [current.entries].  What
    [current.entries[slug]] finds other than an own entry (an inherited
    function, the prototype, or a member of an entry that an earlier turn
    has made the prototype) has no [title], [category], [listName],
    [difficulty] or [sources]: [existing] then gives nothing, as [{}]
    does. *)
Definition mergeEntries (newEntries : list (jsstring * IncomingEntry))
    (current : gmap jsstring MappingEntry) : gmap jsstring MappingEntry :=
  fold_left
    (fun acc '(slug, entry) => assign slug (mergeEntry (acc !! slug) entry) acc)
    newEntries current.

(** [newEntries] lists [Object.entries(newEntries)]: the own properties,
    each key once. *)
Definition mergeMapping (newEntries : list (jsstring * IncomingEntry))
  : M Mapping :=
  current ← getMapping;
  let merged := mergeEntries newEntries (entries current) in
  t ← now;
  let updated :=
    {| version := version current; updatedAt := t; entries := merged |} in
  saveMapping updated;;
  mret updated.

(** [updateSolved]: [data] has every member of a solved entry, so the
    spread of what was there before adds nothing to it.  Storage keeps the
    own properties. *)
Definition updateSolved (slug : jsstring) (data : SolvedEntry)
  : M (gmap jsstring SolvedEntry) :=
  progress ← getProgress;
  let progress' := assign slug data progress in
  saveProgress progress';;
  mret progress'.

Definition removeFromQueue (i : jsstring) : M unit :=
  q ← getQueue;
  saveQueue (List.filter (fun item => negb (Js.eqb (id item) i)) q).

Definition with_retry (retries' : Z) (lastAttempt' : Z) (item : QueueItem)
  : QueueItem :=
  {| id := id item; slug := slug item; title := title item;
     category := category item; listName := listName item;
     difficulty := difficulty item; language := language item;
     code := code item; meta := meta item; source := source item;
     at_ := at_ item; retries := retries';
     lastAttempt := Some lastAttempt' |}.

(** [queue[index] = { ...queue[index], ...updates }] at the first index
    whose item has the id. *)
Fixpoint updateFirst (i : jsstring) (f : QueueItem -> QueueItem)
    (q : list QueueItem) : option (list QueueItem) :=
  match q with
  | [] => None
  | item :: q' =>
      if Js.eqb (id item) i then Some (f item :: q')
      else cons item <$> updateFirst i f q'
  end.

(** [updateQueueItem(id, { retries, lastAttempt })] *)
Definition updateQueueItem (i : jsstring) (retries' lastAttempt' : Z)
  : M unit :=
  q ← getQueue;
  match updateFirst i (with_retry retries' lastAttempt') q with
  | Some q' => saveQueue q'
  | None => mret tt
  end.

(** *** github.ts *)

Definition statusOk (s : Z) : bool := (200 <=? s) && (s <=? 299).

(** [GitHubClient.request]: [fetch] is called; the answer is the parsed
    body of a 2xx answer ([{}] for 204), an exception otherwise, also when
    the body of a 2xx answer does not parse. *)
Definition request (method : Method) (file branch' : jsstring)
    (sha : option Json) : M Json :=
  let rq := {| rq_method := method; rq_file := file; rq_branch := branch';
               rq_sha := sha |} in
  n ← gets (fun w => length (sent w));
  modify (fun w => set_sent (sent w ++ [rq]) w);;
  match fetch env n rq with
  | Throw e => throw e
  | Ok response =>
      if negb (statusOk (status response)) then
        match bodyText response with
        | Ok errorText =>
            throw (lit "GitHub API error " ++ numberToString (status response)
                   ++ lit ": " ++ errorText)
        | Throw e => throw e
        end
      else if status response =? 204 then mret (JObject [])
      else match bodyJson response with
           | Ok v => mret v
           | Throw e => throw e
           end
  end.

(** [getFile]: the address is built inside the [try], with
    [encodeURIComponent] of the path and of the branch; [JNull] is the
    [null] of a failure whose message contains 404. *)
Definition getFile (path branch' : jsstring) : M Json :=
  try_catch
    (if wellFormed path && wellFormed branch'
     then request GET path branch' None
     else throw uriMalformed)
    (fun message =>
       if includes message (lit "404") then mret JNull else throw message).

(** [createOrUpdateFile]: the version token is looked up when none is
    given; the body is built, with
    [btoa(unescape(encodeURIComponent(content)))]; then the address, with
    [encodeURIComponent(path)]; then the request is made. *)
Definition createOrUpdateFile (path content branch' : jsstring)
    (existingSha : option Json) : M unit :=
  sha ← (if defined existingSha then mret existingSha
         else existing ← getFile path branch'; mret (shaOf existing));
  (if wellFormed content then mret tt else throw uriMalformed);;
  (if wellFormed path then mret tt else throw uriMalformed);;
  request PUT path branch' (if defined sha then sha else None);;
  mret tt.

(** [commitSolutionFile]: the [success] member of its answer. *)
Definition commitSolutionFile (branch' filePath content : jsstring)
    (overwrite' : bool) : M bool :=
  try_catch
    (existing ← getFile filePath branch';
     if jsonTruthy existing && negb overwrite' then
       logger_info (lit "File already exists, skipping: " ++ filePath) None;;
       mret true
     else
       createOrUpdateFile filePath content branch' (shaOf existing);;
       logger_success (lit "Committed: " ++ filePath) None;;
       mret true)
    (fun message =>
       logger_error (lit "Failed to commit " ++ filePath) (Some message);;
       mret false).

(** *** progress.ts

    [syncProgressFiles]: both documents are generated first (each reads
    the clock), then committed, PROGRESS.json before PROGRESS.md. *)
Definition syncProgressFiles (st : Settings)
    (progress : gmap jsstring SolvedEntry) (mp : Mapping) : M bool :=
  try_catch
    (let jsonPath := baseDir st ++ lit "/PROGRESS.json" in
     let mdPath := baseDir st ++ lit "/PROGRESS.md" in
     tj ← now;
     let jsonContent := progressJson env progress tj in
     tm ← now;
     mdContent ← match progressMd env progress mp tm with
                 | Ok text => mret text
                 | Throw e => throw e
                 end;
     existingJson ← getFile jsonPath (branch st);
     createOrUpdateFile jsonPath jsonContent (branch st) (shaOf existingJson);;
     existingMd ← getFile mdPath (branch st);
     createOrUpdateFile mdPath mdContent (branch st) (shaOf existingMd);;
     logger_success (lit "Progress files synced to GitHub") None;;
     mret true)
    (fun message =>
       logger_error (lit "Failed to sync progress files") (Some message);;
       mret false).

(** *** queue.ts *)

Definition MAX_RETRIES : Z := 5.
Definition BASE_DELAY : Z := 1000.
Definition MAX_DELAY : Z := 60000.

(** [getBackoffDelay], for a counter that is not negative. *)
Definition getBackoffDelay (retries' : Z) : Z :=
  Z.min (BASE_DELAY * 2 ^ retries') MAX_DELAY.

(** A recorded [lastAttempt] is a truthy number. *)
Definition recorded (o : option Z) : option Z :=
  match o with
  | Some t => if t =? 0 then None else Some t
  | None => None
  end.

(** The guard in front of an attempt: [false] is the [continue]. *)
Definition isDue (item : QueueItem) : M bool :=
  match recorded (lastAttempt item) with
  | Some last =>
      if 0 <? retries item then
        let delay := getBackoffDelay (retries item - 1) in
        t ← now;
        let timeSinceLastAttempt := t - last in
        mret (negb (timeSinceLastAttempt <? delay))
      else mret true
  | None => mret true
  end.

(** [new Date(t)] is a date of the calendar. *)
Definition validTime (t : Z) : bool := Z.abs t <=? 8640000000000000.

(** [processItem]: the path is resolved, the content built and the file
    committed.  Of [mapping.entries[item.slug]] only [category],
    [listName] and [difficulty] are read, which nothing inherited has.
    For a time that is no date of the calendar [toISOString], and so
    [generateHeader], throws a [RangeError]. *)
Definition processItem (item : QueueItem) (st : Settings) (mp : Mapping)
  : M bool :=
  let mappingEntry := entries mp !! slug item in
  let filePath :=
    buildFilePath st (slug item) (title item) (language item) mappingEntry
      (difficulty item) in
  content ←
    (if includeHeader st && negb (at_ item =? 0)
        && negb (validTime (at_ item))
     then throw (lit "Invalid time value")
     else mret (itemContent isoString st item mappingEntry));
  commitSolutionFile (branch st) filePath content (overwrite st).

(** [sha256(slug + language + code)] *)
Definition fingerprint (slug' language' code' : jsstring) : jsstring :=
  sha256 (slug' ++ language' ++ code').

(** The entry [updateSolved] is called with. *)
Definition solvedEntryOf (item : QueueItem) (mp : Mapping) : SolvedEntry :=
  let known := entries mp !! slug item in
  {| se_title := title item;
     se_category := or_else (category item) (known ≫= me_category);
     se_listName := or_else (listName item) (known ≫= me_listName);
     se_difficulty := or_else (difficulty item) (known ≫= me_difficulty);
     se_language := language item;
     solvedAt := at_ item;
     se_sha256 :=
       Some (fingerprint (slug item) (language item) (code item)) |}.

(** History: how the attempt of [item] ended. *)
Definition recordAttempt (item : QueueItem) (o : Outcome) : M unit :=
  modify (fun w => set_attempts (attempts w ++ [(item, o)]) w).

(** What the [catch] of the loop does with a failed attempt. *)
Definition onFailure (item : QueueItem) (message : jsstring) : M bool :=
  recordAttempt item (Failed message);;
  if MAX_RETRIES <=? retries item then
    logger_error
      (lit "Max retries reached for " ++ title item
       ++ lit ", removing from queue") (Some message);;
    removeFromQueue (id item);;
    mret true
  else
    t ← now;
    updateQueueItem (id item) (retries item + 1) t;;
    logger_warn
      (lit "Retry " ++ numberToString (retries item + 1) ++ lit "/"
       ++ numberToString MAX_RETRIES ++ lit " for " ++ title item)
      (Some message);;
    mret false.

(** The [try] and [catch] of the loop; the counters are
    [(processedCount, errorCount)]. *)
Definition attemptItem (st : Settings) (mp : Mapping) (counts : Z * Z)
    (item : QueueItem) : M (Z * Z) :=
  try_catch
    (success ← processItem item st mp;
     if success : bool then
       recordAttempt item Committed;;
       updateSolved (slug item) (solvedEntryOf item mp);;
       removeFromQueue (id item);;
       mret (fst counts + 1, snd counts)
     else throw (lit "Commit failed"))
    (fun message =>
       dropped ← onFailure item message;
       mret (if dropped : bool then (fst counts, snd counts + 1)
             else counts)).

(** One turn of the loop over the queue. *)
Definition processOne (st : Settings) (mp : Mapping) (counts : Z * Z)
    (item : QueueItem) : M (Z * Z) :=
  due ← isDue item;
  if negb due then mret counts
  else attemptItem st mp counts item.

Fixpoint processItems (st : Settings) (mp : Mapping) (items : list QueueItem)
    (counts : Z * Z) : M (Z * Z) :=
  match items with
  | [] => mret counts
  | item :: rest =>
      counts' ← processOne st mp counts item;
      processItems st mp rest counts'
  end.

(** What follows the loop. *)
Definition finishPass (st : Settings) (mp : Mapping) (counts : Z * Z)
  : M unit :=
  if 0 <? fst counts then
    updatedProgress ← getProgress;
    syncProgressFiles st updatedProgress mp;;
    t ← now;
    setLastSync t;;
    logger_success
      (lit "Queue processed: " ++ numberToString (fst counts)
       ++ lit " synced, " ++ numberToString (snd counts) ++ lit " failed")
      None
  else mret tt.

(** The body of the [try] of [processQueue]. *)
Definition processPass : M unit :=
  q ← getQueue;
  if bool_decide (length q = 0%nat) then mret tt
  else
    st ← getSettings;
    tok ← getToken;
    mp ← getMapping;
    if negb (otruthy tok) || negb (truthy (repoFullName st)) then
      logger_warn (lit "GitHub not configured, skipping queue processing") None
    else
      logger_info
        (lit "Processing " ++ numberToString (Z.of_nat (length q))
         ++ lit " queued items") None;;
      getProgress;;
      counts ← processItems st mp q (0, 0);
      finishPass st mp counts.

Definition processQueue : M unit :=
  busy ← gets isProcessing;
  if busy : bool then
    logger_info (lit "Queue processing already in progress") None
  else
    modify (set_isProcessing true);;
    try_finally processPass (set_isProcessing false).

(** The call [enqueueSubmission(slug, title, code, language, category,
    listName, difficulty, meta, source)]. *)
Record Submission := {
  sub_slug : jsstring;
  sub_title : jsstring;
  sub_code : jsstring;
  sub_language : jsstring;
  sub_category : option jsstring;
  sub_listName : option jsstring;
  sub_difficulty : option jsstring;
  sub_meta : option Meta;
  sub_source : Source
}.

Definition samePair (s : Submission) (item : QueueItem) : bool :=
  Js.eqb (slug item) (sub_slug s) && Js.eqb (language item) (sub_language s).

Definition newItem (s : Submission) (mp : Mapping) (at' : Z) (i : jsstring)
  : QueueItem :=
  let known := entries mp !! sub_slug s in
  {| id := i;
     slug := sub_slug s;
     title := if truthy (sub_title s) then sub_title s
              else slugToTitle (sub_slug s);
     category := or_else (sub_category s) (known ≫= me_category);
     listName := or_else (sub_listName s) (known ≫= me_listName);
     difficulty := or_else (sub_difficulty s) (known ≫= me_difficulty);
     language := sub_language s;
     code := sub_code s;
     meta := sub_meta s;
     source := sub_source s;
     at_ := at';
     retries := 0;
     lastAttempt := None |}.

Definition enqueueSubmission (s : Submission) : M bool :=
  getSettings;;
  getToken;;
  mp ← getMapping;
  localProgress ← getProgress;
  let codeHash := fingerprint (sub_slug s) (sub_language s) (sub_code s) in
  recent ←
    match member localProgress (sub_slug s) with
    | Own existingSolved =>
        t ← now;
        let timeSinceSolved := t - solvedAt existingSolved in
        mret (bool_decide (se_sha256 existingSolved = Some codeHash)
              && (timeSinceSolved <? 60000))
    | Inherited =>
        (* truthy: the clock is read; its [sha256] is [undefined] *)
        now;; mret false
    | Absent => mret false
    end;
  if recent : bool then
    logger_info (lit "Duplicate submission ignored: " ++ sub_title s) None;;
    mret false
  else
    q ← getQueue;
    let existingInQueue := List.find (samePair s) q in
    let alreadyQueued :=
      match existingInQueue with
      | Some existing =>
          Js.eqb
            (fingerprint (slug existing) (language existing) (code existing))
            codeHash
      | None => false
      end in
    if alreadyQueued then
      logger_info (lit "Already queued: " ++ sub_title s) None;;
      mret false
    else
      match existingInQueue with
      | Some existing => removeFromQueue (id existing)
      | None => mret tt
      end;;
      at' ← now;
      i ← generateId;
      (* [queue] still is the copy read above *)
      saveQueue (q ++ [newItem s mp at' i]);;
      logger_success
        (lit "Queued: " ++ sub_title s ++ lit " (" ++ sub_language s
         ++ lit ")") None;;
      modify (fun w => set_timers (timers w ++ [100]) w);;
      mret true.

(** *** logger.ts and storage.ts: what the state view reads *)

Definition logger_getLogs : M (list LogEntry) :=
  logger_init;;
  gets loggerLogs.

Definition logger_clear : M unit :=
  modify (set_loggerLogs []);;
  logger_persist.

(** [result[KEYS.lastSync] || null] *)
Definition getLastSync : M (option Z) :=
  storageGet KLastSync
    (fun w => match lastSync w with
              | Some t => if t =? 0 then None else Some t
              | None => None
              end).

(** *** The service worker: its message handlers *)

Record SubmissionPayload := {
  p_slug : jsstring;
  p_title : jsstring;
  p_category : option jsstring;
  p_listName : option jsstring;
  p_difficulty : option jsstring;
  p_language : option jsstring;
  p_code : option jsstring;
  p_meta : option Meta;
  p_source : Source;
  p_at : Z
}.

(** [`${value}`] for an optional string. *)
Definition template (value : option jsstring) : jsstring :=
  default (lit "undefined") value.

Definition sourceName (s : Source) : jsstring :=
  match s with SrcDom => lit "dom" | SrcIntercept => lit "intercept" end.

(** The arguments [handleSubmission] calls [enqueueSubmission] with. *)
Definition submissionOf (payload : SubmissionPayload) : Submission :=
  {| sub_slug := p_slug payload;
     sub_title := p_title payload;
     sub_code := default [] (p_code payload);
     sub_language :=
       if otruthy (p_language payload) then default [] (p_language payload)
       else lit "unknown";
     sub_category := p_category payload;
     sub_listName := p_listName payload;
     sub_difficulty := p_difficulty payload;
     sub_meta := p_meta payload;
     sub_source := p_source payload |}.

(** [handleSubmission]: the [success] member of its answer. *)
Definition handleSubmission (payload : SubmissionPayload) : M bool :=
  logger_info (lit "Submission received: " ++ p_title payload)
    (Some (lit "Language: " ++ template (p_language payload)
           ++ lit ", Source: " ++ sourceName (p_source payload)));;
  if negb (otruthy (p_code payload)) then
    logger_warn (lit "Submission has no code, skipping") None;;
    mret false
  else enqueueSubmission (submissionOf payload).

(** The own properties of [transformedEntries], an empty literal to which
    every entry of the payload is assigned under its slug: the
    assignment under "__proto__" adds none. *)
Definition transformedEntries (entries' : list (jsstring * IncomingEntry))
  : list (jsstring * IncomingEntry) :=
  List.filter (fun e => negb (Js.eqb (fst e) protoKey)) entries'.

(** [handleMappingMerge]: [payload.entries] as [Object.entries] lists it,
    each key once; the answer is [(success, count)]. *)
Definition handleMappingMerge (entries' : list (jsstring * IncomingEntry))
  : M (bool * Z) :=
  let entriesCount := Z.of_nat (length entries') in
  if entriesCount =? 0 then mret (true, 0)
  else
    mergeMapping (transformedEntries entries');;
    logger_info
      (lit "Mapping updated: " ++ numberToString entriesCount
       ++ lit " entries merged") None;;
    mret (true, entriesCount).

(** [handleSyncProgressNow]: the [success] member of its answer. *)
Definition handleSyncProgressNow : M bool :=
  tok ← getToken;
  st ← getSettings;
  if negb (otruthy tok) || negb (truthy (repoFullName st)) then
    logger_warn (lit "GitHub not configured") None;;
    mret false
  else
    progress ← getProgress;
    mp ← getMapping;
    syncProgressFiles st progress mp.

Record StateView := {
  sv_settings : Settings;
  sv_hasToken : bool;
  sv_mappingCount : nat;
  sv_mappingUpdatedAt : Z;
  sv_solvedCount : nat;
  sv_queueCount : nat;
  sv_lastSync : option Z;
  sv_isProcessing : bool;
  sv_logs : list LogEntry
}.

Definition handleGetState : M StateView :=
  st ← getSettings;
  tok ← getToken;
  mp ← getMapping;
  progress ← getProgress;
  q ← getQueue;
  last ← getLastSync;
  logs ← logger_getLogs;
  busy ← gets isProcessing;
  mret {| sv_settings := st;
          sv_hasToken := otruthy tok;
          sv_mappingCount := size (entries mp);
          sv_mappingUpdatedAt := updatedAt mp;
          sv_solvedCount := size progress;
          sv_queueCount := length q;
          sv_lastSync := last;
          sv_isProcessing := busy;
          sv_logs := firstn 50 logs |}.

Definition handleClearLogs : M bool :=
  logger_clear;;
  mret true.

Definition handleProcessQueue : M bool :=
  processQueue;;
  mret true.

End Program.

Arguments fingerprint : simpl never.


(** * Vocabulary of the properties *)

(** No code unit of the string is one of the nine characters that the
    first replacement of [sanitize] removes (angle brackets, colon, double
    quote, slash, backslash, bar, question mark, star). *)
Definition clean (s : jsstring) : Prop :=
  Forall (fun c => is_invalid_char c = false) s.

(** No code unit of the string is white space. *)
Definition spaceless (s : jsstring) : Prop :=
  Forall (fun c => is_space c = false) s.

(** No two underscores in a row. *)
Definition singleUnderscores (s : jsstring) : Prop :=
  forall l1 l2, s <> l1 ++ underscore :: underscore :: l2.

(** [t] is a run of consecutive units of [s]. *)
Definition infix (t s : jsstring) : Prop := exists a b, s = a ++ t ++ b.

(** After [/_+/g -> '_'] an underscore is followed by another unit. *)
Fixpoint noDouble (s : jsstring) : bool :=
  match s with
  | a :: (b :: _) as t => negb (is_underscore a && is_underscore b) && noDouble t
  | _ => true
  end.


(** The delay the guard asks of an item that has failed [k] times. *)
Definition requiredDelay (k : Z) : Z := getBackoffDelay (k - 1).

(** The ring buffer of the logger keeps the newest [MAX_LOGS] entries. *)
Definition keepNewest (logs : list LogEntry) : list LogEntry :=
  if decide (MAX_LOGS < length logs)%nat then firstn MAX_LOGS logs else logs.

(** Storage is accessed under the log key only. *)
Definition logsOnly (l : list StorageOp) : Prop :=
  Forall (fun o => o = OpGet KLogs \/ o = OpSet KLogs) l.

(** No token is stored or no repository is named. *)
Definition unconfigured (w : World) : Prop :=
  otruthy (token w) = false \/ truthy (repoFullName (settings w)) = false.

Definition notConfiguredWarning : jsstring :=
  lit "GitHub not configured, skipping queue processing".

(** The solved-set holds the fingerprint for the slug, solved less than a
    minute before the clock reading [t]. *)
Definition recentlySolved (s : Submission) (w : World) (t : Z) : bool :=
  match solved w !! sub_slug s with
  | Some e =>
      bool_decide
        (se_sha256 e
         = Some (fingerprint (sub_slug s) (sub_language s) (sub_code s)))
      && (t - solvedAt e <? 60000)
  | None => false
  end.

(** The first queued item of the pair carries the fingerprint. *)
Definition queuedSame (s : Submission) (q : list QueueItem) : bool :=
  match List.find (samePair s) q with
  | Some existing =>
      Js.eqb (fingerprint (slug existing) (language existing) (code existing))
        (fingerprint (sub_slug s) (sub_language s) (sub_code s))
  | None => false
  end.

(** What identifies a queued submission. *)
Definition summary (item : QueueItem) : jsstring * jsstring * jsstring * Z :=
  (slug item, language item, code item, retries item).

(** [w'] differs from [w] in the log, the requests sent, the storage
    accesses and the answers consumed at most. *)
Record quiet (w w' : World) : Prop := {
  quiet_settings : settings w' = settings w;
  quiet_token : token w' = token w;
  quiet_mapping : mapping w' = mapping w;
  quiet_solved : solved w' = solved w;
  quiet_queue : queue w' = queue w;
  quiet_lastSync : lastSync w' = lastSync w;
  quiet_isProcessing : isProcessing w' = isProcessing w;
  quiet_timers : timers w' = timers w;
  quiet_attempts : attempts w' = attempts w;
  quiet_ticks : (ticks w <= ticks w')%nat
}.

(** A statement that leaves every world [quiet]. *)
Definition Quiet {A} (m : M A) : Prop := forall w, quiet w (snd (m w)).

(** A statement that ends without an exception. *)
Definition NoThrow {A} (m : M A) : Prop := forall w, exists a, fst (m w) = Ok a.

(** The queue after [removeFromQueue(i)] and after
    [updateQueueItem(x.id, { retries: x.retries + 1, lastAttempt: t })]. *)
Definition withoutId (i : jsstring) (q : list QueueItem) : list QueueItem :=
  List.filter (fun item => negb (Js.eqb (id item) i)) q.

Definition retriedIn (x : QueueItem) (t : Z) (q : list QueueItem)
  : list QueueItem :=
  default q (updateFirst (id x) (with_retry (retries x + 1) t) q).

(** The queue and the attempts are those of [w], the clock has not gone
    back. *)
Definition sameQueue (w w' : World) : Prop :=
  queue w' = queue w /\ attempts w' = attempts w /\ (ticks w <= ticks w')%nat.

(** The item [x] is [item] after [f] failed attempts. *)
Definition afterFailures (item : QueueItem) (f : nat) (x : QueueItem) : Prop :=
  (f = 0%nat /\ x = item) \/ exists t, x = with_retry (Z.of_nat f) t item.

(** The attempt ended in the [catch] of the loop. *)
Definition failed (o : Outcome) : bool :=
  match o with Failed _ => true | Committed => false end.

Section Observations.

Variable env : Env.

(** The entry a call of the logger writes in world [w]. *)
Definition entryAt (w : World) (level : Level) (message : jsstring)
    (details : option jsstring) : LogEntry :=
  {| le_id := numberToString (clock env (ticks w)) ++ lit "-"
              ++ random env (rands w);
     le_timestamp := clock env (S (ticks w));
     le_level := level; le_message := message; le_details := details |}.

(** The world after a call of the logger. *)
Definition logged (level : Level) (message : jsstring)
    (details : option jsstring) (w : World) : World :=
  let base := if loggerInitialized w then loggerLogs w else storedLogs w in
  let kept := keepNewest (entryAt w level message details :: base) in
  {| settings := settings w; token := token w; mapping := mapping w;
     solved := solved w; queue := queue w; lastSync := lastSync w;
     storedLogs := kept; loggerLogs := kept; loggerInitialized := true;
     isProcessing := isProcessing w; timers := timers w;
     ticks := S (S (ticks w)); rands := S (rands w); sent := sent w;
     attempts := attempts w;
     ops := ops w ++ (if loggerInitialized w then [] else [OpGet KLogs])
            ++ [OpSet KLogs] |}.

(** What one turn of the loop does with item [x]. *)
Inductive turn (x : QueueItem) (w w' : World) : Prop :=
| turn_skipped :
    queue w' = queue w -> attempts w' = attempts w -> solved w' = solved w ->
    turn x w w'
| turn_committed :
    queue w' = withoutId (id x) (queue w) ->
    attempts w' = attempts w ++ [(x, Committed)] ->
    turn x w w'
| turn_dropped (message : jsstring) :
    MAX_RETRIES <= retries x ->
    queue w' = withoutId (id x) (queue w) ->
    attempts w' = attempts w ++ [(x, Failed message)] ->
    solved w' = solved w ->
    turn x w w'
| turn_retried (message : jsstring) (k : nat) :
    retries x < MAX_RETRIES ->
    (ticks w <= k < ticks w')%nat ->
    queue w' = retriedIn x (clock env k) (queue w) ->
    attempts w' = attempts w ++ [(x, Failed message)] ->
    solved w' = solved w ->
    turn x w w'.

(** The loop over the items read at the start of the pass. *)
Inductive runTurns : list QueueItem -> World -> World -> Prop :=
| run_done w : runTurns [] w w
| run_turn x items w w1 w2 :
    turn x w w1 -> (ticks w <= ticks w1)%nat -> runTurns items w1 w2 ->
    runTurns (x :: items) w w2.

(** The attempts of the call of [processQueue] in world [w]. *)
Definition attemptsOf (w : World) : list (QueueItem * Outcome) :=
  skipn (length (attempts w)) (attempts (exec (processQueue env) w)).

(** [n] calls of [processQueue] in a row. *)
Fixpoint passes (n : nat) (w : World) : World :=
  match n with
  | O => w
  | S n' => exec (processQueue env) (passes n' w)
  end.

(** The call of [processQueue] in world [w] attempts the item with
    identifier [i] and fails. *)
Definition failsIn (w : World) (i : jsstring) : bool :=
  existsb (fun a => Js.eqb (id (fst a)) i && failed (snd a)) (attemptsOf w).

(** The call of [processQueue] in world [w] commits the item with
    identifier [i]. *)
Definition commitsIn (w : World) (i : jsstring) : bool :=
  existsb (fun a => Js.eqb (id (fst a)) i && negb (failed (snd a)))
    (attemptsOf w).

(** The number of the first [n] calls of [processQueue] from [w] in which
    the attempt of the item with identifier [i] fails. *)
Fixpoint failures (n : nat) (w : World) (i : jsstring) : nat :=
  match n with
  | O => 0
  | S n' =>
      failures n' w i + (if failsIn (passes n' w) i then 1 else 0)
  end.

End Observations.

(** ** Worlds and environments of the examples *)


(** A freshly installed extension: nothing stored, default settings. *)
Definition freshWorld : World :=
  {| settings := DEFAULT_SETTINGS; token := None;
     mapping := {| version := 1; updatedAt := 0; entries := ∅ |};
     solved := ∅; queue := []; lastSync := None; storedLogs := [];
     loggerLogs := []; loggerInitialized := false; isProcessing := false;
     timers := []; ticks := 0; rands := 0; sent := []; attempts := [];
     ops := [] |}.

(** A repository and a token are configured, FLAT layout. *)
Definition configuredWorld : World :=
  {| settings := flatSettings; token := Some (lit "ghp_example");
     mapping := {| version := 1; updatedAt := 0; entries := ∅ |};
     solved := ∅; queue := []; lastSync := None; storedLogs := [];
     loggerLogs := []; loggerInitialized := false; isProcessing := false;
     timers := []; ticks := 0; rands := 0; sent := []; attempts := [];
     ops := [] |}.

(** A clock that starts at [t0] and moves [dt] ms between two readings,
    identifiers "r0", "r1", ..., a GitHub that answers every request
    with [answer], and two short texts for the progress documents. *)
Definition steadyEnv (t0 dt : Z) (answer : Request -> Result Response) : Env :=
  {| clock := fun n => t0 + dt * Z.of_nat n;
     random := fun n => lit "r" ++ numberToString (Z.of_nat n);
     fetch := fun _ => answer;
     progressJson := fun _ _ => lit "{}";
     progressMd := fun _ _ _ => Ok (lit "# NeetSync Progress") |}.

(** The network is down: every [fetch] is rejected. *)
Definition unreachable : Request -> Result Response :=
  fun _ => Throw (lit "Failed to fetch").

(** GitHub accepts every write: a file that is asked for does not exist
    (404), a PUT creates it (201). *)
Definition accepting : Request -> Result Response :=
  fun rq =>
    match rq_method rq with
    | GET => Ok {| status := 404; bodyText := Ok (lit "Not Found");
                   bodyJson := Ok (JObject []) |}
    | PUT => Ok {| status := 201; bodyText := Ok (lit "");
                   bodyJson := Ok (JObject [(lit "content", JObject [])]) |}
    end.

(** The answer for a file that exists, and its version token. *)
Definition storedSha : Json :=
  JString (lit "3b18e512dba79e4c8300dd08aeb37f8e728b8dad").

Definition storedFile : Json :=
  JObject [(lit "name", JString (lit "Two_Sum.py")); (lit "sha", storedSha)].

(** GitHub knows the file and rejects the write: the version token that
    was fetched is stale by the time of the PUT (409). *)
Definition conflicting : Request -> Result Response :=
  fun rq =>
    match rq_method rq with
    | GET => Ok {| status := 200; bodyText := Ok (lit "");
                   bodyJson := Ok storedFile |}
    | PUT => Ok {| status := 409; bodyText := Ok (lit "is at a different sha");
                   bodyJson := Ok (JObject []) |}
    end.

(** A catalog entry as stored, and an incoming entry for the same slug. *)
Definition storedTwoSum : MappingEntry :=
  {| me_title := Some (lit "Two Sum");
     me_category := Some (lit "Arrays & Hashing");
     me_listName := None;
     me_difficulty := Some (lit "Easy");
     me_sources := Some [lit "https://neetcode.io/roadmap"] |}.

Definition incomingTwoSum : IncomingEntry :=
  {| in_title := Some (lit "2Sum");
     in_category := None;
     in_listName := Some (lit "NeetCode 150");
     in_difficulty := Some (lit "");
     sourceUrl := lit "https://neetcode.io/practice" |}.

Definition catalogWorld : World :=
  set_mapping
    {| version := 1; updatedAt := 0;
       entries := {[ lit "two-sum" := storedTwoSum ]} |} freshWorld.

Definition twoSumItem (i code' : string) (retries' : Z)
    (lastAttempt' : option Z) : QueueItem :=
  {| id := lit i; slug := lit "two-sum"; title := lit "Two Sum";
     category := None; listName := None; difficulty := None;
     language := lit "python"; code := lit code'; meta := None;
     source := SrcDom; at_ := 1700000000000; retries := retries';
     lastAttempt := lastAttempt' |}.

(** Two items wait, nothing is configured. *)
Definition waitingWorld : World :=
  set_queue [twoSumItem "1700000000000-k3v9x2m1q" "def f():pass" 2
               (Some 1700000001000);
             twoSumItem "1700000000500-p0o9i8u7y" "def g():pass" 0 None]
    freshWorld.

(** One fresh item waits, a repository is configured. *)
Definition queuedTwoSum : QueueItem :=
  twoSumItem "1700000000000-k3v9x2m1q" "def f():pass" 0 None.

Definition oneItemWorld : World := set_queue [queuedTwoSum] configuredWorld.

(** A pass is running while an item waits and GitHub is configured; the
    last sync was at 1699999990000. *)
Definition busyWithWork : World :=
  set_isProcessing true (set_lastSync (Some 1699999990000) oneItemWorld).

(** A submission for two-sum. *)
Definition submit (language' code' : string) : Submission :=
  {| sub_slug := lit "two-sum"; sub_title := lit "Two Sum";
     sub_code := lit code'; sub_language := lit language';
     sub_category := None; sub_listName := None; sub_difficulty := None;
     sub_meta := None; sub_source := SrcDom |}.

(** The two items wait, a repository is configured: the first has failed
    twice and was last tried at 1700000001000, the second is fresh. *)
Definition retriedItem : QueueItem :=
  twoSumItem "1700000000000-k3v9x2m1q" "def f():pass" 2 (Some 1700000001000).

Definition freshItem : QueueItem :=
  twoSumItem "1700000000500-p0o9i8u7y" "def g():pass" 0 None.

Definition twoItemsWorld : World :=
  set_queue [retriedItem; freshItem] configuredWorld.

(** An item whose time is no date of the calendar. *)
Definition timelessItem : QueueItem :=
  {| id := lit "1700000000000-z9y8x7w6v"; slug := lit "two-sum";
     title := lit "Two Sum"; category := None; listName := None;
     difficulty := None; language := lit "python"; code := lit "pass";
     meta := None; source := SrcDom; at_ := 8640000000000001; retries := 0;
     lastAttempt := None |}.

(** A catalog event with an entry under "__proto__". *)
Definition protoEvent : list (jsstring * IncomingEntry) :=
  [(lit "two-sum", incomingTwoSum); (lit "__proto__", incomingTwoSum)].

(** A submission by slug, language and code. *)
Definition submitAs (slug' language' code' : string) : Submission :=
  {| sub_slug := lit slug'; sub_title := lit "Two Sum";
     sub_code := lit code'; sub_language := lit language';
     sub_category := None; sub_listName := None; sub_difficulty := None;
     sub_meta := None; sub_source := SrcDom |}.

(** An item for the slug "__proto__" waits, a repository is configured. *)
Definition protoItem : QueueItem :=
  {| id := lit "1700000000000-a1b2c3d4e"; slug := lit "__proto__";
     title := lit "Proto"; category := None; listName := None;
     difficulty := None; language := lit "python"; code := lit "pass";
     meta := None; source := SrcDom; at_ := 1700000000000; retries := 0;
     lastAttempt := None |}.

Definition protoWorld : World := set_queue [protoItem] configuredWorld.

(** ** Vocabulary of the further properties *)

(** The string does not start with an underscore. *)
Definition headNotUnderscore (s : jsstring) : Prop :=
  match s with c :: _ => is_underscore c = false | [] => True end.

(** [sanitize] before its last step, [substring(0, 100)]. *)
Definition sanitizeUncut (str : jsstring) : jsstring :=
  trimUnderscores
    (replaceRuns is_underscore underscore false
       (replaceRuns is_space underscore false
          (removeUnits is_invalid_char str))).

(** A name of 101 units whose 100th unit is an underscore. *)
Definition cutAtUnderscore : jsstring := repeat 97%N 99 ++ lit "_b".

(** One of the digits 0 to 9 and a to f. *)
Definition isLowerHex (c : N) : bool :=
  ((48 <=? c) && (c <=? 57) || (97 <=? c) && (c <=? 102))%N.

(** The comment style [generateHeader] picks for a queue item. *)
Definition headerStyle (item : QueueItem) : CommentStyle :=
  getCommentStyle
    (if truthy (language item) then language item else lit "unknown").

(** A time stamp stands for every answer of [toISOString]. *)
Definition isoExample : Z -> jsstring :=
  fun _ => lit "2023-11-14T22:13:20.000Z".

(** The badge and the counter that go with a normalized difficulty. *)
Definition badgeOf (name : option jsstring) : jsstring :=
  match name with
  | Some n =>
      if Js.eqb n (lit "Easy") then greenCircle
      else if Js.eqb n (lit "Medium") then yellowCircle
      else if Js.eqb n (lit "Hard") then redCircle
      else []
  | None => []
  end.

Definition bump (name : option jsstring) (acc : Difficulties) : Difficulties :=
  match name with
  | Some n =>
      if Js.eqb n (lit "Easy") then
        {| Easy := Easy acc + 1; Medium := Medium acc; Hard := Hard acc;
           Unknown := Unknown acc |}
      else if Js.eqb n (lit "Medium") then
        {| Easy := Easy acc; Medium := Medium acc + 1; Hard := Hard acc;
           Unknown := Unknown acc |}
      else
        {| Easy := Easy acc; Medium := Medium acc; Hard := Hard acc + 1;
           Unknown := Unknown acc |}
  | None =>
      {| Easy := Easy acc; Medium := Medium acc; Hard := Hard acc;
         Unknown := Unknown acc + 1 |}
  end.

(** The requests of [getFile] and of [createOrUpdateFile]. *)
Definition getRequest (path branch' : jsstring) : Request :=
  {| rq_method := GET; rq_file := path; rq_branch := branch'; rq_sha := None |}.

Definition putRequest (path branch' : jsstring) (sha : option Json)
  : Request :=
  {| rq_method := PUT; rq_file := path; rq_branch := branch'; rq_sha := sha |}.

(** The message of the exception [request] throws for an answer that is
    not [ok]. *)
Definition errorMessage (r : Response) : jsstring :=
  match bodyText r with
  | Ok errorText =>
      lit "GitHub API error " ++ numberToString (status r) ++ lit ": "
      ++ errorText
  | Throw e => e
  end.

(** What [request] returns for an answer that is [ok]. *)
Definition parsed (r : Response) : Result Json :=
  if status r =? 204 then Ok (JObject []) else bodyJson r.

(** Whether the request is accepted when it is the [n]-th one: GitHub
    answers with a status that is [ok] and a body that parses. *)
Definition accepted (env : Env) (n : nat) (rq : Request) : bool :=
  match fetch env n rq with
  | Ok r =>
      statusOk (status r)
      && match parsed r with Ok _ => true | Throw _ => false end
  | Throw _ => false
  end.

(** What [request] makes of the answer to the [n]-th call of [fetch]. *)
Definition answerOf (env : Env) (n : nat) (rq : Request) : Result Json :=
  match fetch env n rq with
  | Throw e => Throw e
  | Ok r => if statusOk (status r) then parsed r else Throw (errorMessage r)
  end.

(** What [getFile] makes of it: [null] for a failure whose message has
    the digits 404. *)
Definition orAbsent (r : Result Json) : Result Json :=
  match r with
  | Ok v => Ok v
  | Throw e => if includes e (lit "404") then Ok JNull else Throw e
  end.

(** GitHub is in trouble: every request is answered 500, with a text that
    happens to hold the digits 404. *)
Definition overloaded : Request -> Result Response :=
  fun _ => Ok {| status := 500;
                 bodyText := Ok (lit "Server Error (request 8404)");
                 bodyJson := Throw (lit "Unexpected token S in JSON") |}.

Definition twoSumPath : jsstring := lit "NeetSync/Problems/Two_Sum.py".

(** What no turn of the loop touches. *)
Record framed (w w' : World) : Prop := {
  framed_settings : settings w' = settings w;
  framed_token : token w' = token w;
  framed_mapping : mapping w' = mapping w;
  framed_lastSync : lastSync w' = lastSync w;
  framed_isProcessing : isProcessing w' = isProcessing w;
  framed_timers : timers w' = timers w
}.

(** The items of the attempts that ended in a commit, in their order. *)
Definition committedItems (l : list (QueueItem * Outcome)) : list QueueItem :=
  List.map fst (List.filter (fun a => negb (failed (snd a))) l).

(** The items of the attempts that ended with the item given up. *)
Definition droppedItems (l : list (QueueItem * Outcome)) : list QueueItem :=
  List.map fst
    (List.filter (fun a => failed (snd a) && (MAX_RETRIES <=? retries (fst a))) l).

(** The solved-set after [updateSolved] has been called for each of the
    items. *)
Definition recordSolved (mp : Mapping) (sv : gmap jsstring SolvedEntry)
    (items : list QueueItem) : gmap jsstring SolvedEntry :=
  fold_left (fun sv x => assign (slug x) (solvedEntryOf x mp) sv) items sv.

(** What the loop has done once it has made the attempts [news]. *)
Definition ledger (mp : Mapping) (counts counts' : Z * Z) (w w' : World)
    (news : list (QueueItem * Outcome)) : Prop :=
  attempts w' = attempts w ++ news
  /\ framed w w'
  /\ fst counts' = fst counts + Z.of_nat (length (committedItems news))
  /\ snd counts' = snd counts + Z.of_nat (length (droppedItems news))
  /\ solved w' = recordSolved mp (solved w) (committedItems news).

(** A code unit [sanitize] does not keep as it is: one it removes, white
    space or an underscore. *)
Definition dropped (c : N) : bool :=
  is_invalid_char c || is_space c || is_underscore c.



(** The last request of [l], sent after the [n] requests before [l], is a
    PUT of the file that GitHub accepts. *)
Definition endsInAcceptedPut (env : Env) (n : nat) (file br : jsstring)
    (l : list Request) : Prop :=
  exists pre sha,
    l = pre ++ [putRequest file br sha]
    /\ accepted env (n + length pre) (putRequest file br sha) = true.

(** The requests are about the file, on the branch. *)
Definition about (file br : jsstring) (rq : Request) : Prop :=
  rq_file rq = file /\ rq_branch rq = br.

(** [getFile] and then [createOrUpdateFile] with the [sha] it found. *)
Definition writeFile (env : Env) (file content br : jsstring) : M unit :=
  existing ← getFile env file br;
  createOrUpdateFile env file content br (shaOf existing).

(** Row [b] is not newer than row [a]. *)
Definition notNewer (a b : jsstring * SolvedEntry) : Prop :=
  solvedAt (snd b) <= solvedAt (snd a).

(** * Properties *)

(** Unfolds the monad down to functions on worlds. *)
Ltac unfold_monad :=
  unfold result, exec, mbind, M_bind, bind, mret, M_ret, ret, gets, modify,
    throw, try_catch, try_finally, storageGet, storageSet, now in *.

(** ** The embedding on known values *)

Example slugToTitle_two_sum : slugToTitle (lit "two-sum") = lit "Two Sum".
Proof. reflexivity. Qed.

Example sanitize_demo :
  sanitize (lit "  What?  is / this__ ") = lit "What_is_this".
Proof. vm_compute. reflexivity. Qed.

Example sha256_round_constants :
  length Sha256.K = 64%nat
  /\ nth 0 Sha256.K 0%N = 0x428a2f98%N /\ nth 63 Sha256.K 0%N = 0xc67178f2%N
  /\ nth 0 Sha256.H0 0%N = 0x6a09e667%N /\ nth 7 Sha256.H0 0%N = 0x5be0cd19%N.
Proof. vm_compute. repeat split. Qed.

Example sha256_abc :
  sha256 (lit "abc")
  = lit "ba7816bf8f01cfea414140de5dae2223b00361a396177a9cb410ff61f20015ad".
Proof. vm_compute. reflexivity. Qed.

Example sha256_empty :
  sha256 (lit "")
  = lit "e3b0c44298fc1c149afbf4c8996fb92427ae41e4649b934ca495991b7852b855".
Proof. vm_compute. reflexivity. Qed.

Example isoString_dates :
  isoString 0 = lit "1970-01-01T00:00:00.000Z"
  /\ isoString 1700000000000 = lit "2023-11-14T22:13:20.000Z"
  /\ isoString (-1) = lit "1969-12-31T23:59:59.999Z"
  /\ isoString 951782400000 = lit "2000-02-29T00:00:00.000Z"
  /\ isoString 253402300800000 = lit "+010000-01-01T00:00:00.000Z"
  /\ isoString (-62198755200000) = lit "-000001-01-01T00:00:00.000Z"
  /\ isoString 8640000000000000 = lit "+275760-09-13T00:00:00.000Z".
Proof. vm_compute. repeat split. Qed.

Example wellFormed_pairs :
  wellFormed (lit "Two_Sum.py") = true
  /\ wellFormed [0xD83D; 0xDFE2]%N = true
  /\ wellFormed [0xD83D]%N = false
  /\ wellFormed [0xDFE2; 0xD83D]%N = false.
Proof. vm_compute. repeat split. Qed.

(** ** The path resolver *)

Section Sanitize.

Lemma infix_refl s : infix s s.
Proof. exists [], []. now rewrite app_nil_r. Qed.

Lemma infix_trans t u s : infix t u -> infix u s -> infix t s.
Proof.
  intros (a & b & ->) (c & d & ->). exists (c ++ a), (b ++ d).
  now rewrite <- !app_assoc.
Qed.

Lemma infix_Forall (P : N -> Prop) t s : infix t s -> Forall P s -> Forall P t.
Proof.
  intros (a & b & ->) H.
  apply Forall_app in H as [_ H]. now apply Forall_app in H as [H _].
Qed.

Lemma infix_singleUnderscores t s :
  infix t s -> singleUnderscores s -> singleUnderscores t.
Proof.
  intros (a & b & ->) H l1 l2 E. apply (H (a ++ l1) (l2 ++ b)).
  rewrite E. now rewrite <- !app_assoc.
Qed.

Lemma dropLeading_infix s : infix (dropLeading s) s.
Proof.
  destruct s as [|c s]; simpl; [apply infix_refl|].
  destruct (is_underscore c); [|apply infix_refl].
  exists [c], []. now rewrite app_nil_r.
Qed.

Lemma dropTrailing_infix s : infix (dropTrailing s) s.
Proof.
  unfold dropTrailing. destruct (dropLeading_infix (rev s)) as (a & b & E).
  remember (dropLeading (rev s)) as t eqn:Et. clear Et.
  exists (rev b), (rev a). apply (f_equal (@rev N)) in E.
  rewrite rev_involutive, !rev_app_distr in E. now rewrite E, <- app_assoc.
Qed.

Lemma substring0_infix n s : infix (substring0 n s) s.
Proof.
  exists [], (skipn n s). unfold substring0. simpl. now rewrite firstn_skipn.
Qed.

Lemma removeUnits_clean s : clean (removeUnits is_invalid_char s).
Proof.
  unfold clean, removeUnits. apply List.Forall_forall. intros c Hc.
  apply List.filter_In in Hc as [_ Hc]. now apply negb_true_iff in Hc.
Qed.

Lemma replaceRuns_Forall (P : N -> Prop) p r b s :
  P r -> Forall P s -> Forall P (replaceRuns p r b s).
Proof.
  intros Hr Hs. revert b. induction Hs as [|x s Hx Hs IH]; intros b; simpl.
  - constructor.
  - destruct (p x); [destruct b|]; auto.
Qed.

Lemma replaceRuns_removes p r b s :
  p r = false -> Forall (fun c => p c = false) (replaceRuns p r b s).
Proof.
  intros Hr. revert b. induction s as [|x s IH]; intros b; simpl.
  - constructor.
  - destruct (p x) eqn:Hx; [destruct b|]; auto.
Qed.

Lemma collapse_noDouble b s :
  let t := replaceRuns is_underscore underscore b s in
  noDouble t = true /\
  (b = true -> match t with c :: _ => is_underscore c = false | [] => True end).
Proof.
  revert b. induction s as [|x s IH]; intros b; simpl; [easy|].
  destruct (is_underscore x) eqn:Hx.
  - destruct (IH true) as [IH1 IH2]. destruct b; [easy|]. split; [|easy].
    simpl. specialize (IH2 eq_refl).
    destruct (replaceRuns is_underscore underscore true s); [easy|].
    now rewrite IH2, IH1.
  - destruct (IH false) as [IH1 _]. split; [|easy]. simpl.
    destruct (replaceRuns is_underscore underscore false s); [easy|].
    now rewrite Hx, IH1.
Qed.

Lemma noDouble_singleUnderscores s : noDouble s = true -> singleUnderscores s.
Proof.
  intros H l1. revert s H. induction l1 as [|c l1 IH]; intros s H l2 E; subst s.
  - simpl in H. discriminate.
  - simpl in H. destruct (l1 ++ underscore :: underscore :: l2) eqn:E'.
    + destruct l1; discriminate.
    + apply andb_true_iff in H as [_ H]. now apply (IH _ H l2).
Qed.

Lemma sanitize_infix s :
  infix (sanitize s)
    (replaceRuns is_underscore underscore false
       (replaceRuns is_space underscore false
          (removeUnits is_invalid_char s))).
Proof.
  unfold sanitize, trimUnderscores.
  eapply infix_trans; [apply substring0_infix|].
  eapply infix_trans; [apply dropTrailing_infix|]. apply dropLeading_infix.
Qed.

Lemma sanitize_length s : (length (sanitize s) <= 100)%nat.
Proof. unfold sanitize, substring0. apply firstn_le_length. Qed.

Lemma sanitize_clean s : clean (sanitize s).
Proof.
  eapply infix_Forall; [apply sanitize_infix|].
  apply replaceRuns_Forall; [reflexivity|].
  apply replaceRuns_Forall; [reflexivity|]. apply removeUnits_clean.
Qed.

Lemma sanitize_spaceless s : spaceless (sanitize s).
Proof.
  eapply infix_Forall; [apply sanitize_infix|].
  apply replaceRuns_Forall; [reflexivity|].
  now apply replaceRuns_removes.
Qed.

Lemma sanitize_singleUnderscores s : singleUnderscores (sanitize s).
Proof.
  eapply infix_singleUnderscores; [apply sanitize_infix|].
  apply noDouble_singleUnderscores, collapse_noDouble.
Qed.













End Sanitize.




(** The longer file names: a title of 100 units and the language
    "constructor" give 136 units. *)
Example constructor_is_not_a_language :
  getExtension (lit "Constructor ") = lit "function Object() { [native code] }"
  /\ getExtension (lit "__proto__") = lit "[object Object]"
  /\ length (buildFileName flatSettings (lit "a") (repeat 97%N 100)
               (lit "constructor")) = 136%nat.
Proof. repeat split; vm_compute; reflexivity. Qed.


(** ** The retry scheduler *)



Lemma isDue_run env item w :
  isDue env item w
  = match recorded (lastAttempt item) with
    | Some last =>
        if 0 <? retries item then
          (Ok (negb (clock env (ticks w) - last
                     <? requiredDelay (retries item))),
           set_ticks (S (ticks w)) w)
        else (Ok true, w)
    | None => (Ok true, w)
    end.
Proof.
  unfold isDue. destruct (recorded _); [|reflexivity].
  destruct (0 <? retries item); reflexivity.
Qed.

(** ** The catalog merge *)

Section Merge.

Lemma uniq_spec (seen l : list jsstring) :
  (forall x, x ∈ uniq seen l <-> x ∈ l /\ x ∉ seen) /\ List.NoDup (uniq seen l).
Proof.
  revert seen. induction l as [|y l IH]; intros seen; simpl.
  - split; [|constructor]. intros x. rewrite elem_of_nil. tauto.
  - case_bool_decide as Hy.
    + destruct (IH seen) as [IH1 IH2]. split; [|exact IH2].
      intros x. rewrite IH1, elem_of_cons. split; [tauto|].
      intros [[->|Hx] Hn]; [contradiction|tauto].
    + destruct (IH (y :: seen)) as [IH1 IH2]. split.
      * intros x. rewrite !elem_of_cons, IH1, elem_of_cons.
        destruct (decide (x = y)) as [->|Hne]; [tauto|]. tauto.
      * constructor; [|exact IH2]. rewrite <- list_elem_of_In, IH1.
        rewrite elem_of_cons. tauto.
Qed.

Lemma assign_other {T} (k k' : jsstring) (v : T) (o : gmap jsstring T) :
  k' <> k -> assign k v o !! k' = o !! k'.
Proof.
  intros H. unfold assign. destruct (_ && _); [reflexivity|].
  now apply lookup_insert_ne.
Qed.

Lemma assign_stored {T} (k : jsstring) (v : T) (o : gmap jsstring T) :
  k <> protoKey \/ is_Some (o !! k) -> assign k v o !! k = Some v.
Proof.
  intros H. unfold assign, Js.eqb.
  destruct (bool_decide (k = protoKey)) eqn:Ek; cbn [andb];
    [|apply lookup_insert_eq].
  apply bool_decide_eq_true_1 in Ek.
  destruct H as [H|H]; [contradiction|].
  rewrite (bool_decide_eq_true_2 _ H). apply lookup_insert_eq.
Qed.

Lemma assign_proto_absent {T} (v : T) (o : gmap jsstring T) :
  o !! protoKey = None -> assign protoKey v o = o.
Proof.
  intros H. unfold assign, Js.eqb.
  rewrite bool_decide_eq_true_2 by reflexivity.
  rewrite bool_decide_eq_false_2; [reflexivity|].
  rewrite H. intros [x [=]].
Qed.

Lemma mergeEntries_other (l : list (jsstring * IncomingEntry))
    (m : gmap jsstring MappingEntry) (k : jsstring) :
  k ∉ List.map fst l -> mergeEntries l m !! k = m !! k.
Proof.
  unfold mergeEntries. revert m. induction l as [|[k' e] l IH]; intros m Hk.
  - reflexivity.
  - simpl in *. rewrite not_elem_of_cons in Hk. destruct Hk as [Hne Hk].
    rewrite IH by exact Hk. now apply assign_other.
Qed.

Lemma mergeEntries_named (l : list (jsstring * IncomingEntry))
    (m : gmap jsstring MappingEntry) (k : jsstring) (e : IncomingEntry) :
  List.NoDup (List.map fst l) -> In (k, e) l ->
  k <> protoKey \/ is_Some (m !! k) ->
  mergeEntries l m !! k = Some (mergeEntry (m !! k) e).
Proof.
  unfold mergeEntries. revert m.
  induction l as [|[k' e'] l IH]; intros m Hnd Hin Hk; [contradiction|].
  simpl in *. inversion Hnd as [|? ? Hk' Hnd']; subst.
  destruct Hin as [[= -> ->]|Hin].
  - fold (mergeEntries l (assign k (mergeEntry (m !! k) e) m)).
    rewrite mergeEntries_other; [now apply assign_stored|].
    now rewrite list_elem_of_In.
  - assert (Hne : k <> k').
    { intros ->. apply Hk'. apply (List.in_map fst) in Hin. exact Hin. }
    rewrite IH; try assumption; rewrite assign_other by exact Hne;
      [reflexivity|exact Hk].
Qed.

(** No turn of the loop stores an entry under "__proto__" when there is
    none. *)
Lemma mergeEntries_proto (l : list (jsstring * IncomingEntry))
    (m : gmap jsstring MappingEntry) :
  m !! protoKey = None -> mergeEntries l m !! protoKey = None.
Proof.
  unfold mergeEntries. revert m. induction l as [|[k e] l IH]; intros m H.
  - exact H.
  - cbn [fold_left]. apply IH.
    destruct (decide (k = protoKey)) as [->|Hne].
    + now rewrite assign_proto_absent.
    + rewrite assign_other by (intros E; now apply Hne). exact H.
Qed.

Lemma mergeMapping_entries env (l : list (jsstring * IncomingEntry)) w :
  entries (mapping (exec (mergeMapping env l) w))
  = mergeEntries l (entries (mapping w)).
Proof. reflexivity. Qed.

End Merge.


(** ** The logger *)

Section Logger.

Variable env : Env.

Lemma addLog_run level message details w :
  addLog env level message details w
  = (Ok tt, logged env level message details w).
Proof.
  unfold addLog, logger_init, logger_persist, generateId, randomSuffix, logged.
  unfold_monad. destruct w as [? ? ? ? ? ? ? ? [|] ? ? ? ? ? ? ?]; simpl.
  - reflexivity.
  - now rewrite <- app_assoc.
Qed.

Lemma keepNewest_head e l : head (keepNewest (e :: l)) = Some e.
Proof. unfold keepNewest. now destruct (decide _). Qed.

Lemma logged_newest level message details w :
  head (loggerLogs (logged env level message details w))
  = Some (entryAt env w level message details)
  /\ head (storedLogs (logged env level message details w))
     = Some (entryAt env w level message details).
Proof.
  simpl. unfold keepNewest. now destruct (decide _).
Qed.

End Logger.

Arguments addLog : simpl never.
Arguments keepNewest : simpl never.

(** ** The sync processor: passes that do nothing *)

Lemma bind_run {A B} (m : M A) (k : A -> M B) w :
  (m ≫= k) w
  = match m w with
    | (Ok a, w') => k a w'
    | (Throw e, w') => (Throw e, w')
    end.
Proof. reflexivity. Qed.

Lemma processQueue_busy env w :
  isProcessing w = true ->
  processQueue env w
  = (Ok tt,
     logged env LInfo (lit "Queue processing already in progress") None w).
Proof.
  intros H. unfold processQueue. rewrite bind_run. unfold gets. rewrite H.
  unfold logger_info. apply addLog_run.
Qed.

(** C8.  Called while the single-flight flag is set, [processQueue]
    returns after one informational log entry: the queue, the solved-set,
    the last-sync time stamp and everything else in storage but the log
    are what they were, storage is accessed under the log key only, no
    request is sent, no attempt is made, no timer is set and the flag
    stays set. *)
Theorem processQueue_busy_is_noop (env : Env) (w : World) :
  isProcessing w = true ->
  let w' := exec (processQueue env) w in
  result (processQueue env) w = Ok tt
  /\ queue w' = queue w /\ solved w' = solved w /\ lastSync w' = lastSync w
  /\ settings w' = settings w /\ token w' = token w /\ mapping w' = mapping w
  /\ sent w' = sent w /\ attempts w' = attempts w /\ timers w' = timers w
  /\ isProcessing w' = true
  /\ (exists l, ops w' = ops w ++ l /\ logsOnly l)
  /\ (exists e, head (storedLogs w') = Some e /\ le_level e = LInfo
                /\ le_message e = lit "Queue processing already in progress").
Proof.
  intros H. unfold exec, result. rewrite (processQueue_busy env w H).
  cbv zeta. cbn [fst snd]. repeat (split; [reflexivity|]).
  split; [exact H|]. split.
  - eexists. split; [reflexivity|].
    destruct (loggerInitialized w); simpl;
      repeat (constructor; [tauto|]); constructor.
  - eexists. split; [apply logged_newest|]. now split.
Qed.


Lemma processQueue_unconfigured env w :
  isProcessing w = false -> unconfigured w ->
  processQueue env w
  = (Ok tt,
     match queue w with
     | [] => set_isProcessing false
               (set_ops (ops w ++ [OpGet KQueue]) (set_isProcessing true w))
     | _ :: _ =>
         set_isProcessing false
           (logged env LWarn notConfiguredWarning None
              (set_ops (ops w ++ [OpGet KQueue; OpGet KSettings; OpGet KToken;
                                  OpGet KMapping])
                 (set_isProcessing true w)))
     end).
Proof.
  intros Hidle Hun.
  assert (Hguard :
    negb (otruthy (if otruthy (token w) then token w else None))
    || negb (truthy (repoFullName (settings w))) = true).
  { destruct Hun as [Ht|Hr]; [rewrite Ht|rewrite Hr]; simpl;
      [reflexivity|apply orb_true_r]. }
  unfold processQueue, processPass, getQueue, getSettings, getToken,
    getMapping, logger_warn.
  unfold_monad. rewrite Hidle.
  destruct w as [st tok mp sv q ls sl ll li ip tm tk rd sn at' op].
  cbn in *. destruct q as [|item q]; [reflexivity|].
  cbn. rewrite bool_decide_eq_false_2 by discriminate.
  cbn. rewrite Hguard, addLog_run. unfold logged, notConfiguredWarning.
  cbn. now rewrite <- !app_assoc.
Qed.

(** C7, as the code has it.  With no token stored or an empty
    [repoFullName], a call of [processQueue] returns without sending a
    request or attempting a commit, and the queue (so every item, its
    [retries] and its [lastAttempt]), the solved-set and the last-sync
    time stamp are what they were.  A pass that starts (the flag is
    clear) on a non-empty queue logs the warning and ends; on an empty
    queue it ends before it looks at the configuration and logs nothing. *)
Theorem unconfigured_pass_is_inert (env : Env) (w : World) :
  unconfigured w ->
  let w' := exec (processQueue env) w in
  result (processQueue env) w = Ok tt
  /\ queue w' = queue w /\ solved w' = solved w /\ lastSync w' = lastSync w
  /\ sent w' = sent w /\ attempts w' = attempts w /\ timers w' = timers w
  /\ (isProcessing w = false ->
      isProcessing w' = false
      /\ match queue w with
         | [] => storedLogs w' = storedLogs w /\ loggerLogs w' = loggerLogs w
         | _ :: _ =>
             exists e, head (storedLogs w') = Some e /\ le_level e = LWarn
                       /\ le_message e = notConfiguredWarning
         end).
Proof.
  intros Hun. cbv zeta. unfold exec, result.
  destruct (isProcessing w) eqn:Hflag.
  - rewrite (processQueue_busy env w Hflag). cbn [fst snd].
    repeat (split; [reflexivity|]). discriminate.
  - rewrite (processQueue_unconfigured env w Hflag Hun). cbn [fst snd].
    destruct (queue w) as [|item q] eqn:Hq.
    + cbn. rewrite Hq. repeat split.
    + cbn. rewrite Hq. repeat (split; [reflexivity|]).
      eexists. split; [apply keepNewest_head|]. now split.
Qed.


(** ** The queue manager *)

Section Enqueue.

Variable env : Env.

(** What [enqueueSubmission] answers and leaves in the queue. *)
Lemma enqueueSubmission_queue (s : Submission) (w : World) :
  let w' := exec (enqueueSubmission env s) w in
  if recentlySolved s w (clock env (ticks w)) || queuedSame s (queue w) then
    result (enqueueSubmission env s) w = Ok false /\ queue w' = queue w
    /\ timers w' = timers w
  else
    result (enqueueSubmission env s) w = Ok true
    /\ (exists at' i, queue w' = queue w ++ [newItem s (mapping w) at' i])
    /\ timers w' = timers w ++ [100].
Proof.
  unfold recentlySolved, queuedSame, exec, result, enqueueSubmission,
    removeFromQueue, getSettings, getToken, getMapping, getProgress, getQueue,
    saveQueue, generateId, randomSuffix, logger_info, logger_success, member.
  unfold_monad.
  destruct w as [st tok mp sv q ls sl ll li ip tm tk rd sn at' op].
  cbn. destruct (sv !! sub_slug s) as [e|] eqn:He; cbn.
  - destruct (bool_decide _ && _) eqn:Hrecent; cbn.
    + rewrite addLog_run. now cbn.
    + destruct (List.find (samePair s) q) as [existing|]; cbn.
      * destruct (Js.eqb _ _); cbn; rewrite addLog_run; cbn; eauto 6.
      * rewrite addLog_run. cbn. eauto 6.
  - destruct (isInherited (sub_slug s)); cbn;
      (destruct (List.find (samePair s) q) as [existing|]; cbn;
       [destruct (Js.eqb _ _); cbn; rewrite addLog_run; cbn; eauto 6
       |rewrite addLog_run; cbn; eauto 6]).
Qed.

End Enqueue.

(** (a) of C1: a fingerprint solved less than a minute ago is refused. *)
Lemma enqueue_rejects_recent_duplicate env s w e :
  solved w !! sub_slug s = Some e ->
  se_sha256 e = Some (fingerprint (sub_slug s) (sub_language s) (sub_code s)) ->
  clock env (ticks w) - solvedAt e < 60000 ->
  result (enqueueSubmission env s) w = Ok false
  /\ queue (exec (enqueueSubmission env s) w) = queue w.
Proof.
  intros He Hfp Ht. pose proof (enqueueSubmission_queue env s w) as H.
  cbv zeta in H. unfold recentlySolved in H. rewrite He in H.
  rewrite bool_decide_eq_true_2 in H by exact Hfp.
  apply Z.ltb_lt in Ht. rewrite Ht in H. simpl in H. tauto.
Qed.

(** (b) of C1, for the item that [find] returns: the first of the pair. *)
Lemma enqueue_rejects_queued_duplicate env s w existing :
  List.find (samePair s) (queue w) = Some existing ->
  fingerprint (slug existing) (language existing) (code existing)
  = fingerprint (sub_slug s) (sub_language s) (sub_code s) ->
  result (enqueueSubmission env s) w = Ok false
  /\ queue (exec (enqueueSubmission env s) w) = queue w.
Proof.
  intros Hfind Hfp. pose proof (enqueueSubmission_queue env s w) as H.
  cbv zeta in H. unfold queuedSame in H. rewrite Hfind in H.
  unfold Js.eqb in H. rewrite (bool_decide_eq_true_2 _ Hfp) in H.
  rewrite orb_true_r in H. tauto.
Qed.

(** (c) of C1 as the code runs: an accepted submission is appended to the
    queue as it was read, the item it was meant to replace included. *)
Lemma enqueue_appends_to_the_copy env s w :
  result (enqueueSubmission env s) w = Ok true ->
  exists at' i,
    queue (exec (enqueueSubmission env s) w)
    = queue w ++ [newItem s (mapping w) at' i].
Proof.
  intros Hr. pose proof (enqueueSubmission_queue env s w) as H.
  cbv zeta in H. destruct (_ || _).
  - destruct H as [H _]. rewrite H in Hr. discriminate.
  - tauto.
Qed.

(** C1, at the failing input.  "def f():pass" for (two-sum, python) is
    queued; "def g():pass" for the same pair is submitted, and submitted
    once more at once.  Both calls answer [true]; the queue then holds the
    item with f and two items with g, all for (two-sum, python): the
    [removeFromQueue] of the stale item is undone by [saveQueue(queue)],
    which writes back the copy read before the removal, and the third call
    compares its fingerprint with the stale item that [find] returns. *)
Theorem resubmission_keeps_stale_item :
  let env := steadyEnv 1700000000000 1 unreachable in
  let w1 := exec (enqueueSubmission env (submit "python" "def f():pass"))
              freshWorld in
  let w2 := exec (enqueueSubmission env (submit "python" "def g():pass")) w1 in
  let w3 := exec (enqueueSubmission env (submit "python" "def g():pass")) w2 in
  List.map summary (queue w1)
  = [(lit "two-sum", lit "python", lit "def f():pass", 0)]
  /\ result (enqueueSubmission env (submit "python" "def g():pass")) w1
     = Ok true
  /\ List.map summary (queue w2)
     = [(lit "two-sum", lit "python", lit "def f():pass", 0);
        (lit "two-sum", lit "python", lit "def g():pass", 0)]
  /\ result (enqueueSubmission env (submit "python" "def g():pass")) w2
     = Ok true
  /\ List.map summary (queue w3)
     = [(lit "two-sum", lit "python", lit "def f():pass", 0);
        (lit "two-sum", lit "python", lit "def g():pass", 0);
        (lit "two-sum", lit "python", lit "def g():pass", 0)].
Proof. vm_compute. repeat split. Qed.

(** On an empty queue the same submission twice leaves one item. *)
Example same_submission_twice_on_empty_queue :
  let env := steadyEnv 1700000000000 1 unreachable in
  let w1 := exec (enqueueSubmission env (submit "python" "def f():pass"))
              freshWorld in
  result (enqueueSubmission env (submit "python" "def f():pass")) w1 = Ok false
  /\ List.map summary
       (queue (exec (enqueueSubmission env (submit "python" "def f():pass"))
                 w1))
     = [(lit "two-sum", lit "python", lit "def f():pass", 0)].
Proof. vm_compute. repeat split. Qed.



(** For one slug, ("python", "3 + 4") and ("python3", " + 4") have the
    same concatenation: once the first is committed, the second,
    submitted within the minute, is refused.  While the first only waits
    in the queue, the second is accepted: no item of its slug and
    language is queued. *)
Example shifted_boundary_under_one_slug :
  let env := steadyEnv 1700000000000 1 accepting in
  let w1 := exec (enqueueSubmission env (submit "python" "3 + 4"))
              configuredWorld in
  let w2 := exec (processQueue env) w1 in
  List.map snd (attempts w2) = [Committed] /\ queue w2 = []
  /\ result (enqueueSubmission env (submit "python3" " + 4")) w2 = Ok false
  /\ queue (exec (enqueueSubmission env (submit "python3" " + 4")) w2) = []
  /\ result (enqueueSubmission env (submit "python3" " + 4")) w1 = Ok true
  /\ List.map summary
       (queue (exec (enqueueSubmission env (submit "python3" " + 4")) w1))
     = [(lit "two-sum", lit "python", lit "3 + 4", 0);
        (lit "two-sum", lit "python3", lit " + 4", 0)].
Proof. vm_compute. repeat split. Qed.

(** From submission to commit: a submission for two-sum in
    python, a reachable repository, FLAT layout.  One item is queued; the
    pass writes NeetSync/Problems/Two_Sum.py, records the solve and
    empties the queue; the progress documents follow. *)
Example two_sum_end_to_end :
  let env := steadyEnv 1700000000000 1 accepting in
  let w1 := exec (enqueueSubmission env (submit "python" "def f():pass"))
              configuredWorld in
  let w2 := exec (processQueue env) w1 in
  length (queue w1) = 1%nat
  /\ List.map (fun rq => (rq_method rq, rq_file rq)) (sent w2)
     = [(GET, lit "NeetSync/Problems/Two_Sum.py");
        (GET, lit "NeetSync/Problems/Two_Sum.py");
        (PUT, lit "NeetSync/Problems/Two_Sum.py");
        (GET, lit "NeetSync/PROGRESS.json");
        (GET, lit "NeetSync/PROGRESS.json");
        (PUT, lit "NeetSync/PROGRESS.json");
        (GET, lit "NeetSync/PROGRESS.md");
        (GET, lit "NeetSync/PROGRESS.md");
        (PUT, lit "NeetSync/PROGRESS.md")]
  /\ se_language <$> (solved w2 !! lit "two-sum") = Some (lit "python")
  /\ queue w2 = [] /\ is_Some (lastSync w2) /\ isProcessing w2 = false.
Proof. vm_compute. repeat split. eauto. Qed.

(** ** The sync processor: what one pass does to the queue *)

Section Pass.

Variable env : Env.

Lemma quiet_refl w : quiet w w.
Proof. now constructor. Qed.

Lemma quiet_trans w1 w2 w3 : quiet w1 w2 -> quiet w2 w3 -> quiet w1 w3.
Proof.
  intros [] []. constructor; try congruence. lia.
Qed.

Lemma Quiet_ret {A} (a : A) : Quiet (mret a).
Proof. intros w. apply quiet_refl. Qed.

Lemma Quiet_throw {A} e : Quiet (@throw A e).
Proof. intros w. apply quiet_refl. Qed.

Lemma Quiet_bind {A B} (m : M A) (k : A -> M B) :
  Quiet m -> (forall a, Quiet (k a)) -> Quiet (m ≫= k).
Proof.
  intros Hm Hk w. rewrite bind_run. specialize (Hm w).
  destruct (m w) as [[a|e] w1]; [|exact Hm].
  eapply quiet_trans; [exact Hm|apply Hk].
Qed.

Lemma Quiet_try_catch {A} (m : M A) (h : jsstring -> M A) :
  Quiet m -> (forall e, Quiet (h e)) -> Quiet (try_catch m h).
Proof.
  intros Hm Hh w. unfold try_catch. specialize (Hm w).
  destruct (m w) as [[a|e] w1]; [exact Hm|].
  eapply quiet_trans; [exact Hm|apply Hh].
Qed.

Lemma Quiet_addLog level message details :
  Quiet (addLog env level message details).
Proof.
  intros w. rewrite addLog_run. constructor; try reflexivity. simpl. lia.
Qed.

Lemma Quiet_now : Quiet (now env).
Proof. intros w. constructor; try reflexivity. simpl. lia. Qed.

Lemma Quiet_request method file br sha : Quiet (request env method file br sha).
Proof.
  unfold request. apply Quiet_bind; [intros w; apply quiet_refl|]. intros n.
  apply Quiet_bind; [intros w; now constructor|]. intros _.
  destruct (fetch env n _) as [response|e]; [|apply Quiet_throw].
  destruct (negb _);
    [destruct (bodyText response); apply Quiet_throw|].
  destruct (_ =? _); [apply Quiet_ret|].
  destruct (bodyJson response); [apply Quiet_ret|apply Quiet_throw].
Qed.

Lemma Quiet_getFile path br : Quiet (getFile env path br).
Proof.
  unfold getFile. apply Quiet_try_catch.
  - destruct (_ && _); [apply Quiet_request|apply Quiet_throw].
  - intros e. destruct (includes _ _); [apply Quiet_ret|apply Quiet_throw].
Qed.

Lemma Quiet_createOrUpdateFile path content br sha :
  Quiet (createOrUpdateFile env path content br sha).
Proof.
  unfold createOrUpdateFile. apply Quiet_bind.
  - destruct (defined sha); [apply Quiet_ret|].
    apply Quiet_bind; [apply Quiet_getFile|]. intros r. apply Quiet_ret.
  - intros s.
    apply Quiet_bind;
      [destruct (wellFormed content); [apply Quiet_ret|apply Quiet_throw]|].
    intros _.
    apply Quiet_bind;
      [destruct (wellFormed path); [apply Quiet_ret|apply Quiet_throw]|].
    intros _.
    apply Quiet_bind; [apply Quiet_request|]. intros _.
    apply Quiet_ret.
Qed.

Lemma Quiet_commitSolutionFile br path content ow :
  Quiet (commitSolutionFile env br path content ow).
Proof.
  unfold commitSolutionFile, logger_info, logger_success, logger_error.
  apply Quiet_try_catch.
  - apply Quiet_bind; [apply Quiet_getFile|]. intros existing.
    destruct (_ && _).
    + apply Quiet_bind; [apply Quiet_addLog|]. intros _. apply Quiet_ret.
    + apply Quiet_bind; [apply Quiet_createOrUpdateFile|]. intros _.
      apply Quiet_bind; [apply Quiet_addLog|]. intros _. apply Quiet_ret.
  - intros e. apply Quiet_bind; [apply Quiet_addLog|]. intros _.
    apply Quiet_ret.
Qed.

Lemma Quiet_processItem x st mp : Quiet (processItem env x st mp).
Proof.
  unfold processItem. apply Quiet_bind.
  - destruct (_ && _); [apply Quiet_throw|apply Quiet_ret].
  - intros content. apply Quiet_commitSolutionFile.
Qed.

Lemma Quiet_syncProgressFiles st progress mp :
  Quiet (syncProgressFiles env st progress mp).
Proof.
  unfold syncProgressFiles, logger_success, logger_error.
  apply Quiet_try_catch.
  - apply Quiet_bind; [apply Quiet_now|]. intros tj.
    apply Quiet_bind; [apply Quiet_now|]. intros tm.
    apply Quiet_bind;
      [destruct (progressMd env progress mp tm);
       [apply Quiet_ret|apply Quiet_throw]|].
    intros mdContent.
    repeat (apply Quiet_bind;
            [first [apply Quiet_getFile
                   |apply Quiet_createOrUpdateFile|apply Quiet_addLog]|];
            intros ?).
    apply Quiet_ret.
  - intros e. apply Quiet_bind; [apply Quiet_addLog|]. intros _.
    apply Quiet_ret.
Qed.

Lemma NoThrow_bind {A B} (m : M A) (k : A -> M B) :
  NoThrow m -> (forall a, NoThrow (k a)) -> NoThrow (m ≫= k).
Proof.
  intros Hm Hk w. rewrite bind_run. destruct (Hm w) as [a Ha].
  destruct (m w) as [r w1]. simpl in Ha. subst r. apply Hk.
Qed.

Lemma NoThrow_ret {A} (a : A) : NoThrow (mret a).
Proof. intros w. now exists a. Qed.

Lemma NoThrow_addLog level message details :
  NoThrow (addLog env level message details).
Proof. intros w. rewrite addLog_run. now exists tt. Qed.

Lemma NoThrow_try_catch {A} (m : M A) (h : jsstring -> M A) :
  (forall e, NoThrow (h e)) -> NoThrow (try_catch m h).
Proof.
  intros Hh w. unfold try_catch. destruct (m w) as [[a|e] w1].
  - now exists a.
  - apply Hh.
Qed.

Lemma NoThrow_commitSolutionFile br path content ow :
  NoThrow (commitSolutionFile env br path content ow).
Proof.
  unfold commitSolutionFile, logger_error. apply NoThrow_try_catch.
  intros e. apply NoThrow_bind; [apply NoThrow_addLog|]. intros _.
  apply NoThrow_ret.
Qed.

Lemma NoThrow_syncProgressFiles st progress mp :
  NoThrow (syncProgressFiles env st progress mp).
Proof.
  unfold syncProgressFiles, logger_error. apply NoThrow_try_catch.
  intros e. apply NoThrow_bind; [apply NoThrow_addLog|]. intros _.
  apply NoThrow_ret.
Qed.

End Pass.

Arguments commitSolutionFile : simpl never.
Arguments syncProgressFiles : simpl never.
Arguments processItem : simpl never.

Section Turns.

Variable env : Env.

Lemma onFailure_run x message w :
  exists w',
    onFailure env x message w = (Ok (MAX_RETRIES <=? retries x), w')
    /\ (ticks w <= ticks w')%nat
    /\ attempts w' = attempts w ++ [(x, Failed message)]
    /\ solved w' = solved w
    /\ if MAX_RETRIES <=? retries x
       then queue w' = withoutId (id x) (queue w)
       else (ticks w < ticks w')%nat
            /\ queue w' = retriedIn x (clock env (ticks w)) (queue w).
Proof.
  unfold onFailure, recordAttempt, removeFromQueue, updateQueueItem, getQueue,
    saveQueue, logger_error, logger_warn, retriedIn, withoutId.
  unfold_monad.
  destruct w as [st tok mp sv q ls sl ll li ip tm tk rd sn at' op].
  destruct (MAX_RETRIES <=? retries x); cbn.
  - rewrite addLog_run. cbn. eexists. split; [reflexivity|]. cbn.
    repeat split; lia.
  - destruct (updateFirst _ _ q) as [q'|]; cbn; rewrite addLog_run; cbn;
      (eexists; split; [reflexivity|]); cbn; repeat split; lia.
Qed.

Lemma attemptItem_run st mp counts x w :
  exists counts' w' o,
    attemptItem env st mp counts x w = (Ok counts', w')
    /\ attempts w' = attempts w ++ [(x, o)]
    /\ (ticks w <= ticks w')%nat
    /\ match o with
       | Committed => queue w' = withoutId (id x) (queue w)
       | Failed _ =>
           solved w' = solved w
           /\ if MAX_RETRIES <=? retries x
              then queue w' = withoutId (id x) (queue w)
              else exists k, (ticks w <= k < ticks w')%nat
                             /\ queue w' = retriedIn x (clock env k) (queue w)
       end.
Proof.
  unfold attemptItem, try_catch. rewrite bind_run.
  pose proof (Quiet_processItem env x st mp w) as Hq.
  destruct (processItem env x st mp w) as [[b|e] w2]; cbn [snd] in Hq;
    destruct Hq as [? ? ? Hsv Hqueue ? ? ? Hatt Htk].
  - destruct b.
    + unfold recordAttempt, updateSolved, removeFromQueue, getProgress,
        saveProgress, getQueue, saveQueue. unfold_monad.
      destruct w2 as [? ? ? ? ? ? ? ? ? ? ? ? ? ? ? ?]. cbn in *.
      do 2 eexists. exists Committed. split; [reflexivity|]. cbn.
      unfold withoutId. repeat split; [congruence|lia|congruence].
    + cbn. rewrite bind_run.
      destruct (onFailure_run x (lit "Commit failed") w2)
        as (w3 & Hrun & Htk3 & Hatt3 & Hsv3 & Hcase).
      rewrite Hrun. do 2 eexists. exists (Failed (lit "Commit failed")).
      split; [reflexivity|]. split; [congruence|]. split; [lia|].
      split; [congruence|]. destruct (MAX_RETRIES <=? retries x).
      * congruence.
      * destruct Hcase as [Hlt Hq3]. exists (ticks w2).
        split; [lia|congruence].
  - rewrite bind_run.
    destruct (onFailure_run x e w2)
      as (w3 & Hrun & Htk3 & Hatt3 & Hsv3 & Hcase).
    rewrite Hrun. do 2 eexists. exists (Failed e).
    split; [reflexivity|]. split; [congruence|]. split; [lia|].
    split; [congruence|]. destruct (MAX_RETRIES <=? retries x).
    + congruence.
    + destruct Hcase as [Hlt Hq3]. exists (ticks w2).
      split; [lia|congruence].
Qed.

(** The outcome that is recorded: a commit when [processItem] answers
    [true], a failure when it answers [false] or throws. *)
Lemma attemptItem_outcome st mp counts x w :
  attempts (exec (attemptItem env st mp counts x) w)
  = attempts w
    ++ [(x, match result (processItem env x st mp) w with
            | Ok true => Committed
            | Ok false => Failed (lit "Commit failed")
            | Throw e => Failed e
            end)].
Proof.
  unfold exec, result, attemptItem, try_catch. rewrite bind_run.
  pose proof (Quiet_processItem env x st mp w) as Hq.
  destruct (processItem env x st mp w) as [[b|e] w2]; cbn [fst snd] in *;
    destruct Hq as [? ? ? ? ? ? ? ? Hatt ?].
  - destruct b.
    + unfold recordAttempt, updateSolved, removeFromQueue, getProgress,
        saveProgress, getQueue, saveQueue. unfold_monad.
      destruct w2 as [? ? ? ? ? ? ? ? ? ? ? ? ? ? ? ?]. cbn in *. congruence.
    + cbn. rewrite bind_run.
      destruct (onFailure_run x (lit "Commit failed") w2)
        as (w3 & Hrun & _ & Hatt3 & _).
      rewrite Hrun. cbn. congruence.
  - rewrite bind_run.
    destruct (onFailure_run x e w2) as (w3 & Hrun & _ & Hatt3 & _).
    rewrite Hrun. cbn. congruence.
Qed.

Lemma isDue_quiet x w : quiet w (snd (isDue env x w)).
Proof.
  rewrite isDue_run. destruct (recorded _); [|apply quiet_refl].
  destruct (0 <? retries x); [|apply quiet_refl].
  constructor; try reflexivity. simpl. lia.
Qed.

Lemma isDue_answers x w : exists due, fst (isDue env x w) = Ok due.
Proof.
  rewrite isDue_run. destruct (recorded _); [|eauto].
  destruct (0 <? retries x); eauto.
Qed.


Lemma processOne_turn st mp counts x w :
  exists counts' w',
    processOne env st mp counts x w = (Ok counts', w')
    /\ turn env x w w' /\ (ticks w <= ticks w')%nat.
Proof.
  unfold processOne. rewrite bind_run.
  pose proof (isDue_quiet x w) as Hq. destruct (isDue_answers x w) as [due Hdue].
  destruct (isDue env x w) as [r w1]. cbn [fst snd] in *. subst r.
  destruct Hq as [? ? ? Hsv Hqueue ? ? ? Hatt Htk]. destruct due; cbn [negb].
  - destruct (attemptItem_run st mp counts x w1)
      as (c & w' & o & Hrun & Ha & Htk' & Hcase).
    rewrite Hrun. do 2 eexists. split; [reflexivity|]. split; [|lia].
    destruct o as [|m].
    + apply turn_committed; congruence.
    + destruct Hcase as [Hsv' Hcase].
      destruct (MAX_RETRIES <=? retries x) eqn:Hmax.
      * apply Z.leb_le in Hmax. apply (turn_dropped env x w w' m); congruence.
      * apply Z.leb_gt in Hmax. destruct Hcase as (k & Hk & Hq').
        apply (turn_retried env x w w' m k); try congruence; lia.
  - do 2 eexists. split; [reflexivity|]. split; [|exact Htk].
    now apply turn_skipped.
Qed.

End Turns.

(** *** Removing and updating by identifier *)

Section ById.

Lemma eqb_id_false (a b : jsstring) : a <> b -> Js.eqb a b = false.
Proof. intros H. unfold Js.eqb. now apply bool_decide_eq_false_2. Qed.

Lemma eqb_id_true (a b : jsstring) : Js.eqb a b = true -> a = b.
Proof. unfold Js.eqb. apply bool_decide_eq_true_1. Qed.

Lemma In_withoutId i q y :
  In y (withoutId i q) <-> In y q /\ id y <> i.
Proof.
  unfold withoutId. rewrite List.filter_In, negb_true_iff. unfold Js.eqb.
  rewrite bool_decide_eq_false. tauto.
Qed.

Lemma ids_withoutId i q j :
  In j (List.map id (withoutId i q)) <-> In j (List.map id q) /\ j <> i.
Proof.
  rewrite !List.in_map_iff. split.
  - intros (y & <- & Hy). apply In_withoutId in Hy. split; [|tauto].
    exists y. tauto.
  - intros [(y & <- & Hy) Hne]. exists y. split; [reflexivity|].
    now apply In_withoutId.
Qed.

Lemma NoDup_withoutId i q :
  List.NoDup (List.map id q) -> List.NoDup (List.map id (withoutId i q)).
Proof.
  unfold withoutId. induction q as [|y q IH]; simpl; [constructor|].
  intros Hnd. inversion Hnd as [|? ? Hy Hq]; subst.
  destruct (negb _); simpl; [|auto]. constructor; [|auto].
  intros Hin. apply Hy. apply (ids_withoutId i q (id y)) in Hin. tauto.
Qed.

Lemma ids_updateFirst i f q q' :
  (forall y, id (f y) = id y) ->
  updateFirst i f q = Some q' -> List.map id q' = List.map id q.
Proof.
  intros Hf. revert q'. induction q as [|y q IH]; simpl; [discriminate|].
  intros q'. destruct (Js.eqb (id y) i).
  - intros [= <-]. simpl. now rewrite Hf.
  - destruct (updateFirst i f q) as [q''|]; simpl; [|discriminate].
    intros [= <-]. simpl. now rewrite (IH q'').
Qed.

Lemma ids_retriedIn x t q : List.map id (retriedIn x t q) = List.map id q.
Proof.
  unfold retriedIn. destruct (updateFirst _ _ q) as [q'|] eqn:E; simpl; [|easy].
  apply (ids_updateFirst (id x) (with_retry (retries x + 1) t) q q');
    [reflexivity|exact E].
Qed.

Lemma In_retriedIn_other x t q y :
  In y q -> id y <> id x -> In y (retriedIn x t q).
Proof.
  unfold retriedIn. intros Hy Hne.
  assert (H : forall q', updateFirst (id x) (with_retry (retries x + 1) t) q
                         = Some q' -> In y q').
  { induction q as [|z q IH]; simpl; [discriminate|]. intros q'.
    destruct (Js.eqb (id z) (id x)) eqn:Ez.
    - intros [= <-]. destruct Hy as [->|Hy]; [|now right].
      apply eqb_id_true in Ez. contradiction.
    - destruct (updateFirst _ _ q) as [q''|]; simpl; [|discriminate].
      intros [= <-]. destruct Hy as [->|Hy]; [now left|right; auto]. }
  destruct (updateFirst _ _ q) as [q'|]; simpl; auto.
Qed.

Lemma In_retriedIn_self x t q :
  List.NoDup (List.map id q) -> In x q ->
  In (with_retry (retries x + 1) t x) (retriedIn x t q).
Proof.
  unfold retriedIn. induction q as [|z q IH]; simpl; [contradiction|].
  intros Hnd Hx. inversion Hnd as [|? ? Hz Hq]; subst.
  destruct (Js.eqb (id z) (id x)) eqn:Ez; simpl.
  - destruct Hx as [->|Hx]; [now left|].
    apply eqb_id_true in Ez. exfalso. apply Hz. rewrite Ez.
    now apply List.in_map.
  - destruct Hx as [->|Hx].
    + unfold Js.eqb in Ez. now rewrite bool_decide_eq_true_2 in Ez.
    + specialize (IH Hq Hx).
      destruct (updateFirst _ _ q) as [q'|]; simpl in *; [now right|].
      now right.
Qed.

End ById.

Section Loop.

Variable env : Env.

Lemma processItems_turns st mp items counts w :
  exists counts' w',
    processItems env st mp items counts w = (Ok counts', w')
    /\ runTurns env items w w'.
Proof.
  revert counts w. induction items as [|x items IH]; intros counts w.
  - exists counts, w. split; [reflexivity|constructor].
  - cbn [processItems]. rewrite bind_run.
    destruct (processOne_turn env st mp counts x w)
      as (c1 & w1 & Hrun & Hturn & Htk).
    rewrite Hrun. destruct (IH c1 w1) as (c2 & w2 & Hrun2 & Hturns).
    exists c2, w2. split; [exact Hrun2|]. econstructor; eassumption.
Qed.

Lemma sameQueue_refl w : sameQueue w w.
Proof. now repeat split. Qed.

Lemma sameQueue_trans w1 w2 w3 :
  sameQueue w1 w2 -> sameQueue w2 w3 -> sameQueue w1 w3.
Proof. intros (? & ? & ?) (? & ? & ?). repeat split; try congruence. lia. Qed.

Lemma quiet_sameQueue w w' : quiet w w' -> sameQueue w w'.
Proof. intros []. now repeat split. Qed.

Lemma finishPass_run st mp counts w :
  exists w', finishPass env st mp counts w = (Ok tt, w') /\ sameQueue w w'.
Proof.
  unfold finishPass. destruct (0 <? fst counts).
  - unfold getProgress, setLastSync, logger_success. rewrite bind_run.
    unfold storageGet at 1. rewrite bind_run.
    pose proof (Quiet_syncProgressFiles env st
                  (solved (set_ops (ops w ++ [OpGet KProgress]) w)) mp
                  (set_ops (ops w ++ [OpGet KProgress]) w)) as Hq.
    destruct (NoThrow_syncProgressFiles env st
                (solved (set_ops (ops w ++ [OpGet KProgress]) w)) mp
                (set_ops (ops w ++ [OpGet KProgress]) w)) as [b Hb].
    destruct (syncProgressFiles env st _ _ _) as [r w1]. cbn [fst snd] in *.
    subst r. unfold_monad. rewrite addLog_run. eexists. split; [reflexivity|].
    apply quiet_sameQueue in Hq. destruct Hq as (Hq1 & Hq2 & Hq3).
    cbn in *. repeat split; try assumption. cbn. lia.
  - exists w. split; [reflexivity|apply sameQueue_refl].
Qed.

(** One call of [processQueue]: it ends normally, having run the loop
    over the queue as it was read, or over nothing. *)
Lemma processQueue_turns w :
  exists items w1 w2 w',
    processQueue env w = (Ok tt, w')
    /\ (items = queue w \/ items = [])
    /\ sameQueue w w1 /\ runTurns env items w1 w2 /\ sameQueue w2 w'.
Proof.
  unfold processQueue. rewrite bind_run. unfold gets.
  destruct (isProcessing w) eqn:Hflag.
  - unfold logger_info. rewrite addLog_run.
    exists [], w, w. eexists. split; [reflexivity|]. split; [now right|].
    split; [apply sameQueue_refl|]. split; [constructor|].
    apply quiet_sameQueue. pose proof (Quiet_addLog env LInfo
      (lit "Queue processing already in progress") None w) as H.
    now rewrite addLog_run in H.
  - rewrite bind_run. unfold modify, try_finally, processPass.
    rewrite bind_run. unfold getQueue, storageGet at 1.
    cbn [queue set_isProcessing].
    destruct (bool_decide (length (queue w) = 0%nat)).
    { exists [], w, w. eexists. split; [reflexivity|]. split; [now right|].
      split; [apply sameQueue_refl|]. split; [constructor|].
      now repeat split. }
    rewrite bind_run. unfold getSettings, storageGet at 1.
    rewrite bind_run. unfold getToken, storageGet at 1.
    rewrite bind_run. unfold getMapping, storageGet at 1.
    destruct (negb _ || negb _).
    { unfold logger_warn. rewrite addLog_run.
      exists [], w, w. eexists. split; [reflexivity|]. split; [now right|].
      split; [apply sameQueue_refl|]. split; [constructor|].
      unfold sameQueue. cbn. repeat split. lia. }
    unfold logger_info. rewrite bind_run, addLog_run.
    rewrite bind_run. unfold getProgress, storageGet at 1.
    rewrite bind_run.
    match goal with
    | |- context [processItems env ?st ?mp ?q ?c ?w0] =>
        destruct (processItems_turns st mp q c w0)
          as (counts & w2 & Hrun & Hturns);
        rewrite Hrun;
        exists q, w0, w2
    end.
    match goal with
    | |- context [finishPass env ?st ?mp counts w2] =>
        destruct (finishPass_run st mp counts w2) as (w3 & Hfin & Hsame)
    end.
    rewrite Hfin.
    eexists. split; [reflexivity|]. split; [left; reflexivity|].
    split; [unfold sameQueue; cbn; repeat split; lia|].
    split; [exact Hturns|].
    destruct Hsame as (? & ? & ?). unfold sameQueue. cbn. now repeat split.
Qed.

End Loop.

Section PassEffect.

Variable env : Env.

Lemma turn_effect x w w1 :
  turn env x w w1 -> List.NoDup (List.map id (queue w)) ->
  List.NoDup (List.map id (queue w1))
  /\ (forall y, id y <> id x -> In y (queue w) -> In y (queue w1))
  /\ (forall i, In i (List.map id (queue w1)) -> In i (List.map id (queue w))).
Proof.
  intros Hturn Hnd.
  destruct Hturn as [Hq _ _|Hq _|m _ Hq _ _|m k _ _ Hq _ _]; rewrite Hq.
  - auto.
  - split; [now apply NoDup_withoutId|]. split.
    + intros y Hy Hin. now apply In_withoutId.
    + intros i Hi. now apply ids_withoutId in Hi.
  - split; [now apply NoDup_withoutId|]. split.
    + intros y Hy Hin. now apply In_withoutId.
    + intros i Hi. now apply ids_withoutId in Hi.
  - rewrite ids_retriedIn. split; [exact Hnd|]. split; [|auto].
    intros y Hy Hin. now apply In_retriedIn_other.
Qed.

Lemma runTurns_ticks items w w' : runTurns env items w w' -> (ticks w <= ticks w')%nat.
Proof. induction 1; lia. Qed.

Lemma runTurns_frame items w w' :
  runTurns env items w w' -> List.NoDup (List.map id (queue w)) ->
  List.NoDup (List.map id (queue w'))
  /\ (forall y, ~ In (id y) (List.map id items) -> In y (queue w) -> In y (queue w'))
  /\ (forall i, In i (List.map id (queue w')) -> In i (List.map id (queue w))).
Proof.
  induction 1 as [w|x items w w1 w2 Hturn Htk Hrest IH]; intros Hnd.
  - auto.
  - destruct (turn_effect x w w1 Hturn Hnd) as (Hnd1 & Hkeep1 & Hids1).
    destruct (IH Hnd1) as (Hnd2 & Hkeep2 & Hids2).
    split; [exact Hnd2|]. split.
    + intros y Hy Hin. simpl in Hy. apply Hkeep2; [tauto|].
      apply Hkeep1; [|exact Hin]. intros E. apply Hy. left. now rewrite E.
    + auto.
Qed.

(** The attempts a loop over [items] adds, and where each failed one
    leaves its item. *)
Lemma runTurns_failed items w w' :
  runTurns env items w w' ->
  List.NoDup (List.map id items) -> List.NoDup (List.map id (queue w)) ->
  (forall x, In x items -> In x (queue w)) ->
  exists new,
    attempts w' = attempts w ++ new
    /\ (forall x o, In (x, o) new -> In x items)
    /\ forall x m, In (x, Failed m) new ->
         (retries x < MAX_RETRIES ->
          exists k, (ticks w <= k < ticks w')%nat
                    /\ In (with_retry (retries x + 1) (clock env k) x)
                         (queue w'))
         /\ (MAX_RETRIES <= retries x -> ~ In (id x) (List.map id (queue w'))).
Proof.
  induction 1 as [w|x0 items w w1 w2 Hturn Htk Hrest IH];
    intros Hndi Hnd Hsub.
  - exists []. rewrite app_nil_r. split; [reflexivity|]. now split.
  - inversion Hndi as [|? ? Hx0 Hndi']; subst.
    destruct (turn_effect x0 w w1 Hturn Hnd) as (Hnd1 & Hkeep1 & Hids1).
    assert (Hsub1 : forall x, In x items -> In x (queue w1)).
    { intros x Hx. apply Hkeep1; [|apply Hsub; now right].
      intros E. apply Hx0. rewrite <- E. now apply List.in_map. }
    destruct (IH Hndi' Hnd1 Hsub1) as (new1 & Hatt1 & Hfrom1 & Hfail1).
    destruct (runTurns_frame _ _ _ Hrest Hnd1) as (_ & Hkeep2 & Hids2).
    pose proof (runTurns_ticks _ _ _ Hrest) as Htk2.
    assert (Hrest_case : forall x m, In (x, Failed m) new1 ->
      (retries x < MAX_RETRIES ->
       exists k, (ticks w <= k < ticks w2)%nat
                 /\ In (with_retry (retries x + 1) (clock env k) x) (queue w2))
      /\ (MAX_RETRIES <= retries x -> ~ In (id x) (List.map id (queue w2)))).
    { intros x m Hin. destruct (Hfail1 x m Hin) as [Hlow Hhigh].
      split; [|exact Hhigh]. intros Hr.
      destruct (Hlow Hr) as (k & Hk & Hink). exists k. split; [lia|exact Hink]. }
    destruct Hturn as [Hq Ha _|Hq Ha|m0 Hmax Hq Ha _|m0 k0 Hlt Hk0 Hq Ha _].
    + exists new1. rewrite Hatt1, Ha. split; [reflexivity|].
      split; [intros x o Hin; right; eauto|exact Hrest_case].
    + exists ((x0, Committed) :: new1). rewrite Hatt1, Ha, <- app_assoc.
      split; [reflexivity|]. split.
      * intros x o [[= <- _]|Hin]; [now left|right; eauto].
      * intros x m [[=]|Hin]. exact (Hrest_case x m Hin).
    + exists ((x0, Failed m0) :: new1). rewrite Hatt1, Ha, <- app_assoc.
      split; [reflexivity|]. split.
      * intros x o [[= <- _]|Hin]; [now left|right; eauto].
      * intros x m [[= <- _]|Hin]; [|exact (Hrest_case x m Hin)].
        split; [lia|]. intros _ Hin. apply Hids2 in Hin. rewrite Hq in Hin.
        apply ids_withoutId in Hin. tauto.
    + exists ((x0, Failed m0) :: new1). rewrite Hatt1, Ha, <- app_assoc.
      split; [reflexivity|]. split.
      * intros x o [[= <- _]|Hin]; [now left|right; eauto].
      * intros x m [[= <- _]|Hin]; [|exact (Hrest_case x m Hin)].
        split; [|lia]. intros _. exists k0. split; [lia|].
        apply Hkeep2; [exact Hx0|]. rewrite Hq.
        apply In_retriedIn_self; [exact Hnd|]. apply Hsub. now left.
Qed.

Lemma turn_attempts x w w1 :
  turn env x w w1 ->
  exists new, attempts w1 = attempts w ++ new
              /\ forall y o, In (y, o) new -> y = x.
Proof.
  intros [_ Ha _|_ Ha|m _ _ Ha _|m k _ _ _ Ha _].
  - exists []. rewrite app_nil_r. now split.
  - exists [(x, Committed)]. split; [exact Ha|].
    intros y o [[= <- _]|[]]. reflexivity.
  - exists [(x, Failed m)]. split; [exact Ha|].
    intros y o [[= <- _]|[]]. reflexivity.
  - exists [(x, Failed m)]. split; [exact Ha|].
    intros y o [[= <- _]|[]]. reflexivity.
Qed.

Lemma runTurns_attempts items w w' :
  runTurns env items w w' ->
  exists new, attempts w' = attempts w ++ new
              /\ forall x o, In (x, o) new -> In x items.
Proof.
  induction 1 as [w|x0 items w w1 w2 Hturn _ _ IH].
  - exists []. rewrite app_nil_r. now split.
  - destruct (turn_attempts _ _ _ Hturn) as (new0 & H0 & Hfrom0).
    destruct IH as (new1 & H1 & Hfrom1).
    exists (new0 ++ new1). rewrite H1, H0, <- app_assoc.
    split; [reflexivity|]. intros x o Hin.
    apply List.in_app_or in Hin as [Hin|Hin].
    + left. symmetry. exact (Hfrom0 _ _ Hin).
    + right. exact (Hfrom1 _ _ Hin).
Qed.

(** A pass attempts items of the queue only. *)
Lemma attempted_items_are_queued w x o :
  In (x, o) (attemptsOf env w) -> In x (queue w).
Proof.
  unfold attemptsOf, exec.
  destruct (processQueue_turns env w)
    as (items & w1 & w2 & w' & Hrun & Hitems & Hs1 & Hturns & Hs2).
  rewrite Hrun. cbn [snd].
  destruct Hs1 as (Hq1 & Ha1 & _). destruct Hs2 as (_ & Ha2 & _).
  destruct (runTurns_attempts _ _ _ Hturns) as (new & Hnew & Hfrom).
  rewrite Ha2, Hnew, Ha1, List.skipn_app, List.skipn_all, Nat.sub_diag.
  cbn [skipn app]. intros Hin. specialize (Hfrom _ _ Hin).
  destruct Hitems as [->| ->]; [exact Hfrom|contradiction].
Qed.

Lemma runTurns_untouched items w w' y :
  runTurns env items w w' -> List.NoDup (List.map id (queue w)) ->
  forall new, attempts w' = attempts w ++ new ->
  (forall x o, In (x, o) new -> id x <> id y) ->
  In y (queue w) -> In y (queue w').
Proof.
  induction 1 as [w|x0 items w w1 w2 Hturn _ Hrest IH];
    intros Hnd new Hnew Hother Hy; [exact Hy|].
  destruct (turn_effect _ _ _ Hturn Hnd) as (Hnd1 & Hkeep1 & _).
  destruct (turn_attempts _ _ _ Hturn) as (new0 & H0 & Hfrom0).
  destruct (runTurns_attempts _ _ _ Hrest) as (new1 & H1 & _).
  assert (Enew : new = new0 ++ new1).
  { rewrite H1, H0, <- app_assoc in Hnew. now apply app_inv_head in Hnew. }
  subst new. apply (IH Hnd1 new1 H1).
  - intros x o Hin. apply (Hother x o), List.in_or_app. now right.
  - destruct (decide (id x0 = id y)) as [E|Hne]; [|now apply Hkeep1].
    destruct Hturn as [Hq _ _|_ Ha|m _ _ Ha _|m k _ _ _ Ha _];
      [now rewrite Hq|exfalso..];
      rewrite H0 in Ha; apply app_inv_head in Ha; subst new0;
      apply (Hother x0 _ (or_introl eq_refl)); exact E.
Qed.

(** An item that a pass does not attempt stays as it is. *)
Lemma pass_untouched w y :
  List.NoDup (List.map id (queue w)) ->
  (forall x o, In (x, o) (attemptsOf env w) -> id x <> id y) ->
  In y (queue w) -> In y (queue (exec (processQueue env) w)).
Proof.
  unfold attemptsOf, exec. intros Hnd.
  destruct (processQueue_turns env w)
    as (items & w1 & w2 & w' & Hrun & _ & Hs1 & Hturns & Hs2).
  rewrite Hrun. cbn [snd].
  destruct Hs1 as (Hq1 & Ha1 & _). destruct Hs2 as (Hq2 & Ha2 & _).
  destruct (runTurns_attempts _ _ _ Hturns) as (new & Hnew & _).
  rewrite Ha2, Hnew, Ha1, List.skipn_app, List.skipn_all, Nat.sub_diag.
  cbn [skipn app]. intros Hother Hy. rewrite Hq2.
  assert (Hnd1 : List.NoDup (List.map id (queue w1))) by now rewrite Hq1.
  apply (runTurns_untouched _ _ _ y Hturns Hnd1 new Hnew Hother).
  now rewrite Hq1.
Qed.

(** One call of [processQueue] on a queue with unique identifiers. *)
Lemma pass_effect w :
  List.NoDup (List.map id (queue w)) ->
  let w' := exec (processQueue env) w in
  result (processQueue env) w = Ok tt
  /\ List.NoDup (List.map id (queue w'))
  /\ (forall i, In i (List.map id (queue w')) -> In i (List.map id (queue w)))
  /\ (forall x o, In (x, o) (attemptsOf env w) -> In x (queue w))
  /\ forall x m, In (x, Failed m) (attemptsOf env w) ->
       (retries x < MAX_RETRIES ->
        exists k, (ticks w <= k < ticks w')%nat
                  /\ In (with_retry (retries x + 1) (clock env k) x)
                       (queue w'))
       /\ (MAX_RETRIES <= retries x -> ~ In (id x) (List.map id (queue w'))).
Proof.
  intros Hnd. cbv zeta. unfold attemptsOf, exec, result.
  destruct (processQueue_turns env w)
    as (items & w1 & w2 & w' & Hrun & Hitems & Hs1 & Hturns & Hs2).
  rewrite Hrun. cbn [fst snd].
  destruct Hs1 as (Hq1 & Ha1 & Ht1). destruct Hs2 as (Hq2 & Ha2 & Ht2).
  assert (Hnd1 : List.NoDup (List.map id (queue w1))) by now rewrite Hq1.
  assert (Hndi : List.NoDup (List.map id items)).
  { destruct Hitems as [->| ->]; [exact Hnd|constructor]. }
  assert (Hsub : forall x, In x items -> In x (queue w1)).
  { rewrite Hq1. destruct Hitems as [->| ->]; [auto|contradiction]. }
  destruct (runTurns_frame _ _ _ Hturns Hnd1) as (Hnd2 & _ & Hids2).
  destruct (runTurns_failed _ _ _ Hturns Hndi Hnd1 Hsub)
    as (new & Hatt & Hfrom & Hfail).
  rewrite Hq2, Ha2, Hatt, Ha1, List.skipn_app, List.skipn_all, Nat.sub_diag.
  cbn [skipn app]. rewrite <- Hq1.
  split; [reflexivity|]. split; [exact Hnd2|]. split; [exact Hids2|].
  split; [intros x o Hin; apply Hsub; eauto|].
  intros x m Hin. destruct (Hfail x m Hin) as [Hlow Hhigh].
  split; [|exact Hhigh]. intros Hr. destruct (Hlow Hr) as (k & Hk & Hink).
  exists k. split; [lia|exact Hink].
Qed.

Lemma processQueue_never_throws w : result (processQueue env) w = Ok tt.
Proof.
  unfold result.
  destruct (processQueue_turns env w) as (? & ? & ? & ? & Hrun & _).
  now rewrite Hrun.
Qed.

End PassEffect.

(** ** The backoff schedule *)

Section Schedule.

Variable env : Env.






End Schedule.


Example not_due_before_backoff :
  forall env w, clock env (ticks w) = 1700000003999 ->
  result (isDue env {| id := lit "i"; slug := lit "two-sum";
                       title := lit "Two Sum"; category := None;
                       listName := None; difficulty := None;
                       language := lit "python"; code := lit "pass";
                       meta := None; source := SrcDom; at_ := 1700000000000;
                       retries := 3; lastAttempt := Some 1700000000000 |}) w
  = Ok false.
Proof. intros env w H. unfold result. rewrite isDue_run. simpl. now rewrite H. Qed.

(** A pass over two items: the first has failed twice and was last tried
    at 1700000001000, so it is due from 1700000003000 on.  At 1700000002000
    it is passed over and the second item, which has never failed, is
    attempted; a little later both are. *)
Example pass_attempts_what_is_due :
  let early := steadyEnv 1700000002000 1 unreachable in
  let late := steadyEnv 1700000003000 1 unreachable in
  List.map fst (attemptsOf early twoItemsWorld) = [freshItem]
  /\ List.map fst (attemptsOf late twoItemsWorld) = [retriedItem; freshItem].
Proof. vm_compute. split; reflexivity. Qed.

(** The time of the item is no date of the calendar: the header cannot be
    made, and the attempt fails before any request. *)
Example invalid_time_fails_the_attempt :
  let env := steadyEnv 1700000100000 1 accepting in
  let w := set_queue [timelessItem] configuredWorld in
  List.map snd (attemptsOf env w) = [Failed (lit "Invalid time value")]
  /\ sent (exec (processQueue env) w) = [].
Proof. vm_compute. split; reflexivity. Qed.

(** ** The retry bookkeeping *)

Lemma NoDup_id_unique (q : list QueueItem) (y z : QueueItem) :
  List.NoDup (List.map id q) -> In y q -> In z q -> id y = id z -> y = z.
Proof.
  induction q as [|x q IH]; intros Hnd Hy Hz E; [destruct Hy|].
  cbn [List.map] in Hnd. inversion Hnd as [|? ? Hx Hq]; subst.
  destruct Hy as [->|Hy]; destruct Hz as [->|Hz].
  - reflexivity.
  - exfalso. apply Hx. rewrite E. now apply List.in_map.
  - exfalso. apply Hx. rewrite <- E. now apply List.in_map.
  - now apply IH.
Qed.

(** C4.  In a pass over a queue with unique identifiers, when the attempt
    to commit an item fails (whatever [commitSolutionFile] answered or
    threw, the [catch] of the loop records the failure) and the item's
    [retries] is below 5, the call of [processQueue] ends without an
    exception and the stored queue still holds the item, with [retries]
    one higher and [lastAttempt] a reading of the clock taken during the
    pass, and nothing else changed in it; no other item of the stored
    queue has its identifier. *)
Theorem failed_attempt_is_rescheduled
    (env : Env) (w : World) (item : QueueItem) (message : jsstring) :
  List.NoDup (List.map id (queue w)) ->
  In (item, Failed message) (attemptsOf env w) ->
  retries item < MAX_RETRIES ->
  result (processQueue env) w = Ok tt
  /\ In item (queue w)
  /\ exists k,
       (ticks w <= k < ticks (exec (processQueue env) w))%nat
       /\ In {| id := id item; slug := slug item; title := title item;
                category := category item; listName := listName item;
                difficulty := difficulty item; language := language item;
                code := code item; meta := meta item; source := source item;
                at_ := at_ item; retries := retries item + 1;
                lastAttempt := Some (clock env k) |}
            (queue (exec (processQueue env) w))
       /\ forall y, In y (queue (exec (processQueue env) w)) ->
            id y = id item ->
            retries y = retries item + 1
            /\ lastAttempt y = Some (clock env k).
Proof.
  intros Hnd Hin Hlow.
  destruct (pass_effect env w Hnd) as (Hok & Hnd' & _ & Hfrom & Hfail).
  split; [exact Hok|]. split; [exact (Hfrom _ _ Hin)|].
  destruct (proj1 (Hfail _ _ Hin) Hlow) as (k & Hk & Hq).
  exists k. split; [exact Hk|]. split; [exact Hq|].
  intros y Hy E.
  rewrite (NoDup_id_unique _ y _ Hnd' Hy Hq E). now split.
Qed.

Example stale_token_is_a_failed_attempt :
  attemptsOf (steadyEnv 1700000100000 1 conflicting) oneItemWorld
  = [(queuedTwoSum, Failed (lit "Commit failed"))]
  /\ List.map rq_method
       (sent (exec (processQueue (steadyEnv 1700000100000 1 conflicting))
                oneItemWorld)) = [GET; PUT].
Proof. vm_compute. now split. Qed.


Section Ceiling.

Variable env : Env.

Lemma failsIn_attempt w i :
  failsIn env w i = true ->
  exists x m, In (x, Failed m) (attemptsOf env w) /\ id x = i.
Proof.
  unfold failsIn. rewrite List.existsb_exists.
  intros ([x o] & Hin & Hb). apply andb_true_iff in Hb as [Hi Ho].
  destruct o as [|m]; [discriminate|]. exists x, m.
  split; [exact Hin|]. now apply eqb_id_true.
Qed.

Lemma not_attempted w i :
  failsIn env w i = false -> commitsIn env w i = false ->
  forall x o, In (x, o) (attemptsOf env w) -> id x <> i.
Proof.
  unfold failsIn, commitsIn. intros Hf Hc x o Hin E.
  destruct (failed o) eqn:Ho.
  - apply not_true_iff_false in Hf. apply Hf, List.existsb_exists.
    exists (x, o). split; [exact Hin|]. cbn [fst snd]. rewrite Ho.
    unfold Js.eqb. now rewrite bool_decide_eq_true_2.
  - apply not_true_iff_false in Hc. apply Hc, List.existsb_exists.
    exists (x, o). split; [exact Hin|]. cbn [fst snd]. rewrite Ho.
    unfold Js.eqb. now rewrite bool_decide_eq_true_2.
Qed.

Lemma same_id_same_item (q : list QueueItem) a b :
  List.NoDup (List.map id q) -> In a q -> In b q -> id a = id b -> a = b.
Proof.
  induction q as [|y q IH]; simpl; [contradiction|].
  intros Hnd Ha Hb E. inversion Hnd as [|? ? Hy Hq]; subst.
  destruct Ha as [->|Ha], Hb as [->|Hb]; auto.
  - exfalso. apply Hy. rewrite E. now apply List.in_map.
  - exfalso. apply Hy. rewrite <- E. now apply List.in_map.
Qed.

(** Where an item stands after [n] passes none of which commits it. *)
Lemma failures_count w item n :
  List.NoDup (List.map id (queue w)) -> In item (queue w) ->
  retries item = 0 ->
  (forall j, (j < n)%nat -> commitsIn env (passes env j w) (id item) = false) ->
  List.NoDup (List.map id (queue (passes env n w)))
  /\ (failures env n w (id item) <= 6)%nat
  /\ ((failures env n w (id item) <= 5)%nat ->
      exists x, In x (queue (passes env n w))
                /\ afterFailures item (failures env n w (id item)) x)
  /\ (failures env n w (id item) = 6%nat ->
      ~ In (id item) (List.map id (queue (passes env n w)))).
Proof.
  intros Hnd Hin H0 Hcommit. induction n as [|n IH].
  - cbn. split; [exact Hnd|]. split; [lia|]. split; [|lia].
    intros _. exists item. split; [exact Hin|]. now left.
  - destruct IH as (Hndn & Hle & Hlow & Hhigh); [auto with lia|].
    specialize (Hcommit n (Nat.lt_succ_diag_r n)).
    destruct (pass_effect env (passes env n w) Hndn)
      as (_ & Hnd' & Hids & Hfrom & Hfail).
    cbn [passes failures]. split; [exact Hnd'|].
    remember (failures env n w (id item)) as f eqn:Ef. clear Ef.
    destruct (failsIn env (passes env n w) (id item)) eqn:Hf.
    + destruct (failsIn_attempt _ _ Hf) as (y & m & Hy & Hidy).
      assert (Hyq := Hfrom _ _ Hy).
      destruct (Nat.eq_dec f 6%nat) as [->|Hne].
      { exfalso. apply (Hhigh eq_refl). rewrite <- Hidy.
        now apply List.in_map. }
      destruct Hlow as (x & Hx & Hform); [lia|].
      assert (Hidx : id x = id item /\ retries x = Z.of_nat f).
      { destruct Hform as [[-> ->]|[t ->]]; [now split|now split]. }
      destruct Hidx as [Hidx Hrx].
      assert (y = x) as ->.
      { apply (same_id_same_item (queue (passes env n w))); auto. congruence. }
      destruct (Hfail x m Hy) as [Hretry Hdrop].
      split; [lia|]. split.
      * intros Hf5. destruct Hretry as (k & _ & Hk);
          [unfold MAX_RETRIES; lia|].
        eexists. split; [exact Hk|]. right. exists (clock env k).
        rewrite Hrx. replace (Z.of_nat f + 1) with (Z.of_nat (f + 1)) by lia.
        destruct Hform as [[_ ->]|[t ->]]; reflexivity.
      * intros Hf6. rewrite <- Hidx. apply Hdrop. unfold MAX_RETRIES. lia.
    + rewrite Nat.add_0_r. split; [exact Hle|]. split.
      * intros Hf5. destruct (Hlow Hf5) as (x & Hx & Hform).
        exists x. split; [|exact Hform].
        apply pass_untouched; [exact Hndn| |exact Hx].
        assert (Hidx : id x = id item).
        { destruct Hform as [[_ ->]|[t ->]]; reflexivity. }
        rewrite Hidx. now apply not_attempted.
      * intros Hf6 Hin'. apply (Hhigh Hf6), Hids, Hin'.
Qed.

End Ceiling.

(** C3, as the code has it.  An item enters the queue with [retries] = 0;
    a failed attempt drops it only when its [retries] has reached 5.  So
    over any number of passes that do not commit the item (passes in which
    it is not yet due make no attempt), it is still queued, with [retries]
    the number of failed attempts, as long as these are at most 5, and the
    sixth failed attempt (the first attempt and five retries) removes it.
    A pass attempts queued items only: once the identifier is out of the
    queue, no pass attempts the item again (a new submission makes a new
    item). *)
Theorem retry_ceiling (env : Env) (w : World) (item : QueueItem) (n : nat) :
  List.NoDup (List.map id (queue w)) ->
  In item (queue w) ->
  retries item = 0 ->
  (forall j, (j < n)%nat -> commitsIn env (passes env j w) (id item) = false) ->
  (failures env n w (id item) <= 6)%nat
  /\ ((failures env n w (id item) <= 5)%nat ->
      exists x, In x (queue (passes env n w))
                /\ id x = id item /\ slug x = slug item /\ code x = code item
                /\ language x = language item
                /\ retries x = Z.of_nat (failures env n w (id item)))
  /\ (failures env n w (id item) = 6%nat ->
      ~ In (id item) (List.map id (queue (passes env n w))))
  /\ (forall w0 x o,
        ~ In (id item) (List.map id (queue w0)) ->
        In (x, o) (attemptsOf env w0) -> id x <> id item).
Proof.
  intros Hnd Hin H0 Hcommit.
  destruct (failures_count env w item n Hnd Hin H0 Hcommit)
    as (_ & Hle & Hlow & Hhigh).
  split; [exact Hle|]. split; [|split; [exact Hhigh|]].
  - intros Hf5. destruct (Hlow Hf5) as (x & Hx & Hform).
    exists x. split; [exact Hx|].
    destruct Hform as [[-> ->]|[t ->]]; cbn; repeat split; auto.
  - intros w0 x o Hout Hatt E. apply Hout. rewrite <- E.
    apply List.in_map. exact (attempted_items_are_queued env w0 x o Hatt).
Qed.


(** * Further properties of the code *)

(** ** normalize.ts: names, fingerprints and headers *)

Section Normalize.

Lemma removeUnits_id (p : N -> bool) s :
  Forall (fun c => p c = false) s -> removeUnits p s = s.
Proof.
  unfold removeUnits. induction 1 as [|c s Hc _ IH]; simpl; [reflexivity|].
  now rewrite Hc, IH.
Qed.

Lemma replaceRuns_id (p : N -> bool) r s :
  Forall (fun c => p c = false) s -> replaceRuns p r false s = s.
Proof.
  induction 1 as [|c s Hc _ IH]; simpl; [reflexivity|]. now rewrite Hc, IH.
Qed.

Lemma noDouble_tail c s : noDouble (c :: s) = true -> noDouble s = true.
Proof.
  destruct s as [|d s]; [reflexivity|]. cbn [noDouble].
  intros H. now apply andb_true_iff in H as [_ H].
Qed.

Lemma noDouble_after_underscore c s :
  noDouble (c :: s) = true -> is_underscore c = true -> headNotUnderscore s.
Proof.
  destruct s as [|d s]; [easy|]. cbn [noDouble headNotUnderscore].
  intros H Hc. apply andb_true_iff in H as [H _]. rewrite Hc in H.
  simpl in H. now apply negb_true_iff in H.
Qed.

Lemma collapse_id b s :
  noDouble s = true -> (b = true -> headNotUnderscore s) ->
  replaceRuns is_underscore underscore b s = s.
Proof.
  revert b. induction s as [|c s IH]; intros b Hs Hb; [reflexivity|].
  cbn [replaceRuns]. destruct (is_underscore c) eqn:Hc.
  - destruct b.
    + specialize (Hb eq_refl). simpl in Hb. congruence.
    + rewrite (IH true (noDouble_tail _ _ Hs)
                 (fun _ => noDouble_after_underscore _ _ Hs Hc)).
      apply N.eqb_eq in Hc. now subst.
  - f_equal. apply IH; [exact (noDouble_tail _ _ Hs)|discriminate].
Qed.

Lemma singleUnderscores_noDouble s : singleUnderscores s -> noDouble s = true.
Proof.
  induction s as [|a s IH]; intros H; [reflexivity|].
  destruct s as [|b s]; [reflexivity|]. cbn [noDouble].
  apply andb_true_iff. split.
  - apply negb_true_iff, andb_false_iff.
    destruct (is_underscore a) eqn:Ha; [|now left]. right.
    destruct (is_underscore b) eqn:Hb; [|reflexivity]. exfalso.
    apply N.eqb_eq in Ha, Hb. subst. now apply (H [] s).
  - apply IH. intros l1 l2 E. apply (H (a :: l1) l2). simpl. now rewrite E.
Qed.

Lemma dropTrailing_cons c s :
  s <> [] -> dropTrailing (c :: s) = c :: dropTrailing s.
Proof.
  intros Hs. unfold dropTrailing. simpl rev.
  destruct (rev s) as [|z zs] eqn:Ez.
  - apply (f_equal (@rev N)) in Ez. rewrite rev_involutive in Ez. now subst.
  - simpl. destruct (is_underscore z); simpl; now rewrite rev_app_distr.
Qed.

Lemma dropTrailing_head s : headNotUnderscore s -> headNotUnderscore (dropTrailing s).
Proof.
  destruct s as [|c s]; [easy|]. intros H.
  destruct s as [|d s].
  - unfold dropTrailing. simpl. simpl in H. now rewrite H.
  - now rewrite dropTrailing_cons.
Qed.

Lemma dropLeading_head s : noDouble s = true -> headNotUnderscore (dropLeading s).
Proof.
  destruct s as [|a s]; [easy|]. cbn [dropLeading].
  destruct (is_underscore a) eqn:Ha; [|now simpl].
  intros H. exact (noDouble_after_underscore _ _ H Ha).
Qed.

Lemma dropLeading_id s : headNotUnderscore s -> dropLeading s = s.
Proof. destruct s as [|c s]; simpl; [easy|]. now intros ->. Qed.

Lemma firstn_head n s : headNotUnderscore s -> headNotUnderscore (firstn n s).
Proof. destruct n, s; simpl; auto. Qed.

Lemma dropTrailing_length s : (length (dropTrailing s) <= length s)%nat.
Proof.
  destruct (dropTrailing_infix s) as (a & b & E).
  rewrite E at 2. rewrite !length_app. lia.
Qed.

Lemma singleUnderscores_rev s : singleUnderscores s -> singleUnderscores (rev s).
Proof.
  intros H l1 l2 E. apply (H (rev l2) (rev l1)).
  apply (f_equal (@rev N)) in E. rewrite rev_involutive in E. rewrite E.
  rewrite rev_app_distr. simpl. now rewrite <- !app_assoc.
Qed.

Lemma dropTrailing_twice s :
  singleUnderscores s -> dropTrailing (dropTrailing s) = dropTrailing s.
Proof.
  intros H. unfold dropTrailing. rewrite rev_involutive. f_equal.
  apply dropLeading_id, dropLeading_head, singleUnderscores_noDouble.
  now apply singleUnderscores_rev.
Qed.

Lemma sanitize_head s : headNotUnderscore (sanitize s).
Proof.
  unfold sanitize, substring0, trimUnderscores.
  apply firstn_head, dropTrailing_head, dropLeading_head, collapse_noDouble.
Qed.

(** X1. Sanitizing a sanitized name takes at most one more underscore off
    its end: [sanitize (sanitize s)] is [sanitize s] without a trailing
    underscore.  When the name was not cut at 100 units, [sanitize] is
    idempotent. *)
Theorem sanitize_twice (s : jsstring) :
  sanitize (sanitize s) = dropTrailing (sanitize s)
  /\ ((length (sanitizeUncut s) <= 100)%nat -> sanitize (sanitize s) = sanitize s).
Proof.
  assert (E : sanitize (sanitize s) = dropTrailing (sanitize s)).
  { unfold sanitize at 1.
    rewrite (removeUnits_id _ _ (sanitize_clean s)).
    rewrite (replaceRuns_id _ _ _ (sanitize_spaceless s)).
    rewrite collapse_id;
      [|apply singleUnderscores_noDouble, sanitize_singleUnderscores
       |discriminate].
    unfold trimUnderscores. rewrite (dropLeading_id _ (sanitize_head s)).
    unfold substring0. apply firstn_all2.
    pose proof (dropTrailing_length (sanitize s)).
    pose proof (sanitize_length s). lia. }
  split; [exact E|]. intros Hlen. rewrite E.
  assert (Es : sanitize s = sanitizeUncut s).
  { unfold sanitize, substring0. fold (sanitizeUncut s). now apply firstn_all2. }
  rewrite Es. unfold sanitizeUncut, trimUnderscores.
  apply dropTrailing_twice, infix_singleUnderscores with (1 := dropLeading_infix _).
  apply noDouble_singleUnderscores, collapse_noDouble.
Qed.
End Normalize.

(** The cut at 100 units can leave an underscore at the end, which a second
    call removes. *)
Example sanitize_twice_after_cut :
  sanitize cutAtUnderscore = repeat 97%N 99 ++ [underscore]
  /\ sanitize (sanitize cutAtUnderscore) = repeat 97%N 99.
Proof. split; reflexivity. Qed.


Section Fingerprint.

Import Sha256.

Lemma round_length st kw : length (round st kw) = length st.
Proof.
  unfold round.
  destruct st as [|a [|b [|c [|d [|e [|f [|g [|h [|i st]]]]]]]]]; reflexivity.
Qed.

Lemma rounds_length kws st : length (fold_left round kws st) = length st.
Proof.
  revert st. induction kws as [|kw kws IH]; intros st; simpl; [reflexivity|].
  now rewrite IH, round_length.
Qed.

Lemma compress_length h block : length (compress h block) = length h.
Proof.
  unfold compress. rewrite length_map, length_combine, rounds_length. lia.
Qed.

Lemma blocks_length n h bytes : length (blocks n h bytes) = length h.
Proof.
  revert h bytes. induction n as [|n IH]; intros h bytes; simpl; [reflexivity|].
  destruct bytes; [reflexivity|]. now rewrite IH, compress_length.
Qed.

Lemma bytesBE_length n x : length (bytesBE n x) = n.
Proof. induction n as [|n IH]; simpl; [reflexivity|]. now rewrite IH. Qed.

Lemma bytesBE_bytes n x : Forall (fun b => (b < 256)%N) (bytesBE n x).
Proof.
  induction n as [|n IH]; simpl; constructor; [|exact IH].
  change 255%N with (N.ones 8). rewrite N.land_ones.
  now apply N.mod_lt.
Qed.

Lemma flat_map_length_const {A B} (f : A -> list B) k (l : list A) :
  (forall a, length (f a) = k) -> length (List.flat_map f l) = (k * length l)%nat.
Proof.
  intros Hf. induction l as [|a l IH]; simpl; [lia|].
  rewrite length_app, Hf, IH. lia.
Qed.

Lemma digest_length bytes : length (digest bytes) = 32%nat.
Proof.
  unfold digest. cbv zeta.
  rewrite (flat_map_length_const _ 4%nat) by (intros; apply bytesBE_length).
  rewrite blocks_length. reflexivity.
Qed.

Lemma digest_bytes bytes : Forall (fun b => (b < 256)%N) (digest bytes).
Proof.
  unfold digest. cbv zeta. apply List.Forall_flat_map, List.Forall_forall.
  intros x _. apply bytesBE_bytes.
Qed.

Lemma hexDigit_lower n : (n < 16)%N -> isLowerHex (hexDigit n) = true.
Proof.
  intros Hn. unfold isLowerHex, hexDigit. apply orb_true_iff.
  destruct (n <? 10)%N eqn:E.
  - apply N.ltb_lt in E. left. apply andb_true_iff. split; apply N.leb_le; lia.
  - apply N.ltb_ge in E. right. apply andb_true_iff. split; apply N.leb_le; lia.
Qed.

Lemma hexByte_lower b : (b < 256)%N -> forallb isLowerHex (hexByte b) = true.
Proof.
  intros Hb. unfold hexByte. simpl.
  rewrite !hexDigit_lower; [reflexivity| |].
  - apply N.mod_lt. discriminate.
  - apply N.Div0.div_lt_upper_bound. exact Hb.
Qed.

End Fingerprint.

(** X2. Whatever the message, [sha256] answers with 64 code units, each a
    digit 0 to 9 or a letter a to f: the two-digit lower-case hexadecimal
    form of the 32 bytes of the digest. *)
Theorem sha256_is_64_hex_digits (message : jsstring) :
  length (sha256 message) = 64%nat /\ forallb isLowerHex (sha256 message) = true.
Proof.
  unfold sha256. split.
  - rewrite (flat_map_length_const _ 2%nat) by reflexivity.
    now rewrite digest_length.
  - apply forallb_forall. intros c Hc. apply in_flat_map in Hc as (b & Hb & Hc).
    pose proof (digest_bytes (Sha256.encode message)) as H.
    rewrite List.Forall_forall in H. specialize (H b Hb).
    pose proof (hexByte_lower b H) as Hh. rewrite forallb_forall in Hh. auto.
Qed.

Section CommentStyle.

Lemma startsWith_spec (p s : jsstring) :
  startsWith p s = true <-> exists b, s = p ++ b.
Proof.
  revert s. induction p as [|a p IH]; intros s; simpl.
  - split; [intros _; now exists s|reflexivity].
  - destruct s as [|c s].
    + split; [discriminate|intros (b & [=])].
    + rewrite andb_true_iff, IH, N.eqb_eq. split.
      * intros (-> & b & ->). now exists b.
      * intros (b & [= -> ->]). split; [reflexivity|now exists b].
Qed.

Lemma includes_spec (s p : jsstring) : includes s p = true <-> infix p s.
Proof.
  unfold infix. induction s as [|c s IH]; simpl.
  - rewrite orb_false_r, startsWith_spec. split.
    + intros (b & E). exists [], b. exact E.
    + intros (a & b & E). destruct a; [|discriminate]. now exists b.
  - rewrite orb_true_iff, startsWith_spec, IH. split.
    + intros [(b & ->)|(a & b & ->)]; [now exists [], b|now exists (c :: a), b].
    + intros (a & b & E). destruct a as [|x a].
      * left. now exists b.
      * right. injection E as -> ->. now exists a, b.
Qed.

End CommentStyle.

(** X3. The header of every language whose lower-cased name contains the
    letter c is written in block comments: the first test of
    [getCommentStyle] lists "c" and looks for it with [includes].  So
    Racket and Scheme, which the third test names, never get ";". *)
Theorem getCommentStyle_c_means_block (language' : jsstring) :
  includes (toLowerCase language') (lit "c") = true ->
  getCommentStyle language' = blockStyle.
Proof.
  intros H. unfold getCommentStyle. cbv zeta.
  replace (someIncluded (toLowerCase language') _) with true; [reflexivity|].
  symmetry. unfold someIncluded. apply existsb_exists.
  exists "c"%string. split; [|exact H]. simpl. tauto.
Qed.


Example scheme_header_is_a_block_comment :
  getCommentStyle (lit "scheme") = blockStyle
  /\ getCommentStyle (lit "lisp") = markerStyle ";".
Proof. split; reflexivity. Qed.


Section HeaderShape.

Lemma getCommentStyle_truthy language' :
  truthy (cs_start (getCommentStyle language')) = true
  /\ truthy (cs_end (getCommentStyle language')) = true.
Proof.
  unfold getCommentStyle. cbv zeta.
  repeat match goal with |- context [someIncluded ?a ?b] =>
    destruct (someIncluded a b) end; split; reflexivity.
Qed.

Lemma join_snoc (sep : jsstring) (ys : list jsstring) (e : jsstring) :
  ys <> [] -> join sep (ys ++ [e]) = join sep ys ++ sep ++ e.
Proof.
  induction ys as [|y ys IH]; intros H; [congruence|].
  destruct ys as [|z ys]; [reflexivity|].
  change (join sep ((y :: z :: ys) ++ [e]))
    with (y ++ sep ++ join sep ((z :: ys) ++ [e])).
  rewrite IH by discriminate.
  change (join sep (y :: z :: ys)) with (y ++ sep ++ join sep (z :: ys)).
  now rewrite <- !app_assoc.
Qed.

Lemma header_join (e : jsstring) (xs : list jsstring) :
  truthy e = true -> List.filter truthy xs <> [] ->
  exists pre,
    join newline (List.filter truthy (xs ++ [e; []])) = pre ++ newline ++ e.
Proof.
  intros He Hne. rewrite List.filter_app. simpl. rewrite He.
  rewrite join_snoc by exact Hne. eexists. reflexivity.
Qed.

Lemma generateHeader_end toISOString slug' title' d c l language' r m at' :
  let cs := getCommentStyle
              (match language' with
               | Some l => if truthy l then l else lit "unknown"
               | None => lit "unknown"
               end) in
  exists pre,
    generateHeader toISOString slug' title' d c l language' r m at'
    = pre ++ newline ++ cs_end cs.
Proof.
  intros cs. unfold generateHeader, headerLines. fold cs.
  destruct (getCommentStyle_truthy
              (match language' with
               | Some l => if truthy l then l else lit "unknown"
               | None => lit "unknown"
               end)) as [Hs He]. fold cs in Hs, He.
  rewrite !app_assoc. apply header_join; [exact He|].
  rewrite <- !app_assoc. cbn [app]. cbn [List.filter]. rewrite Hs.
  discriminate.
Qed.

End HeaderShape.

(** X4. The header [processItem] puts in front of the code does not end
    with a line break: [filter(Boolean)] drops the empty line that
    [generateHeader] pushes last, so the content is the header up to its
    end marker, followed at once by the first line of the code. *)
Theorem header_runs_into_code (toISOString : Z -> jsstring) (st : Settings)
    (item : QueueItem) (mappingEntry : option MappingEntry) :
  includeHeader st = true ->
  exists pre,
    itemContent toISOString st item mappingEntry
    = pre ++ newline ++ cs_end (headerStyle item) ++ code item.
Proof.
  intros H. unfold itemContent. rewrite H.
  destruct (generateHeader_end toISOString (slug item) (title item)
              (or_else (difficulty item) (mappingEntry ≫= me_difficulty))
              (or_else (category item) (mappingEntry ≫= me_category))
              (or_else (listName item) (mappingEntry ≫= me_listName))
              (Some (language item)) (meta item ≫= runtime)
              (meta item ≫= memory) (Some (at_ item))) as (pre & E).
  exists pre. rewrite E. unfold headerStyle. now rewrite <- !app_assoc.
Qed.


(** With the comment marker of Python the first line of the solution ends
    up behind the marker. *)
Example python_header :
  itemContent isoExample DEFAULT_SETTINGS queuedTwoSum None
  = join newline
      [lit "#"; lit "# Problem: Two Sum"; lit "# Slug: two-sum";
       lit "# URL: https://neetcode.io/problems/two-sum";
       lit "# Solved: 2023-11-14T22:13:20.000Z";
       lit "#def f():pass"].
Proof. reflexivity. Qed.

(** ** progress.ts: difficulties *)

Section Difficulty.

Lemma infix_rev (p s : jsstring) : infix p s -> infix (rev p) (rev s).
Proof.
  intros (a & b & ->). exists (rev b), (rev a).
  rewrite !rev_app_distr. now rewrite <- app_assoc.
Qed.

Lemma includes_rev (s p : jsstring) : includes (rev s) (rev p) = includes s p.
Proof.
  apply Bool.eq_iff_eq_true. rewrite !includes_spec. split; intros H.
  - apply infix_rev in H. now rewrite !rev_involutive in H.
  - now apply infix_rev.
Qed.

Lemma includes_trimStart (s p : jsstring) :
  match p with a :: _ => is_space a = false | [] => False end ->
  includes (trimStart s) p = includes s p.
Proof.
  destruct p as [|a p]; [easy|]. intros Ha.
  induction s as [|c s IH]; [reflexivity|].
  cbn [trimStart]. destruct (is_space c) eqn:Hc; [|reflexivity].
  rewrite IH. cbn [includes startsWith].
  destruct (N.eqb_spec a c) as [->|_]; [congruence|reflexivity].
Qed.

Lemma includes_trimEnd (s p : jsstring) :
  match rev p with a :: _ => is_space a = false | [] => False end ->
  includes (trimEnd s) p = includes s p.
Proof.
  intros H. unfold trimEnd.
  rewrite <- (rev_involutive p) at 1. rewrite includes_rev.
  rewrite includes_trimStart by exact H. apply includes_rev.
Qed.

Lemma includes_trim (s : jsstring) (word : string) :
  match lit word with a :: _ => is_space a = false | [] => False end ->
  match rev (lit word) with a :: _ => is_space a = false | [] => False end ->
  includes (trim s) (lit word) = includes s (lit word).
Proof.
  intros H1 H2. unfold trim.
  now rewrite includes_trimEnd, includes_trimStart.
Qed.

End Difficulty.

(** X5. The folder name, the badge and the statistics classify every
    difficulty string alike: the badge of [getDifficultyBadge] and the
    counter the statistics loop of [generateProgressMd] increments are
    those of the name [normalizeDifficulty] returns (none and Unknown when
    it returns [undefined]), with the same precedence easy, medium,
    hard. *)
Theorem difficulty_views_agree (acc : Difficulties) (entry : SolvedEntry) :
  let d := se_difficulty entry in
  getDifficultyBadge d = badgeOf (normalizeDifficulty d)
  /\ countDifficulty acc entry = bump (normalizeDifficulty d) acc.
Proof.
  intros d. unfold getDifficultyBadge, countDifficulty, normalizeDifficulty.
  fold d. destruct d as [d|]; [|split; reflexivity]. cbn [fmap option_fmap option_map optIncludes].
  cbv zeta.
  rewrite !includes_trim by (vm_compute; reflexivity).
  destruct d as [|c d]; [split; reflexivity|]. cbn [truthy negb].
  unfold optIncludes.
  destruct (includes _ (lit "easy")); [split; reflexivity|].
  destruct (includes _ (lit "medium")); [split; reflexivity|].
  destruct (includes _ (lit "hard")); split; reflexivity.
Qed.

Lemma countDifficulty_grows acc entry :
  let acc' := countDifficulty acc entry in
  Easy acc <= Easy acc' /\ Medium acc <= Medium acc'
  /\ Hard acc <= Hard acc' /\ Unknown acc <= Unknown acc'
  /\ Easy acc' + Medium acc' + Hard acc' + Unknown acc'
     = Easy acc + Medium acc + Hard acc + Unknown acc + 1.
Proof.
  unfold countDifficulty. cbv zeta.
  repeat match goal with |- context [if ?c then _ else _] => destruct c end;
    cbn; lia.
Qed.

Lemma countDifficulties_grow (l : list SolvedEntry) acc :
  let d := fold_left countDifficulty l acc in
  Easy acc <= Easy d /\ Medium acc <= Medium d
  /\ Hard acc <= Hard d /\ Unknown acc <= Unknown d
  /\ Easy d + Medium d + Hard d + Unknown d
     = Easy acc + Medium acc + Hard acc + Unknown acc + Z.of_nat (length l).
Proof.
  revert acc. induction l as [|e l IH]; intros acc; cbn [fold_left length].
  - cbv zeta. lia.
  - specialize (IH (countDifficulty acc e)).
    pose proof (countDifficulty_grows acc e) as G. cbv zeta in *. lia.
Qed.

(** X6. The counters of the statistics never go below zero and add up to
    the number of solved entries, the total the document prints. *)
Theorem statistics_add_up (entries' : list SolvedEntry) :
  let d := countDifficulties entries' in
  Easy d + Medium d + Hard d + Unknown d = Z.of_nat (length entries')
  /\ 0 <= Easy d /\ 0 <= Medium d /\ 0 <= Hard d /\ 0 <= Unknown d.
Proof.
  pose proof (countDifficulties_grow entries'
                {| Easy := 0; Medium := 0; Hard := 0; Unknown := 0 |}) as G.
  unfold countDifficulties. cbv zeta in *. cbn in G. lia.
Qed.

(** ** The content script and the popup *)

Section SimpleHash.

Lemma toInt32_eq x : exists k, toInt32 x = x + 2 ^ 32 * k.
Proof.
  unfold toInt32. exists (- ((x + 2 ^ 31) / 2 ^ 32)).
  rewrite Z.mod_eq by lia. lia.
Qed.

Lemma toInt32_congr x y k : x = y + 2 ^ 32 * k -> toInt32 x = toInt32 y.
Proof.
  intros ->. unfold toInt32. f_equal.
  replace (y + 2 ^ 32 * k + 2 ^ 31) with (y + 2 ^ 31 + k * 2 ^ 32) by lia.
  apply Z_mod_plus_full.
Qed.

Lemma simpleHashStep_eq hash char :
  simpleHashStep hash char = toInt32 (31 * hash + Z.of_N char).
Proof.
  unfold simpleHashStep. cbv zeta. rewrite Z.land_diag.
  rewrite Z.shiftl_mul_pow2 by lia.
  destruct (toInt32_eq hash) as (k1 & E1). rewrite E1.
  destruct (toInt32_eq ((hash + 2 ^ 32 * k1) * 2 ^ 5)) as (k2 & E2). rewrite E2.
  apply toInt32_congr with (k := 32 * k1 + k2). lia.
Qed.

Lemma two_steps hash a b :
  simpleHashStep (simpleHashStep hash a) b
  = toInt32 (961 * hash + 31 * Z.of_N a + Z.of_N b).
Proof.
  rewrite !simpleHashStep_eq.
  destruct (toInt32_eq (31 * hash + Z.of_N a)) as (k & E). rewrite E.
  apply toInt32_congr with (k := 31 * k). lia.
Qed.

End SimpleHash.

(** X7. [simpleHash] is the polynomial hash with factor 31 in 32 bits, so
    raising one code unit by one and lowering the next by 31 keeps the
    hash, wherever in the string: the content script then takes the second
    of two such submissions for a repetition of the first. *)
Theorem simpleHash_collides (before after : jsstring) (a b : N) :
  simpleHash (before ++ [(a + 1)%N; b] ++ after)
  = simpleHash (before ++ [a; (b + 31)%N] ++ after).
Proof.
  unfold simpleHash. f_equal. rewrite !fold_left_app. f_equal.
  cbn [fold_left]. rewrite !two_steps. f_equal. lia.
Qed.

Example simpleHash_Aa_BB :
  simpleHash (lit "two-sumpythonAa") = simpleHash (lit "two-sumpythonBB")
  /\ simpleHash (lit "Aa") = lit "1mo"
  /\ simpleHash (lit "two-sumpythondef f():pass") = lit "-gluhuj".
Proof. repeat split; vm_compute; reflexivity. Qed.

Lemma div_pos_iff a b : 0 < b -> 0 < a / b <-> b <= a.
Proof.
  intros Hb. split; intros H.
  - destruct (Z.lt_ge_cases a b) as [L|L]; [|exact L].
    assert (a / b < 1) by (apply Z.div_lt_upper_bound; lia). lia.
  - assert (1 <= a / b) by (apply Z.div_le_lower_bound; lia). lia.
Qed.

(** X8. [formatRelativeTime] shows the largest unit that is not zero: days
    from 86400000 ms on, hours from 3600000 ms, minutes from 60000 ms, the
    count being the whole number of units (the three nested [Math.floor]
    are one floor of the quotient); below a minute, and for a date in the
    future, it says "Just now". *)
Theorem formatRelativeTime_thresholds (now' date : Z) :
  let diff := now' - date in
  (diff < 60000 -> formatRelativeTime now' date = lit "Just now")
  /\ (60000 <= diff < 3600000 ->
      formatRelativeTime now' date
      = numberToString (diff / 60000) ++ lit "m ago")
  /\ (3600000 <= diff < 86400000 ->
      formatRelativeTime now' date
      = numberToString (diff / 3600000) ++ lit "h ago")
  /\ (86400000 <= diff ->
      formatRelativeTime now' date
      = numberToString (diff / 86400000) ++ lit "d ago").
Proof.
  intros diff. unfold formatRelativeTime. fold diff. cbv zeta.
  rewrite !Z.div_div by lia.
  change (1000 * (60 * (60 * 24))) with 86400000.
  change (1000 * (60 * 60)) with 3600000. change (1000 * 60) with 60000.
  pose proof (div_pos_iff diff 86400000 eq_refl) as D1.
  pose proof (div_pos_iff diff 3600000 eq_refl) as D2.
  pose proof (div_pos_iff diff 60000 eq_refl) as D3.
  destruct D1 as [D1 D1'], D2 as [D2 D2'], D3 as [D3 D3'].
  repeat split; intros H;
    repeat match goal with |- context [?a <? ?b] =>
      destruct (Z.ltb_spec a b) end; try reflexivity; exfalso; lia.
Qed.

Example formatRelativeTime_demo :
  formatRelativeTime 1700000090000 1700000000000 = lit "1m ago"
  /\ formatRelativeTime 1700007199999 1700000000000 = lit "1h ago"
  /\ formatRelativeTime 1700180000000 1700000000000 = lit "2d ago"
  /\ formatRelativeTime 1700000000000 1700000005000 = lit "Just now".
Proof. repeat split; reflexivity. Qed.

(** ** logger.ts: the ring buffer *)

Lemma keepNewest_cons e l : keepNewest (e :: l) = e :: firstn 99 l.
Proof.
  unfold keepNewest. destruct (decide _) as [H|H]; [reflexivity|].
  f_equal. symmetry. apply firstn_all2. unfold MAX_LOGS in H. simpl in H. lia.
Qed.

(** X9. After every call of the logger the log is the new entry in front
    of the 99 newest entries of before (those in memory, or those in
    storage when the logger had not been initialized): it never holds
    more than 100 entries, and what is stored is what is in memory. *)
Theorem logger_keeps_newest_100 (env : Env) (level : Level)
    (message : jsstring) (details : option jsstring) (w : World) :
  let w' := exec (addLog env level message details) w in
  let base := if loggerInitialized w then loggerLogs w else storedLogs w in
  result (addLog env level message details) w = Ok tt
  /\ loggerLogs w' = entryAt env w level message details :: firstn 99 base
  /\ storedLogs w' = loggerLogs w'
  /\ (length (loggerLogs w') <= 100)%nat.
Proof.
  intros w' base. subst w'. unfold exec, result. rewrite addLog_run.
  cbn [fst snd logged loggerLogs storedLogs]. fold base.
  rewrite keepNewest_cons. repeat split. simpl.
  pose proof (firstn_le_length 99 base). lia.
Qed.

(** ** github.ts: the requests of a commit *)

Section GitHub.

Variable env : Env.

Lemma request_run method file br sha w :
  request env method file br sha w
  = (answerOf env (length (sent w))
       {| rq_method := method; rq_file := file; rq_branch := br;
          rq_sha := sha |},
     set_sent (sent w ++ [{| rq_method := method; rq_file := file;
                             rq_branch := br; rq_sha := sha |}]) w).
Proof.
  unfold request, answerOf, parsed, errorMessage. unfold_monad. cbn.
  destruct (fetch env _ _) as [r|e]; [|reflexivity].
  destruct (statusOk (status r)); cbn; [|now destruct (bodyText r)].
  destruct (status r =? 204); [reflexivity|]. now destruct (bodyJson r).
Qed.

Lemma accepted_answer n rq :
  accepted env n rq
  = match answerOf env n rq with Ok _ => true | Throw _ => false end.
Proof.
  unfold accepted, answerOf. destruct (fetch env n rq) as [r|e]; [|reflexivity].
  destruct (statusOk (status r)); [|reflexivity]. now destruct (parsed r).
Qed.

Lemma getFile_run path br w :
  getFile env path br w
  = if wellFormed path && wellFormed br
    then (orAbsent (answerOf env (length (sent w)) (getRequest path br)),
          set_sent (sent w ++ [getRequest path br]) w)
    else (Throw uriMalformed, w).
Proof.
  unfold getFile, try_catch. destruct (_ && _).
  - rewrite request_run. fold (getRequest path br).
    destruct (answerOf _ _ _) as [v|e]; cbn [orAbsent]; [reflexivity|].
    now destruct (includes _ _).
  - reflexivity.
Qed.

Lemma includes_app_r (a s p : jsstring) :
  includes s p = true -> includes (a ++ s) p = true.
Proof.
  rewrite !includes_spec. intros (x & y & ->). exists (a ++ x), y.
  now rewrite <- app_assoc.
Qed.

Lemma includes_app_l (s b p : jsstring) :
  includes s p = true -> includes (s ++ b) p = true.
Proof.
  rewrite !includes_spec. intros (x & y & ->). exists x, (y ++ b).
  now rewrite <- !app_assoc.
Qed.

Lemma answer_404 n rq r text :
  fetch env n rq = Ok r -> statusOk (status r) = false ->
  bodyText r = Ok text ->
  status r = 404 \/ includes text (lit "404") = true ->
  orAbsent (answerOf env n rq) = Ok JNull.
Proof.
  intros Hf Hs Ht H. unfold answerOf. rewrite Hf, Hs. cbn [orAbsent].
  replace (includes (errorMessage r) (lit "404")) with true; [reflexivity|].
  symmetry. unfold errorMessage. rewrite Ht. destruct H as [H|H].
  - rewrite H. apply includes_app_r, includes_app_l. reflexivity.
  - now do 3 apply includes_app_r.
Qed.

Lemma answer_ok n rq r v :
  fetch env n rq = Ok r -> statusOk (status r) = true -> parsed r = Ok v ->
  orAbsent (answerOf env n rq) = Ok v.
Proof. intros Hf Hs Hp. unfold answerOf. now rewrite Hf, Hs, Hp. Qed.

End GitHub.

(** X10. [getFile] answers [null], the file does not exist, for every
    failed request whose error message contains 404: for the status 404,
    and also for any other status that is not [ok] when the text of the
    answer contains these digits.  That is for a path and a branch that
    [encodeURIComponent] takes; for one with a lone surrogate no request
    is made and [getFile] throws.  The text of the answer is the one
    [response.text()] gives. *)
Theorem getFile_takes_404_for_absent (env : Env) (path branch' : jsstring)
    (w : World) (r : Response) (text : jsstring) :
  fetch env (length (sent w)) (getRequest path branch') = Ok r ->
  statusOk (status r) = false ->
  bodyText r = Ok text ->
  status r = 404 \/ includes text (lit "404") = true ->
  result (getFile env path branch') w
  = (if wellFormed path && wellFormed branch'
     then Ok JNull else Throw (lit "URI malformed"))
  /\ sent (exec (getFile env path branch') w)
     = (if wellFormed path && wellFormed branch'
        then sent w ++ [getRequest path branch'] else sent w).
Proof.
  intros Hf Hs Ht H. unfold result, exec. rewrite getFile_run.
  destruct (_ && _); [|now split].
  rewrite (answer_404 env _ _ r text Hf Hs Ht H). now split.
Qed.

Section Commit.

Variable env : Env.

Lemma status_404_not_ok r : status r = 404 -> statusOk (status r) = false.
Proof. now intros ->. Qed.

Lemma getFile_absent path br w r text :
  wellFormed path && wellFormed br = true ->
  fetch env (length (sent w)) (getRequest path br) = Ok r ->
  status r = 404 -> bodyText r = Ok text ->
  getFile env path br w
  = (Ok JNull, set_sent (sent w ++ [getRequest path br]) w).
Proof.
  intros Hwf Hf Hs Ht. rewrite getFile_run, Hwf.
  now rewrite (answer_404 env _ _ r text Hf (status_404_not_ok r Hs) Ht
                 (or_introl Hs)).
Qed.

Lemma getFile_found path br w r v :
  wellFormed path && wellFormed br = true ->
  fetch env (length (sent w)) (getRequest path br) = Ok r ->
  statusOk (status r) = true -> parsed r = Ok v ->
  getFile env path br w
  = (Ok v, set_sent (sent w ++ [getRequest path br]) w).
Proof.
  intros Hwf Hf Hs Hp. rewrite getFile_run, Hwf.
  now rewrite (answer_ok env _ _ r v Hf Hs Hp).
Qed.

(** The end of [createOrUpdateFile]: the text is encoded, then the path,
    then the request is made. *)
Lemma put_run path content br sha w :
  exists e,
    ((if wellFormed content then mret tt else throw uriMalformed) ≫= (fun _ =>
     (if wellFormed path then mret tt else throw uriMalformed) ≫= (fun _ =>
     request env PUT path br sha ≫= (fun _ => mret tt)))) w
    = if wellFormed content && wellFormed path
      then (if accepted env (length (sent w)) (putRequest path br sha)
            then Ok tt else Throw e,
            set_sent (sent w ++ [putRequest path br sha]) w)
      else (Throw uriMalformed, w).
Proof.
  rewrite bind_run. destruct (wellFormed content); [|now exists []].
  cbn [andb]. unfold mret at 1, M_ret, ret. cbv beta iota.
  rewrite bind_run. destruct (wellFormed path); [|now exists []].
  unfold mret at 1, M_ret, ret. cbv beta iota.
  rewrite bind_run, request_run. fold (putRequest path br sha).
  rewrite accepted_answer.
  destruct (answerOf _ _ _) as [v|e]; [exists []|exists e]; reflexivity.
Qed.

Lemma finish_run (path : jsstring) (m : M unit) (w1 : World) :
  try_catch
    (m ≫= (fun _ =>
       logger_success env (lit "Committed: " ++ path) None ≫= fun _ =>
       mret true))
    (fun message =>
       logger_error env (lit "Failed to commit " ++ path) (Some message)
       ≫= fun _ => mret false) w1
  = match m w1 with
    | (Ok _, w2) =>
        (Ok true, logged env LSuccess (lit "Committed: " ++ path) None w2)
    | (Throw e, w2) =>
        (Ok false,
         logged env LError (lit "Failed to commit " ++ path) (Some e) w2)
    end.
Proof.
  unfold try_catch, logger_success, logger_error. rewrite bind_run.
  destruct (m w1) as [[[]|e] w2]; now rewrite bind_run, addLog_run.
Qed.

Lemma length_snoc {A} (l : list A) x : length (l ++ [x]) = S (length l).
Proof. rewrite length_app. simpl. lia. Qed.

(** [createOrUpdateFile] with a version token, and without one. *)
Lemma createOrUpdateFile_given path content br sha0 w :
  defined sha0 = true ->
  exists e,
    createOrUpdateFile env path content br sha0 w
    = if wellFormed content && wellFormed path
      then (if accepted env (length (sent w)) (putRequest path br sha0)
            then Ok tt else Throw e,
            set_sent (sent w ++ [putRequest path br sha0]) w)
      else (Throw uriMalformed, w).
Proof.
  intros H. destruct (put_run path content br sha0 w) as (e & R).
  exists e. rewrite <- R. unfold createOrUpdateFile. rewrite bind_run, H.
  unfold mret at 1, M_ret, ret. cbv beta iota. now rewrite H.
Qed.

Lemma createOrUpdateFile_lookup path content br sha0 w v :
  defined sha0 = false ->
  wellFormed path && wellFormed br = true ->
  orAbsent (answerOf env (length (sent w)) (getRequest path br)) = Ok v ->
  let w1 := set_sent (sent w ++ [getRequest path br]) w in
  let sha := if defined (shaOf v) then shaOf v else None in
  exists e,
    createOrUpdateFile env path content br sha0 w
    = if wellFormed content && wellFormed path
      then (if accepted env (length (sent w1)) (putRequest path br sha)
            then Ok tt else Throw e,
            set_sent (sent w1 ++ [putRequest path br sha]) w1)
      else (Throw uriMalformed, w1).
Proof.
  intros H Hwf Hv w1 sha. destruct (put_run path content br sha w1) as (e & R).
  exists e. rewrite <- R. unfold createOrUpdateFile.
  rewrite bind_run, H, bind_run, getFile_run, Hwf, Hv. reflexivity.
Qed.

(** [commitSolutionFile] once the file has been looked up and is not
    skipped. *)
Lemma commit_write_run br path content ow w v :
  wellFormed path && wellFormed br = true ->
  orAbsent (answerOf env (length (sent w)) (getRequest path br)) = Ok v ->
  jsonTruthy v && negb ow = false ->
  commitSolutionFile env br path content ow w
  = match createOrUpdateFile env path content br (shaOf v)
            (set_sent (sent w ++ [getRequest path br]) w) with
    | (Ok _, w2) =>
        (Ok true, logged env LSuccess (lit "Committed: " ++ path) None w2)
    | (Throw e, w2) =>
        (Ok false,
         logged env LError (lit "Failed to commit " ++ path) (Some e) w2)
    end.
Proof.
  intros Hwf Hv Hskip. rewrite <- finish_run.
  unfold commitSolutionFile, try_catch at 1 2.
  rewrite bind_run, getFile_run, Hwf, Hv, Hskip. reflexivity.
Qed.

End Commit.

(** X11. With [overwrite] off, a file that exists is left alone: after the
    one GET that finds it (an answer that is [ok], with a body that
    parses to something truthy), [commitSolutionFile] logs that it skips
    the file and reports success; no PUT is sent and nothing else
    changes.  An answer that is [ok] with the body [null] is no file. *)
Theorem commit_skips_existing (env : Env)
    (branch' filePath content : jsstring) (w : World) (r : Response)
    (v : Json) :
  wellFormed filePath = true -> wellFormed branch' = true ->
  fetch env (length (sent w)) (getRequest filePath branch') = Ok r ->
  statusOk (status r) = true -> parsed r = Ok v ->
  commitSolutionFile env branch' filePath content false w
  = (if jsonTruthy v
     then (Ok true,
           logged env LInfo (lit "File already exists, skipping: " ++ filePath)
             None (set_sent (sent w ++ [getRequest filePath branch']) w))
     else commitSolutionFile env branch' filePath content true w).
Proof.
  intros Hp Hb Hf Hs Hv.
  assert (Hwf : wellFormed filePath && wellFormed branch' = true)
    by now rewrite Hp, Hb.
  unfold commitSolutionFile, try_catch.
  rewrite !bind_run, (getFile_found env _ _ w r v Hwf Hf Hs Hv).
  destruct (jsonTruthy v); cbn [andb negb]; [|reflexivity].
  rewrite bind_run. unfold logger_info. now rewrite addLog_run.
Qed.

(** X12. A file that does not exist yet is asked for twice:
    [commitSolutionFile] looks it up, gets 404, and hands no version token
    to [createOrUpdateFile], which looks it up again.  Then the content is
    encoded, which fails for a text with a lone surrogate, and the PUT is
    made.  The requests are GET, GET and, for a text that can be encoded,
    a PUT without [sha]; the call succeeds exactly when that PUT is made
    and accepted.  The two answers 404 are answers whose text can be
    read. *)
Theorem commit_new_file_asks_twice (env : Env)
    (branch' filePath content : jsstring) (overwrite' : bool) (w : World)
    (r1 r2 : Response) (t1 t2 : jsstring) :
  let n := length (sent w) in
  let w' := exec (commitSolutionFile env branch' filePath content overwrite') w in
  wellFormed filePath = true -> wellFormed branch' = true ->
  fetch env n (getRequest filePath branch') = Ok r1 ->
  status r1 = 404 -> bodyText r1 = Ok t1 ->
  fetch env (S n) (getRequest filePath branch') = Ok r2 ->
  status r2 = 404 -> bodyText r2 = Ok t2 ->
  sent w'
  = sent w ++ [getRequest filePath branch'; getRequest filePath branch']
    ++ (if wellFormed content then [putRequest filePath branch' None] else [])
  /\ result (commitSolutionFile env branch' filePath content overwrite') w
     = Ok (wellFormed content
           && accepted env (S (S n)) (putRequest filePath branch' None)).
Proof.
  intros n w' Hp Hb H1 S1 T1 H2 S2 T2. subst w'. unfold exec, result.
  assert (Hwf : wellFormed filePath && wellFormed branch' = true)
    by now rewrite Hp, Hb.
  rewrite (commit_write_run env branch' filePath content overwrite' w JNull Hwf);
    [|exact (answer_404 env _ _ r1 t1 H1 (status_404_not_ok r1 S1) T1
               (or_introl S1))
     |reflexivity].
  set (w1 := set_sent (sent w ++ [getRequest filePath branch']) w).
  destruct (createOrUpdateFile_lookup env filePath content branch' None w1
              JNull eq_refl Hwf) as (e & R).
  { subst w1. cbn [sent set_sent]. rewrite length_snoc.
    exact (answer_404 env _ _ r2 t2 H2 (status_404_not_ok r2 S2) T2
             (or_introl S2)). }
  cbn [shaOf defined] in R. cbn [shaOf]. rewrite R, Hp, andb_true_r.
  subst w1. cbn [sent set_sent]. rewrite !length_snoc. fold n.
  destruct (wellFormed content); cbn [andb].
  - destruct (accepted env (S (S n)) _); cbn; rewrite <- !app_assoc;
      split; reflexivity.
  - cbn. rewrite <- ?app_assoc. split; reflexivity.
Qed.


(** X13. With [overwrite] on, an existing file is replaced in two
    requests: the GET that finds it and, for a text that can be encoded,
    a PUT that carries the version token of that answer; the call
    succeeds exactly when that PUT is made and accepted. *)
Theorem commit_overwrite_carries_sha (env : Env)
    (branch' filePath content : jsstring) (w : World) (r : Response)
    (v sha : Json) :
  let n := length (sent w) in
  let w' := exec (commitSolutionFile env branch' filePath content true) w in
  wellFormed filePath = true -> wellFormed branch' = true ->
  fetch env n (getRequest filePath branch') = Ok r ->
  statusOk (status r) = true -> parsed r = Ok v ->
  shaOf v = Some sha -> jsonTruthy sha = true ->
  sent w'
  = sent w ++ [getRequest filePath branch']
    ++ (if wellFormed content
        then [putRequest filePath branch' (Some sha)] else [])
  /\ result (commitSolutionFile env branch' filePath content true) w
     = Ok (wellFormed content
           && accepted env (S n) (putRequest filePath branch' (Some sha))).
Proof.
  intros n w' Hp Hb Hf Hs Hv Hsha Ht. subst w' n. unfold exec, result.
  assert (Hwf : wellFormed filePath && wellFormed branch' = true)
    by now rewrite Hp, Hb.
  rewrite (commit_write_run env branch' filePath content true w v Hwf);
    [|exact (answer_ok env _ _ r v Hf Hs Hv)|apply andb_false_r].
  set (w1 := set_sent (sent w ++ [getRequest filePath branch']) w).
  destruct (createOrUpdateFile_given env filePath content branch' (Some sha)
              w1 Ht) as (e & R).
  rewrite Hsha, R, Hp, andb_true_r. subst w1. cbn [sent set_sent].
  rewrite !length_snoc.
  destruct (wellFormed content); cbn [andb].
  - destruct (accepted env (S _) _); cbn; rewrite <- !app_assoc;
      split; reflexivity.
  - cbn. rewrite <- ?app_assoc. split; reflexivity.
Qed.


Section Protocol.

Variable env : Env.

Lemma createOrUpdateFile_sent path content br sha0 w1 :
  exists reads writes,
    sent (snd (createOrUpdateFile env path content br sha0 w1))
    = sent w1 ++ reads ++ writes
    /\ (reads = [] \/ reads = [getRequest path br])
    /\ (writes = []
        \/ exists sha, wellFormed content = true
                       /\ writes = [putRequest path br sha])
    /\ ((exists u, fst (createOrUpdateFile env path content br sha0 w1) = Ok u)
        -> writes <> []).
Proof.
  destruct (defined sha0) eqn:Hs.
  - destruct (createOrUpdateFile_given env path content br sha0 w1 Hs)
      as (e & R).
    rewrite R. destruct (wellFormed content) eqn:Hc;
      [destruct (wellFormed path)|]; cbn [andb fst snd].
    + eexists [], [_]. cbn [sent set_sent app].
      split; [reflexivity|]. split; [now left|]. split; [right; eauto|].
      intros _; discriminate.
    + exists [], []. rewrite app_nil_r.
      split; [reflexivity|]. split; [now left|]. split; [now left|].
      intros (u & [=]).
    + exists [], []. rewrite app_nil_r.
      split; [reflexivity|]. split; [now left|]. split; [now left|].
      intros (u & [=]).
  - destruct (wellFormed path && wellFormed br) eqn:Hwf.
    2:{ assert (E : createOrUpdateFile env path content br sha0 w1
                    = (Throw uriMalformed, w1)).
        { unfold createOrUpdateFile.
          rewrite bind_run, Hs, bind_run, getFile_run, Hwf. reflexivity. }
        rewrite E. exists [], []. cbn [fst snd]. rewrite app_nil_r.
        split; [reflexivity|]. split; [now left|]. split; [now left|].
        intros (u & [=]). }
    destruct (orAbsent (answerOf env (length (sent w1)) (getRequest path br)))
      as [existing|e0] eqn:Hv.
    + destruct (createOrUpdateFile_lookup env path content br sha0 w1 existing
                  Hs Hwf Hv) as (e & R).
      rewrite R. destruct (wellFormed content) eqn:Hc;
        [destruct (wellFormed path)|]; cbn [andb fst snd].
      * eexists [getRequest path br], [_]. cbn [sent set_sent app].
        rewrite <- app_assoc.
        split; [reflexivity|]. split; [now right|]. split; [right; eauto|].
        intros _; discriminate.
      * exists [getRequest path br], []. cbn [sent set_sent app].
        split; [reflexivity|]. split; [now right|]. split; [now left|].
        intros (u & [=]).
      * exists [getRequest path br], []. cbn [sent set_sent app].
        split; [reflexivity|]. split; [now right|]. split; [now left|].
        intros (u & [=]).
    + assert (E : createOrUpdateFile env path content br sha0 w1
                  = (Throw e0, set_sent (sent w1 ++ [getRequest path br]) w1)).
      { unfold createOrUpdateFile.
        rewrite bind_run, Hs, bind_run, getFile_run, Hwf, Hv. reflexivity. }
      rewrite E. exists [getRequest path br], [].
      cbn [snd fst sent set_sent app].
      split; [reflexivity|]. split; [now right|]. split; [now left|].
      intros (u & [=]).
Qed.

End Protocol.

(** X14. [commitSolutionFile] always resolves.  For a path and a branch
    that can be encoded it sends one or two GETs of the file followed by
    at most one PUT of the same file and nothing else: never a write
    before a read, never two writes, and a write only of a text that can
    be encoded.  For a path or a branch with a lone surrogate it sends
    nothing and fails.  With [overwrite] on it reports success only after
    a PUT.  Apart from the log and the history the world is the one
    before the call. *)
Theorem commitSolutionFile_protocol (env : Env)
    (branch' filePath content : jsstring) (overwrite' : bool) (w : World) :
  let w' := exec (commitSolutionFile env branch' filePath content overwrite') w in
  exists (success : bool) (reads writes : list Request),
    result (commitSolutionFile env branch' filePath content overwrite') w
    = Ok success
    /\ sent w' = sent w ++ reads ++ writes
    /\ (if wellFormed filePath && wellFormed branch'
        then reads = [getRequest filePath branch']
             \/ reads = [getRequest filePath branch';
                         getRequest filePath branch']
        else reads = [] /\ writes = [] /\ success = false)
    /\ (writes = []
        \/ exists sha, wellFormed content = true
                       /\ writes = [putRequest filePath branch' sha])
    /\ (success = true -> writes = [] -> overwrite' = false)
    /\ quiet w w'.
Proof.
  intros w'.
  assert (Q : quiet w w') by apply Quiet_commitSolutionFile.
  subst w'. unfold exec, result in *.
  remember (commitSolutionFile env branch' filePath content overwrite' w)
    as C eqn:EC.
  unfold commitSolutionFile, try_catch in EC. rewrite bind_run in EC.
  rewrite getFile_run in EC.
  destruct (wellFormed filePath && wellFormed branch').
  2:{ unfold logger_error in EC. rewrite bind_run, addLog_run in EC.
      subst C. exists false, [], []. cbn [fst snd logged sent].
      rewrite app_nil_r.
      split; [reflexivity|]. split; [reflexivity|]. split; [now repeat split|].
      split; [now left|]. split; [discriminate|exact Q]. }
  set (w1 := set_sent (sent w ++ [getRequest filePath branch']) w) in *.
  assert (S1 : sent w1 = sent w ++ [getRequest filePath branch'])
    by reflexivity.
  clearbody w1.
  destruct (orAbsent _) as [existing|e].
  - destruct (jsonTruthy existing && negb overwrite') eqn:Hskip.
    + unfold logger_info in EC. rewrite bind_run, addLog_run in EC.
      subst C. exists true, [getRequest filePath branch'], [].
      cbn [fst snd logged sent]. rewrite app_nil_r.
      split; [reflexivity|]. split; [exact S1|]. split; [now left|].
      split; [now left|]. split; [|exact Q].
      intros _ _. apply andb_true_iff in Hskip as [_ Hskip].
      now destruct overwrite'.
    + pose proof (finish_run env filePath
                    (createOrUpdateFile env filePath content branch'
                       (shaOf existing)) w1) as F.
      unfold try_catch in F. rewrite F in EC. clear F.
      destruct (createOrUpdateFile_sent env filePath content branch'
                  (shaOf existing) w1)
        as (reads & writes & Hsent & Hreads & Hwrites & Hok).
      destruct (createOrUpdateFile env filePath content branch' _ w1)
        as [[u|e] w2]; subst C; cbn [fst snd logged sent] in *.
      * exists true, (getRequest filePath branch' :: reads), writes.
        rewrite Hsent, S1, <- !app_assoc.
        split; [reflexivity|]. split; [reflexivity|].
        split; [destruct Hreads as [->| ->]; auto|].
        split; [exact Hwrites|]. split; [|exact Q].
        intros _ Hw. exfalso. apply Hok; eauto.
      * exists false, (getRequest filePath branch' :: reads), writes.
        rewrite Hsent, S1, <- !app_assoc.
        split; [reflexivity|]. split; [reflexivity|].
        split; [destruct Hreads as [->| ->]; auto|].
        split; [exact Hwrites|]. split; [discriminate|exact Q].
  - unfold logger_error in EC. rewrite bind_run, addLog_run in EC.
    subst C. exists false, [getRequest filePath branch'], [].
    cbn [fst snd logged sent]. rewrite app_nil_r.
    split; [reflexivity|]. split; [exact S1|]. split; [now left|].
    split; [now left|]. split; [discriminate|exact Q].
Qed.

(** ** queue.ts: what a pass commits *)

Section Ledger.

Variable env : Env.

Lemma framed_trans w1 w2 w3 : framed w1 w2 -> framed w2 w3 -> framed w1 w3.
Proof. intros [] []. constructor; congruence. Qed.

Lemma onFailure_framed x message w : framed w (snd (onFailure env x message w)).
Proof.
  unfold onFailure, recordAttempt, removeFromQueue, updateQueueItem, getQueue,
    saveQueue, logger_error, logger_warn.
  unfold_monad.
  destruct w as [st tok mp sv q ls sl ll li ip tm tk rd sn at' op].
  destruct (MAX_RETRIES <=? retries x); cbn.
  - rewrite addLog_run. now cbn.
  - destruct (updateFirst _ _ q) as [q'|]; cbn; rewrite addLog_run; now cbn.
Qed.

Lemma attemptItem_ledger st mp counts x w :
  exists counts' w' o,
    attemptItem env st mp counts x w = (Ok counts', w')
    /\ attempts w' = attempts w ++ [(x, o)]
    /\ framed w w'
    /\ match o with
       | Committed =>
           counts' = (fst counts + 1, snd counts)
           /\ solved w' = assign (slug x) (solvedEntryOf x mp) (solved w)
       | Failed _ =>
           counts' = (if MAX_RETRIES <=? retries x
                      then (fst counts, snd counts + 1) else counts)
           /\ solved w' = solved w
       end.
Proof.
  unfold attemptItem, try_catch. rewrite bind_run.
  pose proof (Quiet_processItem env x st mp w) as Hq.
  destruct (processItem env x st mp w) as [[b|e] w2]; cbn [snd] in Hq.
  - destruct b.
    + destruct Hq as [? ? ? Hsv Hqueue ? ? ? Hatt Htk].
      unfold recordAttempt, updateSolved, removeFromQueue, getProgress,
        saveProgress, getQueue, saveQueue. unfold_monad.
      destruct w2 as [? ? ? ? ? ? ? ? ? ? ? ? ? ? ? ?]. cbn in *.
      do 2 eexists. exists Committed. split; [reflexivity|]. cbn.
      split; [congruence|]. split; [now constructor|].
      split; [reflexivity|congruence].
    + cbn. rewrite bind_run.
      pose proof (onFailure_framed x (lit "Commit failed") w2) as Hf.
      destruct (onFailure_run env x (lit "Commit failed") w2)
        as (w3 & Hrun & Htk3 & Hatt3 & Hsv3 & Hcase).
      rewrite Hrun in *. cbn [snd] in Hf.
      do 2 eexists. exists (Failed (lit "Commit failed")).
      split; [reflexivity|]. destruct Hq as [? ? ? Hsv Hqueue ? ? ? Hatt Htk].
      split; [congruence|].
      split; [apply framed_trans with w2; [now constructor|exact Hf]|].
      split; [reflexivity|congruence].
  - rewrite bind_run.
    pose proof (onFailure_framed x e w2) as Hf.
    destruct (onFailure_run env x e w2)
      as (w3 & Hrun & Htk3 & Hatt3 & Hsv3 & Hcase).
    rewrite Hrun in *. cbn [snd] in Hf.
    do 2 eexists. exists (Failed e).
    split; [reflexivity|]. destruct Hq as [? ? ? Hsv Hqueue ? ? ? Hatt Htk].
    split; [congruence|].
    split; [apply framed_trans with w2; [now constructor|exact Hf]|].
    split; [reflexivity|congruence].
Qed.

Lemma committedItems_app l1 l2 :
  committedItems (l1 ++ l2) = committedItems l1 ++ committedItems l2.
Proof. unfold committedItems. now rewrite List.filter_app, List.map_app. Qed.

Lemma droppedItems_app l1 l2 :
  droppedItems (l1 ++ l2) = droppedItems l1 ++ droppedItems l2.
Proof. unfold droppedItems. now rewrite List.filter_app, List.map_app. Qed.

Lemma ledger_trans mp c1 c2 c3 w1 w2 w3 n1 n2 :
  ledger mp c1 c2 w1 w2 n1 -> ledger mp c2 c3 w2 w3 n2 ->
  ledger mp c1 c3 w1 w3 (n1 ++ n2).
Proof.
  intros (A1 & F1 & P1 & E1 & S1) (A2 & F2 & P2 & E2 & S2).
  unfold ledger. rewrite committedItems_app, droppedItems_app, !length_app.
  split; [rewrite A2, A1; now rewrite app_assoc|].
  split; [exact (framed_trans _ _ _ F1 F2)|].
  split; [lia|]. split; [lia|].
  unfold recordSolved in *. now rewrite fold_left_app, <- S1.
Qed.

Lemma processOne_ledger st mp counts x w :
  exists counts' w' news,
    processOne env st mp counts x w = (Ok counts', w')
    /\ ledger mp counts counts' w w' news.
Proof.
  unfold processOne. rewrite bind_run.
  pose proof (isDue_quiet env x w) as Hq.
  destruct (isDue_answers env x w) as [due Hdue].
  destruct (isDue env x w) as [r w1]. cbn [fst snd] in *. subst r.
  destruct due; cbn [negb].
  - destruct (attemptItem_ledger st mp counts x w1)
      as (c & w' & o & Hrun & Ha & Hf & Hcase).
    rewrite Hrun. exists c, w', [(x, o)]. split; [reflexivity|].
    destruct Hq as [? ? ? Hsv Hqueue ? ? ? Hatt Htk].
    split; [congruence|].
    split; [apply framed_trans with w1; [now constructor|exact Hf]|].
    destruct o as [|m]; destruct Hcase as [-> Hs];
      unfold committedItems, droppedItems, recordSolved; cbn.
    + repeat split; try lia. congruence.
    + destruct (MAX_RETRIES <=? retries x); cbn; repeat split; try lia;
        congruence.
  - exists counts, w1, []. split; [reflexivity|].
    destruct Hq as [? ? ? Hsv Hqueue ? ? ? Hatt Htk].
    unfold ledger. rewrite app_nil_r. cbn.
    repeat split; try lia; try congruence.
Qed.

Lemma processItems_ledger st mp items counts w :
  exists counts' w' news,
    processItems env st mp items counts w = (Ok counts', w')
    /\ ledger mp counts counts' w w' news.
Proof.
  revert counts w. induction items as [|x items IH]; intros counts w.
  - exists counts, w, []. split; [reflexivity|]. unfold ledger.
    rewrite app_nil_r. cbn. repeat split; try lia.
  - cbn [processItems]. rewrite bind_run.
    destruct (processOne_ledger st mp counts x w) as (c1 & w1 & n1 & R1 & L1).
    rewrite R1.
    destruct (IH c1 w1) as (c2 & w2 & n2 & R2 & L2).
    exists c2, w2, (n1 ++ n2). split; [exact R2|].
    exact (ledger_trans _ _ _ _ _ _ _ _ _ L1 L2).
Qed.

End Ledger.

Section PassLedger.

Variable env : Env.

Lemma skipn_exact {A} (l k : list A) : skipn (length l) (l ++ k) = k.
Proof. induction l as [|a l IH]; [reflexivity|exact IH]. Qed.

Lemma finishPass_ledger st mp counts w :
  exists w',
    finishPass env st mp counts w = (Ok tt, w')
    /\ attempts w' = attempts w /\ solved w' = solved w
    /\ settings w' = settings w /\ token w' = token w
    /\ mapping w' = mapping w /\ timers w' = timers w
    /\ isProcessing w' = isProcessing w
    /\ (ticks w <= ticks w')%nat
    /\ if 0 <? fst counts
       then exists k, (ticks w <= k < ticks w')%nat
                      /\ lastSync w' = Some (clock env k)
       else lastSync w' = lastSync w.
Proof.
  unfold finishPass. destruct (0 <? fst counts).
  - unfold getProgress, setLastSync, logger_success. rewrite bind_run.
    unfold storageGet at 1. rewrite bind_run.
    pose proof (Quiet_syncProgressFiles env st
                  (solved (set_ops (ops w ++ [OpGet KProgress]) w)) mp
                  (set_ops (ops w ++ [OpGet KProgress]) w)) as Hq.
    destruct (NoThrow_syncProgressFiles env st
                (solved (set_ops (ops w ++ [OpGet KProgress]) w)) mp
                (set_ops (ops w ++ [OpGet KProgress]) w)) as [b Hb].
    destruct (syncProgressFiles env st _ _ _) as [r w1]. cbn [fst snd] in *.
    subst r. unfold_monad. rewrite addLog_run. eexists. split; [reflexivity|].
    destruct Hq as [? ? ? ? ? ? ? ? ? Htk]. cbn in *.
    repeat (split; [assumption || lia|]).
    exists (ticks w1). split; [lia|reflexivity].
  - exists w. repeat split; lia.
Qed.

(** One call of [processQueue], by its attempts. *)
Lemma processQueue_ledger w :
  exists news w',
    processQueue env w = (Ok tt, w')
    /\ attempts w' = attempts w ++ news
    /\ solved w' = recordSolved (mapping w) (solved w) (committedItems news)
    /\ settings w' = settings w /\ token w' = token w
    /\ mapping w' = mapping w /\ timers w' = timers w
    /\ isProcessing w' = isProcessing w
    /\ (ticks w <= ticks w')%nat
    /\ match committedItems news with
       | [] => lastSync w' = lastSync w
       | _ :: _ => exists k, (ticks w <= k < ticks w')%nat
                             /\ lastSync w' = Some (clock env k)
       end.
Proof.
  unfold processQueue. rewrite bind_run. unfold gets.
  destruct (isProcessing w) eqn:Hflag.
  - unfold logger_info. rewrite addLog_run.
    exists []. eexists. split; [reflexivity|]. cbn. rewrite app_nil_r.
    repeat split; solve [reflexivity | lia | auto].
  - rewrite bind_run. unfold modify, try_finally, processPass.
    rewrite bind_run. unfold getQueue, storageGet at 1.
    cbn [queue set_isProcessing].
    destruct (bool_decide (length (queue w) = 0%nat)).
    { exists []. eexists. split; [reflexivity|]. cbn. rewrite app_nil_r.
      repeat split; solve [reflexivity | lia | auto]. }
    rewrite bind_run. unfold getSettings, storageGet at 1.
    rewrite bind_run. unfold getToken, storageGet at 1.
    rewrite bind_run. unfold getMapping, storageGet at 1.
    destruct (negb _ || negb _).
    { unfold logger_warn. rewrite addLog_run.
      exists []. eexists. split; [reflexivity|]. cbn. rewrite app_nil_r.
      repeat split; solve [reflexivity | lia | auto]. }
    unfold logger_info. rewrite bind_run, addLog_run.
    rewrite bind_run. unfold getProgress, storageGet at 1.
    rewrite bind_run.
    match goal with
    | |- context [processItems env ?st ?mp ?q ?c ?w0] =>
        destruct (processItems_ledger env st mp q c w0)
          as (counts & w2 & news & Hrun & Ha & Hf & Hp & He & Hs);
        destruct (processItems_turns env st mp q c w0)
          as (counts_ & w2_ & Hrun_ & Hturns);
        rewrite Hrun in Hrun_; injection Hrun_ as <- <-;
        pose proof (runTurns_ticks env _ _ _ Hturns) as Htk2;
        rewrite Hrun
    end.
    match goal with
    | |- context [finishPass env ?st ?mp counts w2] =>
        destruct (finishPass_ledger st mp counts w2)
          as (w3 & Hfin & Fa & Fs & Fst & Ftok & Fmp & Ftm & Fip & Ftk & Fls)
    end.
    cbn [settings set_ops set_isProcessing] in *. rewrite Hfin.
    exists news. eexists. split; [reflexivity|].
    destruct Hf as [Gst Gtok Gmp Gls Gip Gtm]. cbn in *.
    split; [congruence|]. split; [congruence|].
    split; [congruence|]. split; [congruence|]. split; [congruence|].
    split; [congruence|]. split; [reflexivity|]. split; [lia|].
    destruct (committedItems news) as [|c cs]; cbn [length] in Hp.
    + replace (0 <? fst counts) with false in Fls by (symmetry; apply Z.ltb_ge; lia).
      congruence.
    + replace (0 <? fst counts) with true in Fls by (symmetry; apply Z.ltb_lt; lia).
      destruct Fls as (k & Hk & Hl). exists k. split; [lia|exact Hl].
Qed.

Lemma attemptsOf_news w news w' :
  processQueue env w = (Ok tt, w') -> attempts w' = attempts w ++ news ->
  attemptsOf env w = news.
Proof.
  intros R A. unfold attemptsOf, exec. rewrite R. cbn [snd].
  rewrite A. apply skipn_exact.
Qed.

Lemma recordSolved_other mp sv items k :
  Forall (fun x => slug x <> k) items ->
  recordSolved mp sv items !! k = sv !! k.
Proof.
  unfold recordSolved. revert sv.
  induction items as [|x items IH]; intros sv H; [reflexivity|].
  apply Forall_cons in H as [Hx H]. cbn [fold_left]. rewrite IH by exact H.
  now apply assign_other.
Qed.

Lemma recordSolved_app mp sv l1 l2 :
  recordSolved mp sv (l1 ++ l2) = recordSolved mp (recordSolved mp sv l1) l2.
Proof. unfold recordSolved. apply fold_left_app. Qed.

Lemma recordSolved_cons mp sv x l :
  recordSolved mp sv (x :: l)
  = recordSolved mp (assign (slug x) (solvedEntryOf x mp) sv) l.
Proof. reflexivity. Qed.

(** Nothing is ever stored under "__proto__" that was not there. *)
Lemma recordSolved_proto mp sv items :
  sv !! protoKey = None -> recordSolved mp sv items !! protoKey = None.
Proof.
  unfold recordSolved. revert sv.
  induction items as [|x items IH]; intros sv H; [exact H|].
  cbn [fold_left]. apply IH.
  destruct (decide (slug x = protoKey)) as [E|E].
  - rewrite E. now rewrite assign_proto_absent.
  - now rewrite assign_other.
Qed.

Lemma recordSolved_keeps mp sv items k :
  is_Some (sv !! k) -> is_Some (recordSolved mp sv items !! k).
Proof.
  unfold recordSolved. revert sv.
  induction items as [|y l IH]; intros sv H; [exact H|].
  cbn [fold_left]. apply IH. destruct (decide (slug y = k)) as [<-|E].
  - rewrite assign_stored by now right. eauto.
  - now rewrite assign_other.
Qed.

Lemma recordSolved_last mp sv l1 x l2 :
  slug x <> protoKey \/ is_Some (sv !! slug x) ->
  Forall (fun y => slug y <> slug x) l2 ->
  recordSolved mp sv (l1 ++ x :: l2) !! slug x = Some (solvedEntryOf x mp).
Proof.
  intros Hk H. rewrite recordSolved_app, recordSolved_cons.
  rewrite recordSolved_other by exact H.
  apply assign_stored. destruct Hk as [Hk|Hk]; [now left|].
  right. now apply recordSolved_keeps.
Qed.

End PassLedger.

Section Committed.

Variable env : Env.

Lemma runTurns_committed items w w' :
  runTurns env items w w' -> List.NoDup (List.map id (queue w)) ->
  forall new, attempts w' = attempts w ++ new ->
  forall x, In (x, Committed) new -> ~ In (id x) (List.map id (queue w')).
Proof.
  induction 1 as [w|x items w w1 w2 Hturn Htk Hrest IH]; intros Hnd new Hnew y Hy.
  - rewrite <- (app_nil_r (attempts w)) in Hnew at 1.
    apply app_inv_head in Hnew. subst new. destruct Hy.
  - destruct (turn_effect env x w w1 Hturn Hnd) as (Hnd1 & _ & Hsub1).
    destruct (runTurns_attempts env items w1 w2 Hrest) as (new2 & Hnew2 & _).
    destruct (runTurns_frame env items w1 w2 Hrest Hnd1) as (_ & _ & Hsub2).
    assert (Hown : exists own,
              new = own ++ new2
              /\ forall y, In (y, Committed) own ->
                    y = x /\ queue w1 = withoutId (id x) (queue w)).
    { destruct Hturn as [_ Ha _|Hq Ha|m _ _ Ha _|m k _ _ _ Ha _].
      - exists []. split; [|intros ? []].
        rewrite Hnew2, Ha in Hnew. now apply app_inv_head in Hnew.
      - exists [(x, Committed)]. split.
        + rewrite Hnew2, Ha, <- app_assoc in Hnew.
          now apply app_inv_head in Hnew.
        + intros z [[= <-]|[]]. now split.
      - exists [(x, Failed m)]. split.
        + rewrite Hnew2, Ha, <- app_assoc in Hnew.
          now apply app_inv_head in Hnew.
        + intros z [[=]|[]].
      - exists [(x, Failed m)]. split.
        + rewrite Hnew2, Ha, <- app_assoc in Hnew.
          now apply app_inv_head in Hnew.
        + intros z [[=]|[]]. }
    destruct Hown as (own & -> & Hown).
    apply in_app_or in Hy as [Hy|Hy].
    + destruct (Hown y Hy) as [-> Hq]. intros Hin. apply Hsub2 in Hin.
      rewrite Hq in Hin.
      unfold withoutId in Hin. apply in_map_iff in Hin as (z & Hz & Hin).
      apply List.filter_In in Hin as [_ Hin].
      unfold Js.eqb in Hin. rewrite bool_decide_eq_true_2 in Hin by exact Hz.
      discriminate.
    + exact (IH Hnd1 new2 Hnew2 y Hy).
Qed.

Lemma recordSolved_some mp sv items x :
  In x items ->
  slug x <> protoKey \/ is_Some (sv !! slug x) ->
  exists y, In y items /\ slug y = slug x
            /\ recordSolved mp sv items !! slug x = Some (solvedEntryOf y mp).
Proof.
  intros Hx Hk. induction items as [|z items IH] using rev_ind;
    [destruct Hx|].
  rewrite recordSolved_app, recordSolved_cons. cbn [recordSolved fold_left].
  destruct (decide (slug z = slug x)) as [E|E].
  - exists z. split; [apply in_or_app; right; now left|].
    split; [exact E|]. rewrite <- E. apply assign_stored.
    rewrite E. destruct Hk as [Hk|Hk]; [now left|].
    right. now apply recordSolved_keeps.
  - apply in_app_or in Hx as [Hx|[->|[]]]; [|congruence].
    destruct (IH Hx) as (y & Hy & Es & Hl). exists y.
    split; [apply in_or_app; now left|]. split; [exact Es|].
    rewrite assign_other by (intros F; now apply E). exact Hl.
Qed.

Lemma committedItems_In l x :
  In x (committedItems l) <-> In (x, Committed) l.
Proof.
  unfold committedItems. rewrite in_map_iff. split.
  - intros ([y o] & <- & H). apply List.filter_In in H as [H Ho].
    destruct o; [exact H|discriminate].
  - intros H. exists (x, Committed). split; [reflexivity|].
    apply List.filter_In. now split.
Qed.

Lemma pass_committed w x :
  List.NoDup (List.map id (queue w)) ->
  In (x, Committed) (attemptsOf env w) ->
  ~ In (id x) (List.map id (queue (exec (processQueue env) w))).
Proof.
  unfold attemptsOf, exec. intros Hnd.
  destruct (processQueue_turns env w)
    as (items & w1 & w2 & w' & Hrun & _ & Hs1 & Hturns & Hs2).
  rewrite Hrun. cbn [snd].
  destruct Hs1 as (Hq1 & Ha1 & _). destruct Hs2 as (Hq2 & Ha2 & _).
  destruct (runTurns_attempts _ _ _ _ Hturns) as (new & Hnew & _).
  rewrite Ha2, Hnew, Ha1, List.skipn_app, List.skipn_all, Nat.sub_diag.
  cbn [skipn app]. intros Hx. rewrite Hq2.
  assert (Hnd1 : List.NoDup (List.map id (queue w1))) by now rewrite Hq1.
  exact (runTurns_committed _ _ _ Hturns Hnd1 new Hnew x Hx).
Qed.

End Committed.

Lemma pass_records_last_commit (env : Env) (w : World) l1 x l2 :
  committedItems (attemptsOf env w) = l1 ++ x :: l2 ->
  Forall (fun y => slug y <> slug x) l2 ->
  slug x <> protoKey \/ is_Some (solved w !! slug x) ->
  solved (exec (processQueue env) w) !! slug x
  = Some (solvedEntryOf x (mapping w)).
Proof.
  intros E Hl2 Hk.
  destruct (processQueue_ledger env w) as (news & w1 & R & A & S & _).
  rewrite (attemptsOf_news env w news w1 R A) in E.
  unfold exec. rewrite R. cbn [snd]. rewrite S, E.
  now apply recordSolved_last.
Qed.

Lemma pass_records_no_proto (env : Env) (w : World) :
  solved w !! protoKey = None ->
  solved (exec (processQueue env) w) !! protoKey = None.
Proof.
  intros H.
  destruct (processQueue_ledger env w) as (news & w1 & R & A & S & _).
  unfold exec. rewrite R. cbn [snd]. rewrite S.
  now apply recordSolved_proto.
Qed.

(** X15. The solved-set after a call of [processQueue] is the one before
    with [progress[slug] = entry] done for each item the pass committed,
    in the order of the commits.  A slug none of them has keeps its entry
    (or has none).  The slug of a committed item carries the entry of the
    last commit for it: the title and the language of the item, category,
    list and difficulty of the item or else of the catalog, [solvedAt]
    the [at] of the item and [sha256] the SHA-256 of its slug, language
    and code put together.  The exception is the slug "__proto__": the
    assignment then sets the prototype, and no entry is stored unless one
    was there before. *)
Theorem pass_records_commits (env : Env) (w : World) :
  let w' := exec (processQueue env) w in
  let done := committedItems (attemptsOf env w) in
  solved w'
  = fold_left
      (fun sv x =>
         if Js.eqb (slug x) (lit "__proto__")
            && negb (bool_decide (is_Some (sv !! slug x)))
         then sv
         else <[slug x := solvedEntryOf x (mapping w)]> sv)
      done (solved w)
  /\ (forall k, Forall (fun x => slug x <> k) done ->
      solved w' !! k = solved w !! k)
  /\ (forall l1 x l2, done = l1 ++ x :: l2 ->
      Forall (fun y => slug y <> slug x) l2 ->
      slug x <> lit "__proto__" \/ is_Some (solved w !! slug x) ->
      solved w' !! slug x
      = Some {| se_title := title x;
                se_category :=
                  or_else (category x)
                    (entries (mapping w) !! slug x ≫= me_category);
                se_listName :=
                  or_else (listName x)
                    (entries (mapping w) !! slug x ≫= me_listName);
                se_difficulty :=
                  or_else (difficulty x)
                    (entries (mapping w) !! slug x ≫= me_difficulty);
                se_language := language x;
                solvedAt := at_ x;
                se_sha256 := Some (sha256 (slug x ++ language x ++ code x)) |})
  /\ (solved w !! lit "__proto__" = None ->
      solved w' !! lit "__proto__" = None).
Proof.
  intros w' done.
  destruct (processQueue_ledger env w) as (news & w1 & R & A & S & _).
  assert (E : done = committedItems news)
    by (unfold done; now rewrite (attemptsOf_news env w news w1 R A)).
  assert (Ew : w' = w1) by (unfold w', exec; now rewrite R).
  rewrite Ew, E. split; [exact S|]. rewrite S. split; [|split].
  - intros k Hk. now apply recordSolved_other.
  - intros l1 x l2 -> Hl2 Hk. now apply recordSolved_last.
  - apply recordSolved_proto.
Qed.

(** X16. [processQueue] never throws and leaves the single-flight flag as
    it found it (a pass that ran has reset it), and it touches neither
    settings, token, catalog nor timers.  The time of the last sync is set,
    to a reading of the clock during the call, exactly when the pass
    committed at least one item; otherwise it is unchanged. *)
Theorem last_sync_follows_commits (env : Env) (w : World) :
  let w' := exec (processQueue env) w in
  result (processQueue env) w = Ok tt
  /\ isProcessing w' = isProcessing w
  /\ settings w' = settings w /\ token w' = token w
  /\ mapping w' = mapping w /\ timers w' = timers w
  /\ match committedItems (attemptsOf env w) with
     | [] => lastSync w' = lastSync w
     | _ :: _ => exists k, (ticks w <= k < ticks w')%nat
                           /\ lastSync w' = Some (clock env k)
     end.
Proof.
  intros w'.
  destruct (processQueue_ledger env w)
    as (news & w1 & R & A & _ & Hst & Htok & Hmp & Htm & Hip & _ & Hls).
  rewrite (attemptsOf_news env w news w1 R A).
  assert (Ew : w' = w1) by (unfold w', exec; now rewrite R).
  unfold result. rewrite Ew, R. cbn [fst]. now repeat split.
Qed.

(** X17. An item a pass commits was in the queue and is not in the queue
    after the pass, and the solved-set then has an entry for its slug,
    written by a commit of this pass: it has the title, the language and
    the [at] of an item with that slug the pass committed, and the
    SHA-256 of that item's slug, language and code.  For the slug
    "__proto__" there is such an entry only when one was stored before;
    otherwise none is stored.  Queue identifiers are unique, as
    generated. *)
Theorem committed_items_leave_the_queue (env : Env) (w : World)
    (x : QueueItem) :
  List.NoDup (List.map id (queue w)) ->
  In (x, Committed) (attemptsOf env w) ->
  let w' := exec (processQueue env) w in
  In x (queue w)
  /\ ~ In (id x) (List.map id (queue w'))
  /\ (slug x <> lit "__proto__" \/ is_Some (solved w !! slug x) ->
      exists y e,
        In (y, Committed) (attemptsOf env w) /\ slug y = slug x
        /\ solved w' !! slug x = Some e
        /\ se_title e = title y /\ se_language e = language y
        /\ solvedAt e = at_ y
        /\ se_sha256 e = Some (sha256 (slug y ++ language y ++ code y)))
  /\ (slug x = lit "__proto__" -> solved w !! slug x = None ->
      solved w' !! slug x = None).
Proof.
  intros Hnd Hx w'.
  split; [exact (attempted_items_are_queued env w x _ Hx)|].
  split; [exact (pass_committed env w x Hnd Hx)|].
  destruct (processQueue_ledger env w) as (news & w1 & R & A & S & _).
  assert (Ew : w' = w1) by (unfold w', exec; now rewrite R).
  rewrite (attemptsOf_news env w news w1 R A) in *. rewrite Ew, S.
  apply committedItems_In in Hx. split.
  - intros Hk.
    destruct (recordSolved_some (mapping w) (solved w) _ x Hx Hk)
      as (y & Hy & Es & Hl).
    exists y, (solvedEntryOf y (mapping w)).
    split; [now apply committedItems_In|]. now repeat split.
  - intros Hs Hn. rewrite Hs in Hn |- *. now apply recordSolved_proto.
Qed.


(** X18. After a pass has committed item [x], a submission of the same
    slug, language and code is refused as a recent duplicate exactly while
    the clock is less than 60000 ms past [x.at], the time the item was
    queued, not the time of the commit (unless an item with that
    fingerprint is queued).  An item that waited a minute in the queue can
    be submitted and committed again straight after its commit.  For the
    slug "__proto__" the commit stores no entry, unless one was stored
    before the pass, and the submission is never a recent duplicate. *)
Theorem resubmission_window (env : Env) (w : World) (x : QueueItem)
    (s : Submission) (l1 l2 : list QueueItem) :
  committedItems (attemptsOf env w) = l1 ++ x :: l2 ->
  Forall (fun y => slug y <> slug x) l2 ->
  sub_slug s = slug x -> sub_language s = language x -> sub_code s = code x ->
  let w' := exec (processQueue env) w in
  let stored :=
    negb (Js.eqb (slug x) (lit "__proto__"))
    || bool_decide (is_Some (solved w !! slug x)) in
  result (enqueueSubmission env s) w'
  = Ok (negb (stored && (clock env (ticks w') - at_ x <? 60000)
              || queuedSame s (queue w'))).
Proof.
  intros Hdone Hl2 Es El Ec w' stored.
  pose proof (enqueueSubmission_queue env s w') as H. cbv zeta in H.
  assert (R : recentlySolved s w' (clock env (ticks w'))
              = stored && (clock env (ticks w') - at_ x <? 60000)).
  { unfold recentlySolved. rewrite Es. subst stored.
    destruct (negb _ || _) eqn:Hstored.
    - assert (Hk : slug x <> protoKey \/ is_Some (solved w !! slug x)).
      { apply orb_true_iff in Hstored as [Hs|Hs].
        - left. intros F. unfold Js.eqb in Hs.
          rewrite bool_decide_eq_true_2 in Hs by exact F. discriminate.
        - right. now apply bool_decide_eq_true_1 in Hs. }
      pose proof (pass_records_last_commit env w l1 x l2 Hdone Hl2 Hk)
        as Hsolved.
      fold w' in Hsolved. rewrite Hsolved.
      cbn [se_sha256 solvedEntryOf solvedAt andb].
      rewrite El, Ec. now rewrite bool_decide_eq_true_2 by reflexivity.
    - apply orb_false_iff in Hstored as [Hs Hn].
      apply negb_false_iff in Hs. apply eqb_id_true in Hs.
      apply bool_decide_eq_false_1 in Hn.
      assert (Hnone : solved w !! protoKey = None).
      { unfold protoKey. rewrite <- Hs.
        destruct (solved w !! slug x); [|reflexivity].
        exfalso. apply Hn. eauto. }
      pose proof (pass_records_no_proto env w Hnone) as Hp.
      fold w' in Hp. rewrite Hs. unfold protoKey in Hp. now rewrite Hp. }
  rewrite R in H. clearbody stored.
  destruct (stored && _ || _); cbn [negb]; tauto.
Qed.


(** The item was queued at 1700000000000 and is committed 100 s later: the
    same solution, submitted again after the commit, is queued again. *)
Example resubmitted_after_a_late_commit :
  let env := steadyEnv 1700000100000 1 accepting in
  let w1 := exec (processQueue env) oneItemWorld in
  queue w1 = []
  /\ result (enqueueSubmission env (submit "python" "def f():pass")) w1
     = Ok true.
Proof. vm_compute. split; reflexivity. Qed.

(** ** The service worker: message handlers *)

Section Handlers.

Variable env : Env.

Lemma submissionOf_language payload :
  truthy (sub_language (submissionOf payload)) = true.
Proof.
  unfold submissionOf. cbn [sub_language].
  destruct (p_language payload) as [[|c l]|]; reflexivity.
Qed.

Lemma handleSubmission_run payload w :
  let w1 :=
    logged env LInfo (lit "Submission received: " ++ p_title payload)
      (Some (lit "Language: " ++ template (p_language payload)
             ++ lit ", Source: " ++ sourceName (p_source payload))) w in
  handleSubmission env payload w
  = if otruthy (p_code payload)
    then enqueueSubmission env (submissionOf payload) w1
    else (Ok false,
          logged env LWarn (lit "Submission has no code, skipping") None w1).
Proof.
  intros w1. unfold handleSubmission. rewrite bind_run.
  unfold logger_info at 1. rewrite addLog_run. fold w1.
  destruct (otruthy (p_code payload)); cbn [negb]; [reflexivity|].
  rewrite bind_run. unfold logger_warn. now rewrite addLog_run.
Qed.

End Handlers.

(** X19. [handleSubmission] never throws and queues only submissions with
    code: without code it answers [success: false]; when it answers
    [success: true] exactly one item has been appended to the queue, with
    the code of the payload (not empty), a language that is not empty
    ("unknown" when the payload has none), no retries and no attempt
    recorded, and one timer of 100 ms has been set; otherwise queue and
    timers are untouched. *)
Theorem handleSubmission_queues_only_code (env : Env)
    (payload : SubmissionPayload) (w : World) :
  let w' := exec (handleSubmission env payload) w in
  exists answer,
    result (handleSubmission env payload) w = Ok answer
    /\ (otruthy (p_code payload) = false -> answer = false)
    /\ if answer : bool then
         exists item,
           queue w' = queue w ++ [item]
           /\ p_code payload = Some (code item)
           /\ truthy (code item) = true
           /\ truthy (language item) = true
           /\ retries item = 0 /\ lastAttempt item = None
           /\ timers w' = timers w ++ [100]
       else queue w' = queue w /\ timers w' = timers w.
Proof.
  intros w'. subst w'. unfold exec, result.
  pose proof (handleSubmission_run env payload w) as E. cbv zeta in E.
  rewrite E. clear E. set (w1 := logged env LInfo _ _ w).
  destruct (otruthy (p_code payload)) eqn:Hcode.
  - pose proof (enqueueSubmission_queue env (submissionOf payload) w1) as H.
    cbv zeta in H. unfold exec, result in H.
    destruct (recentlySolved _ _ _ || queuedSame _ _).
    + destruct H as (R & Hq & Ht). exists false.
      split; [exact R|]. split; [reflexivity|]. now rewrite Hq, Ht.
    + destruct H as (R & (at' & i & Hq) & Ht). exists true.
      split; [exact R|]. split; [discriminate|].
      exists (newItem (submissionOf payload) (mapping w1) at' i).
      split; [exact Hq|]. cbn [newItem code language retries lastAttempt].
      split; [|split; [|split; [apply submissionOf_language|]]].
      * unfold submissionOf. cbn [sub_code].
        destruct (p_code payload); [reflexivity|discriminate].
      * unfold submissionOf. cbn [sub_code].
        destruct (p_code payload); [exact Hcode|discriminate].
      * now rewrite Ht.
  - exists false. cbn. now repeat split.
Qed.

Example submission_without_code :
  let payload :=
    {| p_slug := lit "two-sum"; p_title := lit "Two Sum";
       p_category := None; p_listName := None; p_difficulty := None;
       p_language := Some (lit "python"); p_code := Some (lit "");
       p_meta := None; p_source := SrcIntercept; p_at := 1700000000000 |} in
  let w' := exec (handleSubmission (steadyEnv 1700000000000 1 unreachable)
                    payload) configuredWorld in
  queue w' = [] /\ timers w' = []
  /\ List.map le_message (storedLogs w')
     = [lit "Submission has no code, skipping";
        lit "Submission received: Two Sum"].
Proof. vm_compute. repeat split. Qed.

Section MergeTwice.

Lemma or_else_twice (a b : option jsstring) :
  or_else a (or_else a b) = or_else a b.
Proof. unfold or_else. now destruct (otruthy a). Qed.

Lemma uniq_known (seen l : list jsstring) (u : jsstring) :
  u ∈ l \/ u ∈ seen -> List.NoDup l -> (forall x, x ∈ l -> x ∉ seen) ->
  uniq seen (l ++ [u]) = l.
Proof.
  revert seen. induction l as [|x l IH]; intros seen Hu Hnd Hdis.
  - destruct Hu as [Hu|Hu]; [now apply elem_of_nil in Hu|].
    simpl. now rewrite bool_decide_eq_true_2.
  - inversion Hnd as [|? ? Hx Hnd']; subst. simpl.
    rewrite bool_decide_eq_false_2 by (apply Hdis; now left).
    f_equal. apply IH; [|exact Hnd'|].
    + rewrite elem_of_cons in Hu. rewrite elem_of_cons. tauto.
    + intros y Hy. rewrite elem_of_cons. intros [->|Hs].
      * apply Hx. now apply list_elem_of_In.
      * apply (Hdis y); [now right|exact Hs].
Qed.

Lemma mergeEntry_twice (o : option MappingEntry) (e : IncomingEntry) :
  mergeEntry (Some (mergeEntry o e)) e = mergeEntry o e.
Proof.
  unfold mergeEntry at 1 3. cbn [mbind option_bind]. f_equal.
  - apply or_else_twice.
  - apply or_else_twice.
  - apply or_else_twice.
  - apply or_else_twice.
  - cbn [me_sources mergeEntry default]. f_equal.
    destruct (uniq_spec [] (default [] (o ≫= me_sources) ++ [sourceUrl e]))
      as [Hin Hnd].
    apply uniq_known; [left|exact Hnd|intros x _; apply not_elem_of_nil].
    apply Hin. split; [|apply not_elem_of_nil].
    apply elem_of_app. right. now left.
Qed.

Lemma mergeEntries_twice (l : list (jsstring * IncomingEntry))
    (m : gmap jsstring MappingEntry) :
  List.NoDup (List.map fst l) ->
  mergeEntries l (mergeEntries l m) = mergeEntries l m.
Proof.
  intros Hnd. apply map_eq. intros k.
  destruct (decide (k ∈ List.map fst l)) as [Hk|Hk].
  - apply list_elem_of_In, in_map_iff in Hk as ([k' e] & <- & Hin).
    cbn [fst].
    assert (Hc : (k' = protoKey /\ m !! k' = None)
                 \/ (k' <> protoKey \/ is_Some (m !! k'))).
    { destruct (decide (k' = protoKey)) as [E|E]; [|now right; left].
      destruct (m !! k') eqn:F; [right; right; eauto|now left]. }
    destruct Hc as [[-> Hn]|Hc].
    + rewrite (mergeEntries_proto l _ (mergeEntries_proto l m Hn)).
      now rewrite (mergeEntries_proto l m Hn).
    + pose proof (mergeEntries_named l m k' e Hnd Hin Hc) as H1.
      rewrite (mergeEntries_named l _ k' e Hnd Hin)
        by (right; rewrite H1; eauto).
      rewrite H1. f_equal. apply mergeEntry_twice.
  - now rewrite !mergeEntries_other by exact Hk.
Qed.

Lemma transformedEntries_NoDup (l : list (jsstring * IncomingEntry)) :
  List.NoDup (List.map fst l) ->
  List.NoDup (List.map fst (transformedEntries l)).
Proof.
  unfold transformedEntries. induction l as [|[k e] l IH]; intros H;
    [constructor|].
  inversion H as [|? ? Hk Hl]; subst. cbn [List.filter fst].
  destruct (negb _); [|now apply IH]. cbn [List.map fst].
  constructor; [|now apply IH]. intros Hin. apply Hk.
  apply in_map_iff in Hin as (p & Ep & Hp).
  apply List.filter_In in Hp as [Hp _]. apply in_map_iff. eauto.
Qed.

Lemma transformedEntries_In (l : list (jsstring * IncomingEntry)) k e :
  In (k, e) (transformedEntries l) <-> In (k, e) l /\ k <> protoKey.
Proof.
  unfold transformedEntries. rewrite List.filter_In. cbn [fst].
  rewrite negb_true_iff. unfold Js.eqb. now rewrite bool_decide_eq_false.
Qed.

Lemma handleMappingMerge_entries env (l : list (jsstring * IncomingEntry)) w :
  entries (mapping (exec (handleMappingMerge env l) w))
  = mergeEntries (transformedEntries l) (entries (mapping w))
  /\ result (handleMappingMerge env l) w = Ok (true, Z.of_nat (length l)).
Proof.
  unfold exec, result, handleMappingMerge. cbv zeta.
  destruct l as [|p l]; [split; reflexivity|].
  replace (Z.of_nat (length (p :: l)) =? 0) with false
    by (symmetry; apply Z.eqb_neq; simpl length; lia).
  rewrite bind_run.
  pose proof (mergeMapping_entries env (transformedEntries (p :: l)) w) as E.
  unfold exec in E.
  destruct (mergeMapping env (transformedEntries (p :: l)) w)
    as [[u|e] w1] eqn:R.
  - rewrite bind_run. unfold logger_info. rewrite addLog_run.
    cbn [fst snd logged mapping] in *. split; [exact E|reflexivity].
  - exfalso. unfold mergeMapping, getMapping, saveMapping in R.
    unfold_monad. discriminate.
Qed.

End MergeTwice.

(** X20. Handling the same catalog event a second time changes no entry
    of the catalog: [mergeMapping] is idempotent on the entries (the
    incoming values have already won, the source URL is already listed),
    only [updatedAt] and the log move.  The answer counts the entries of
    the event, an entry under "__proto__" included; that entry is not
    merged: the handler assigns it to an object, which sets the
    prototype.  Every other slug of the event gets its merged entry, and
    a slug that is not in the event, or is "__proto__", keeps what it
    had. *)
Theorem catalog_merge_is_idempotent (env : Env)
    (entries' : list (jsstring * IncomingEntry)) (w : World) :
  List.NoDup (List.map fst entries') ->
  let w1 := exec (handleMappingMerge env entries') w in
  let w2 := exec (handleMappingMerge env entries') w1 in
  result (handleMappingMerge env entries') w
  = Ok (true, Z.of_nat (length entries'))
  /\ entries (mapping w1)
     = mergeEntries
         (List.filter (fun e => negb (Js.eqb (fst e) (lit "__proto__")))
            entries')
         (entries (mapping w))
  /\ (forall k e, In (k, e) entries' -> k <> lit "__proto__" ->
      entries (mapping w1) !! k
      = Some
          {| me_title :=
               or_else (in_title e) (entries (mapping w) !! k ≫= me_title);
             me_category :=
               or_else (in_category e)
                 (entries (mapping w) !! k ≫= me_category);
             me_listName :=
               or_else (in_listName e)
                 (entries (mapping w) !! k ≫= me_listName);
             me_difficulty :=
               or_else (in_difficulty e)
                 (entries (mapping w) !! k ≫= me_difficulty);
             me_sources :=
               Some (uniq []
                       (default [] (entries (mapping w) !! k ≫= me_sources)
                        ++ [sourceUrl e])) |})
  /\ (forall k, k ∉ List.map fst entries' \/ k = lit "__proto__" ->
      entries (mapping w1) !! k = entries (mapping w) !! k)
  /\ entries (mapping w2) = entries (mapping w1).
Proof.
  intros Hnd w1 w2.
  destruct (handleMappingMerge_entries env entries' w) as [E1 R1].
  destruct (handleMappingMerge_entries env entries' w1) as [E2 _].
  fold w1 in E1. fold w2 in E2.
  pose proof (transformedEntries_NoDup entries' Hnd) as Hnd'.
  split; [exact R1|]. split; [exact E1|]. split; [|split].
  - intros k e Hin Hk. rewrite E1.
    apply (mergeEntries_named _ _ k e Hnd');
      [apply transformedEntries_In; now split|now left].
  - intros k Hk. rewrite E1. apply mergeEntries_other.
    rewrite list_elem_of_In, in_map_iff. intros ([k' e] & <- & Hin).
    apply transformedEntries_In in Hin as [Hin Hne]. cbn [fst] in Hk.
    destruct Hk as [Hk|Hk]; [|contradiction].
    apply Hk, list_elem_of_In, in_map_iff. now exists (k', e).
  - rewrite E2, E1. now apply mergeEntries_twice.
Qed.


(** X21. [handleGetState] only reads: it answers with the stored settings,
    the counts of catalog entries, solved problems and queued items, the
    flag, and the newest 50 log entries at most; nothing in storage
    changes, no request is sent, and every storage access is a read. *)
Theorem handleGetState_only_reads (w : World) :
  let w' := exec (handleGetState) w in
  exists view,
    result (handleGetState) w = Ok view
    /\ sv_settings view = settings w
    /\ sv_hasToken view = otruthy (token w)
    /\ sv_mappingCount view = size (entries (mapping w))
    /\ sv_solvedCount view = size (solved w)
    /\ sv_queueCount view = length (queue w)
    /\ sv_isProcessing view = isProcessing w
    /\ sv_logs view
       = firstn 50 (if loggerInitialized w then loggerLogs w else storedLogs w)
    /\ (length (sv_logs view) <= 50)%nat
    /\ quiet w w' /\ storedLogs w' = storedLogs w /\ sent w' = sent w
    /\ exists keys, ops w' = ops w ++ List.map OpGet keys.
Proof.
  intros w'. subst w'.
  unfold exec, result, handleGetState, getSettings, getToken, getMapping,
    getProgress, getQueue, getLastSync, logger_getLogs, logger_init.
  unfold_monad.
  destruct w as [st tok mp sv q ls sl ll li ip tm tk rd sn at' op].
  destruct li; cbn; eexists; (split; [reflexivity|]); cbn;
    (repeat (split; [try reflexivity|])).
  all: try (now destruct (otruthy tok) eqn:E; [rewrite E|]).
  all: try apply firstn_le_length.
  all: try (constructor; cbn; try reflexivity; lia).
  - exists [KSettings; KToken; KMapping; KProgress; KQueue; KLastSync].
    cbn. now rewrite <- !app_assoc.
  - exists [KSettings; KToken; KMapping; KProgress; KQueue; KLastSync; KLogs].
    cbn. now rewrite <- !app_assoc.
Qed.

(** ** storage.ts: the queue by identifier *)

Section Edits.

Lemma updateFirst_absent i f (q : list QueueItem) :
  ~ In i (List.map id q) -> updateFirst i f q = None.
Proof.
  induction q as [|y q IH]; intros H; [reflexivity|]. simpl in *.
  rewrite eqb_id_false by tauto. rewrite IH by tauto. reflexivity.
Qed.

Lemma updateFirst_first i f (q1 : list QueueItem) x q2 :
  id x = i -> ~ In i (List.map id q1) ->
  updateFirst i f (q1 ++ x :: q2) = Some (q1 ++ f x :: q2).
Proof.
  intros Hx. induction q1 as [|y q1 IH]; intros H; simpl in *.
  - unfold Js.eqb. now rewrite bool_decide_eq_true_2.
  - rewrite eqb_id_false by tauto. rewrite IH by tauto. reflexivity.
Qed.

End Edits.

(** X22. [removeFromQueue] removes every item with the identifier and
    nothing else, keeping the order of the others.  [updateQueueItem]
    keeps the identifiers and their order; it rewrites only the first
    item with the identifier, setting its [retries] and [lastAttempt] to
    the given values and changing no other field, and when no item has
    the identifier it writes nothing. *)
Theorem queue_edits_by_identifier (i : jsstring) (retries' lastAttempt' : Z)
    (w : World) :
  let removed := exec (removeFromQueue i) w in
  let updated := exec (updateQueueItem i retries' lastAttempt') w in
  (forall y, In y (queue removed) <-> In y (queue w) /\ id y <> i)
  /\ queue removed
     = List.filter (fun y => negb (bool_decide (id y = i))) (queue w)
  /\ List.map id (queue updated) = List.map id (queue w)
  /\ (~ In i (List.map id (queue w)) ->
      queue updated = queue w /\ ops updated = ops w ++ [OpGet KQueue])
  /\ (forall q1 x q2,
        queue w = q1 ++ x :: q2 -> id x = i -> ~ In i (List.map id q1) ->
        queue updated
        = q1 ++ {| id := id x; slug := slug x; title := title x;
                   category := category x; listName := listName x;
                   difficulty := difficulty x; language := language x;
                   code := code x; meta := meta x; source := source x;
                   at_ := at_ x; retries := retries';
                   lastAttempt := Some lastAttempt' |} :: q2).
Proof.
  intros removed updated. subst removed updated.
  unfold exec, removeFromQueue, updateQueueItem, getQueue, saveQueue.
  unfold_monad. cbn [snd queue set_ops set_queue].
  split; [intros y; apply In_withoutId|]. split; [reflexivity|].
  destruct (updateFirst i (with_retry retries' lastAttempt') (queue w))
    as [q'|] eqn:E; cbn.
  - split; [apply (ids_updateFirst i (with_retry retries' lastAttempt') (queue w) q');
             [reflexivity|exact E]|].
    split.
    + intros H. rewrite updateFirst_absent in E by exact H. discriminate.
    + intros q1 x q2 Hq Hx H1. rewrite Hq in E.
      rewrite updateFirst_first in E by assumption.
      injection E as <-. reflexivity.
  - split; [reflexivity|]. split; [now intros _|].
    intros q1 x q2 Hq Hx H1. rewrite Hq in E.
    rewrite updateFirst_first in E by assumption. discriminate.
Qed.

(** ** The service worker: sync on demand *)

(** The steps of [handleSyncProgressNow]. *)
Lemma handleSyncProgressNow_run (env : Env) (w : World) :
  handleSyncProgressNow env w
  = if negb (otruthy (token w)) || negb (truthy (repoFullName (settings w)))
    then (Ok false,
          logged env LWarn (lit "GitHub not configured") None
            (set_ops (ops w ++ [OpGet KToken; OpGet KSettings]) w))
    else syncProgressFiles env (settings w) (solved w) (mapping w)
           (set_ops (ops w ++ [OpGet KToken; OpGet KSettings;
                               OpGet KProgress; OpGet KMapping]) w).
Proof.
  unfold handleSyncProgressNow, getToken, getSettings, getProgress, getMapping,
    logger_warn.
  destruct w as [st tok mp sv q ls sl ll li ip tm tk rd sn at' op].
  unfold_monad. cbn.
  replace (otruthy (if otruthy tok then tok else None)) with (otruthy tok)
    by (destruct (otruthy tok) eqn:E; [now rewrite E|reflexivity]).
  destruct (negb (otruthy tok) || negb (truthy (repoFullName st))).
  - rewrite addLog_run. cbn. now rewrite <- !app_assoc.
  - f_equal. cbn. now rewrite <- !app_assoc.
Qed.

(** X23. [handleSyncProgressNow] never throws and changes nothing but the
    log and the histories.  Without a token or a repository name it sends
    no request: it logs the warning and answers [success: false]. *)
Theorem sync_now_needs_configuration (env : Env) (w : World) :
  let w' := exec (handleSyncProgressNow env) w in
  exists success,
    result (handleSyncProgressNow env) w = Ok success
    /\ quiet w w'
    /\ (unconfigured w ->
        success = false /\ sent w' = sent w
        /\ head (storedLogs w')
           = Some (entryAt env w LWarn (lit "GitHub not configured") None)).
Proof.
  intros w'. subst w'. unfold exec, result, unconfigured.
  rewrite handleSyncProgressNow_run.
  destruct (negb (otruthy (token w))
            || negb (truthy (repoFullName (settings w)))) eqn:Hcfg.
  - exists false. split; [reflexivity|]. split.
    + cbn. constructor; try reflexivity. cbn. lia.
    + intros _. cbn. repeat split. apply keepNewest_head.
  - match goal with |- context [syncProgressFiles env ?st ?p ?m ?w0] =>
      pose proof (Quiet_syncProgressFiles env st p m w0) as Hq;
      destruct (NoThrow_syncProgressFiles env st p m w0) as [b Hb];
      destruct (syncProgressFiles env st p m w0) as [r w1] end.
    cbn [fst snd] in *. subst r. exists b. split; [reflexivity|].
    split.
    + destruct Hq as [? ? ? ? ? ? ? ? ? ?]. cbn in *. now constructor.
    + intros [H|H]; exfalso; rewrite H in Hcfg.
      * discriminate.
      * rewrite orb_true_r in Hcfg. discriminate.
Qed.

(** ** What a pass asks of GitHub *)

Section Requests.

Variable env : Env.
Variable P : Request -> Prop.









Section OneFile.

Variables (file br : jsstring).
Hypothesis HP : forall method sha,
  P {| rq_method := method; rq_file := file; rq_branch := br; rq_sha := sha |}.




End OneFile.

End Requests.

Section RequestsOfAPass.

Variable env : Env.

Lemma startsWith_app (p s : jsstring) : startsWith p (p ++ s) = true.
Proof. apply startsWith_spec. now exists s. Qed.









End RequestsOfAPass.


(** ** normalize.ts: empty names *)

Section SanitizeEmpty.

Lemma replaceRuns_keeps (p : N -> bool) r b (s : jsstring) c :
  In c s -> p c = false -> In c (replaceRuns p r b s).
Proof.
  revert b. induction s as [|x s IH]; intros b Hin Hc; [destruct Hin|].
  cbn [replaceRuns]. destruct Hin as [->|Hin].
  - rewrite Hc. now left.
  - destruct (p x); [destruct b|]; try right; now apply IH.
Qed.

Lemma dropLeading_keeps (s : jsstring) c :
  In c s -> is_underscore c = false -> In c (dropLeading s).
Proof.
  destruct s as [|x s]; [easy|]. cbn [dropLeading]. intros [->|Hin] Hc.
  - rewrite Hc. now left.
  - destruct (is_underscore x); [exact Hin|now right].
Qed.

Lemma dropTrailing_keeps (s : jsstring) c :
  In c s -> is_underscore c = false -> In c (dropTrailing s).
Proof.
  intros Hin Hc. unfold dropTrailing. apply in_rev.
  rewrite rev_involutive. apply dropLeading_keeps; [|exact Hc].
  now apply in_rev in Hin.
Qed.

Lemma replaceRuns_into (p : N -> bool) (Q : N -> Prop) r b (s : jsstring) :
  Q r -> Forall (fun c => p c = true \/ Q c) s ->
  Forall Q (replaceRuns p r b s).
Proof.
  intros Hr Hs. revert b. induction Hs as [|x s Hx _ IH]; intros b.
  - constructor.
  - cbn [replaceRuns]. destruct (p x) eqn:E; [destruct b|]; auto.
    constructor; [|apply IH]. destruct Hx as [Hx|Hx]; [congruence|exact Hx].
Qed.

Lemma collapse_underscores b (s : jsstring) :
  Forall (fun c => is_underscore c = true) s ->
  replaceRuns is_underscore underscore b s
  = if b then [] else match s with [] => [] | _ => [underscore] end.
Proof.
  intros Hs. revert b. induction Hs as [|x s Hx _ IH]; intros b.
  - now destruct b.
  - cbn [replaceRuns]. rewrite Hx. rewrite (IH true). now destruct b.
Qed.

End SanitizeEmpty.

(** X25. [sanitize] returns the empty string exactly for the names that
    consist of characters it removes, white space and underscores only; a
    name with any other code unit gives a name that is not empty. *)
Theorem sanitize_empty_iff (s : jsstring) :
  sanitize s = [] <-> forallb dropped s = true.
Proof.
  split.
  - intros E. apply forallb_forall. intros c Hc.
    destruct (dropped c) eqn:D; [reflexivity|]. exfalso.
    unfold dropped in D. apply orb_false_iff in D as [D Hu].
    apply orb_false_iff in D as [Hi Hs].
    assert (Hin : In c (sanitizeUncut s)).
    { unfold sanitizeUncut, trimUnderscores.
      apply dropTrailing_keeps; [|exact Hu].
      apply dropLeading_keeps; [|exact Hu].
      apply replaceRuns_keeps; [|exact Hu].
      apply replaceRuns_keeps; [|exact Hs].
      unfold removeUnits. apply List.filter_In. split; [exact Hc|].
      now rewrite Hi. }
    unfold sanitize, substring0 in E. fold (sanitizeUncut s) in E.
    destruct (sanitizeUncut s); [destruct Hin|discriminate].
  - intros H. rewrite forallb_forall in H.
    unfold sanitize, substring0, trimUnderscores.
    rewrite collapse_underscores.
    + now destruct (replaceRuns is_space underscore false _).
    + apply replaceRuns_into; [reflexivity|].
      unfold removeUnits. apply List.Forall_forall. intros c Hc.
      apply List.filter_In in Hc as [Hc Hi]. apply negb_true_iff in Hi.
      specialize (H c Hc). unfold dropped in H. rewrite Hi in H.
      cbn [orb] in H. apply orb_true_iff in H. tauto.
Qed.

(** [buildFilePath] uses such a name as it is: a category "?" gives an
    empty folder name, a title "???" a file name that is only the
    extension. *)
Example empty_names_reach_the_path :
  buildFilePath DEFAULT_SETTINGS (lit "two-sum") (lit "Two Sum") (lit "python")
    (Some {| me_title := None; me_category := Some (lit "?");
             me_listName := None; me_difficulty := None;
             me_sources := None |}) None
  = lit "NeetSync/Problems//Two_Sum.py"
  /\ buildFilePath flatSettings (lit "two-sum") (lit "???") (lit "python")
       None None
     = lit "NeetSync/Problems/.py".
Proof. split; reflexivity. Qed.

(** ** The content scripts: slugs *)

Section Slugs.

Lemma captureRun_exact (delim : N -> bool) (slug' rest : jsstring) :
  forallb (fun c => negb (delim c)) slug' = true ->
  match rest with c :: _ => delim c = true | [] => True end ->
  captureRun delim (slug' ++ rest) = slug'.
Proof.
  intros Hs Hr. induction slug' as [|c s IH]; cbn [app captureRun].
  - destruct rest as [|c r]; [reflexivity|]. cbn [captureRun]. now rewrite Hr.
  - cbn [forallb] in Hs. apply andb_true_iff in Hs as [Hc Hs].
    apply negb_true_iff in Hc. rewrite Hc. now rewrite IH.
Qed.

Lemma matchProblems_sound (delim : N -> bool) (s group : jsstring) :
  matchProblems delim s = Some group ->
  truthy group = true
  /\ forallb (fun c => negb (delim c)) group = true
  /\ infix (lit "/problems/" ++ group) s.
Proof.
  induction s as [|c s IH]; [discriminate|]. cbn [matchProblems].
  assert (Hrec : matchProblems delim s = Some group ->
                 truthy group = true
                 /\ forallb (fun c => negb (delim c)) group = true
                 /\ infix (lit "/problems/" ++ group) (c :: s)).
  { intros H. destruct (IH H) as (H1 & H2 & a & b & ->).
    repeat split; try assumption. now exists (c :: a), b. }
  destruct (startsWith (lit "/problems/") (c :: s)) eqn:Hp; [|exact Hrec].
  apply startsWith_spec in Hp as (t & Ht).
  destruct (captureRun delim (skipn 10 (c :: s))) as [|g gs] eqn:Hg;
    [exact Hrec|].
  intros [= <-]. split; [reflexivity|].
  rewrite Ht in Hg. change (skipn 10 (lit "/problems/" ++ t)) with t in Hg.
  assert (G : forall u v, captureRun delim u = v ->
              forallb (fun c => negb (delim c)) v = true
              /\ exists r, u = v ++ r).
  { induction u as [|x u IHu]; intros v Hv; cbn [captureRun] in Hv.
    - subst v. split; [reflexivity|now exists []].
    - destruct (delim x) eqn:Hx.
      + subst v. split; [reflexivity|now exists (x :: u)].
      + subst v. destruct (IHu _ eq_refl) as (F & r & E).
        split; [cbn [forallb]; now rewrite Hx, F|].
        exists r. cbn [app]. now rewrite <- E. }
  destruct (G t _ Hg) as (F & r & E). split; [exact F|].
  exists [], r. rewrite Ht, E. cbn [app]. now rewrite <- app_assoc.
Qed.

Lemma matchProblems_step (delim : N -> bool) c (s : jsstring) :
  startsWith (lit "/problems/") (c :: s) = false ->
  matchProblems delim (c :: s) = matchProblems delim s.
Proof. intros H. cbn [matchProblems]. now rewrite H. Qed.

Lemma matchProblems_hit (delim : N -> bool) (t : jsstring) :
  truthy (captureRun delim t) = true ->
  matchProblems delim (lit "/problems/" ++ t) = Some (captureRun delim t).
Proof.
  intros H.
  assert (E : exists c r, lit "/problems/" ++ t = c :: r)
    by (do 2 eexists; reflexivity).
  destruct E as (c & r & E).
  pose proof (startsWith_app (lit "/problems/") t) as Hs.
  assert (Hk : skipn 10 (lit "/problems/" ++ t) = t) by reflexivity.
  rewrite E in *. cbn [matchProblems]. rewrite Hs, Hk.
  now destruct (captureRun delim t).
Qed.

End Slugs.

(** X26. What [extractSlug] finds in an address is never empty, holds no
    slash, question mark or hash sign, and stands in the address right
    after "/problems/".  It reads back the slug of every address the
    extension writes: from "https://neetcode.io/problems/" followed by a
    slug without these characters, and then by nothing or by one of them,
    it returns that slug; so does [getSlug] from the path "/problems/"
    followed by the slug. *)
Theorem slug_reads_back :
  (forall href group,
     extractSlug href = Some group ->
     truthy group = true
     /\ forallb (fun c => negb (isDelimiter c)) group = true
     /\ infix (lit "/problems/" ++ group) href)
  /\ (forall slug' rest,
        truthy slug' = true ->
        forallb (fun c => negb (isDelimiter c)) slug' = true ->
        match rest with c :: _ => isDelimiter c = true | [] => True end ->
        extractSlug (problemUrl slug' ++ rest) = Some slug'
        /\ getSlug (lit "/problems/" ++ slug') = slug').
Proof.
  split; [intros href group; apply matchProblems_sound|].
  intros slug' rest Ht Hs Hr. unfold extractSlug, getSlug, problemUrl.
  assert (Hcap : captureRun isDelimiter (slug' ++ rest) = slug')
    by now apply captureRun_exact.
  assert (Hcap' : captureRun isSlash slug' = slug').
  { rewrite <- (app_nil_r slug') at 1. apply captureRun_exact; [|exact I].
    apply forallb_forall. intros c Hc. rewrite forallb_forall in Hs.
    specialize (Hs c Hc). unfold isDelimiter, isSlash in *.
    apply negb_true_iff in Hs. apply negb_true_iff.
    apply orb_false_iff in Hs as [Hs _]. now apply orb_false_iff in Hs as [Hs _]. }
  split.
  - rewrite <- app_assoc.
    change (lit "https://neetcode.io/problems/")
      with (lit "https://neetcode.io" ++ lit "/problems/").
    rewrite <- app_assoc.
    remember (lit "/problems/" ++ slug' ++ rest) as t eqn:Et.
    vm_compute (lit "https://neetcode.io"). cbn [app].
    destruct slug' as [|c s]; [discriminate|].
    assert (Eh : exists r, t = 47%N :: 112%N :: r)
      by (subst t; eexists; reflexivity).
    destruct Eh as (r & Eh). rewrite Eh.
    repeat (rewrite matchProblems_step by reflexivity).
    rewrite <- Eh, Et. rewrite matchProblems_hit; rewrite Hcap; now try reflexivity.
  - rewrite matchProblems_hit; rewrite Hcap'; [reflexivity|exact Ht].
Qed.

Example extractSlug_demo :
  extractSlug (lit "https://neetcode.io/problems/two-sum?list=neetcode150")
  = Some (lit "two-sum")
  /\ extractSlug (lit "/problems//problems/two-sum") = Some (lit "two-sum")
  /\ extractSlug (lit "https://neetcode.io/roadmap") = None
  /\ getSlug (lit "/practice") = lit "unknown".
Proof. vm_compute. repeat split. Qed.

(** ** progress.ts: the two progress files *)

Section ProgressSync.

Variable env : Env.

Lemma endsInAcceptedPut_cons n file br rq l :
  endsInAcceptedPut env (S n) file br l ->
  endsInAcceptedPut env n file br (rq :: l).
Proof.
  intros (pre & sha & -> & H). exists (rq :: pre), sha.
  split; [reflexivity|]. cbn [length]. now rewrite Nat.add_succ_r.
Qed.

Lemma createOrUpdateFile_run file content br sha0 w :
  exists l,
    sent (snd (createOrUpdateFile env file content br sha0 w)) = sent w ++ l
    /\ Forall (about file br) l
    /\ ((exists u, fst (createOrUpdateFile env file content br sha0 w) = Ok u)
        -> endsInAcceptedPut env (length (sent w)) file br l).
Proof.
  destruct (defined sha0) eqn:Hs.
  - destruct (createOrUpdateFile_given env file content br sha0 w Hs)
      as (e & R).
    rewrite R. destruct (wellFormed content && wellFormed file);
      cbn [fst snd sent set_sent].
    + exists [putRequest file br sha0]. split; [reflexivity|].
      split; [now repeat constructor|]. intros (u & Hu).
      exists [], sha0. split; [reflexivity|]. cbn [length].
      rewrite Nat.add_0_r. revert Hu.
      now destruct (accepted env _ _).
    + exists []. rewrite app_nil_r. split; [reflexivity|].
      split; [constructor|]. intros (u & [=]).
  - destruct (wellFormed file && wellFormed br) eqn:Hwf.
    2:{ assert (E : createOrUpdateFile env file content br sha0 w
                    = (Throw uriMalformed, w)).
        { unfold createOrUpdateFile.
          rewrite bind_run, Hs, bind_run, getFile_run, Hwf. reflexivity. }
        rewrite E. exists []. cbn [fst snd]. rewrite app_nil_r.
        split; [reflexivity|]. split; [constructor|]. intros (u & [=]). }
    destruct (orAbsent (answerOf env (length (sent w)) (getRequest file br)))
      as [existing|e0] eqn:Hv.
    + destruct (createOrUpdateFile_lookup env file content br sha0 w existing
                  Hs Hwf Hv) as (e & R).
      rewrite R. destruct (wellFormed content && wellFormed file);
        cbn [fst snd sent set_sent].
      * eexists [getRequest file br; putRequest file br _].
        rewrite <- app_assoc. split; [reflexivity|].
        split; [now repeat constructor|]. intros (u & Hu).
        apply endsInAcceptedPut_cons. eexists [], _.
        split; [reflexivity|]. cbn [length]. rewrite Nat.add_0_r.
        rewrite length_snoc in Hu. revert Hu. clear R.
        now destruct (accepted env _ _).
      * exists [getRequest file br]. split; [reflexivity|].
        split; [now repeat constructor|]. intros (u & [=]).
    + assert (E : createOrUpdateFile env file content br sha0 w
                  = (Throw e0, set_sent (sent w ++ [getRequest file br]) w)).
      { unfold createOrUpdateFile.
        rewrite bind_run, Hs, bind_run, getFile_run, Hwf, Hv. reflexivity. }
      rewrite E. exists [getRequest file br]. cbn [fst snd sent set_sent].
      split; [reflexivity|]. split; [now repeat constructor|].
      intros (u & [=]).
Qed.

Lemma writeFile_run file content br w :
  exists l,
    sent (snd (writeFile env file content br w)) = sent w ++ l
    /\ Forall (about file br) l
    /\ ((exists u, fst (writeFile env file content br w) = Ok u) ->
        endsInAcceptedPut env (length (sent w)) file br l).
Proof.
  unfold writeFile. rewrite bind_run, getFile_run.
  destruct (wellFormed file && wellFormed br).
  2:{ exists []. cbn [fst snd]. rewrite app_nil_r. split; [reflexivity|].
      split; [constructor|]. intros (u & [=]). }
  destruct (orAbsent _) as [existing|e].
  - set (w1 := set_sent (sent w ++ [getRequest file br]) w).
    destruct (createOrUpdateFile_run file content br (shaOf existing) w1)
      as (l & Sl & Fl & Hl).
    exists (getRequest file br :: l). rewrite Sl. subst w1.
    cbn [sent set_sent] in *. rewrite <- app_assoc.
    split; [reflexivity|]. split; [constructor; [now split|exact Fl]|].
    intros Hok. apply endsInAcceptedPut_cons.
    rewrite length_snoc in Hl. now apply Hl.
  - exists [getRequest file br]. cbn [fst snd sent set_sent].
    split; [reflexivity|]. split; [now repeat constructor|].
    intros (u & [=]).
Qed.

Lemma syncProgressFiles_steps st progress mp w :
  syncProgressFiles env st progress mp w
  = try_catch
      (match progressMd env progress mp (clock env (S (ticks w))) with
       | Ok mdContent =>
           writeFile env (baseDir st ++ lit "/PROGRESS.json")
             (progressJson env progress (clock env (ticks w))) (branch st)
           ≫= fun _ =>
           writeFile env (baseDir st ++ lit "/PROGRESS.md") mdContent
             (branch st) ≫= fun _ =>
           logger_success env (lit "Progress files synced to GitHub") None
           ≫= fun _ => mret true
       | Throw e => throw e
       end)
      (fun message =>
         logger_error env (lit "Failed to sync progress files") (Some message)
         ≫= fun _ => mret false)
      (set_ticks (S (S (ticks w))) w).
Proof.
  unfold syncProgressFiles, try_catch, writeFile. cbv zeta.
  unfold mbind, M_bind, bind, now. cbv beta iota.
  change (set_ticks (S (ticks (set_ticks (S (ticks w)) w)))
            (set_ticks (S (ticks w)) w))
    with (set_ticks (S (S (ticks w))) w).
  cbn [ticks set_ticks].
  destruct (progressMd env progress mp _) as [mdContent|e]; [|reflexivity].
  unfold mret at 1, M_ret, ret. cbv beta iota.
  destruct (getFile env (baseDir st ++ lit "/PROGRESS.json") (branch st) _)
    as [[e1|x] w1]; [|reflexivity].
  destruct (createOrUpdateFile env _ _ _ _ w1) as [[u|x] w2]; [|reflexivity].
  destruct (getFile env (baseDir st ++ lit "/PROGRESS.md") (branch st) w2)
    as [[e2|x] w3]; [|reflexivity].
  reflexivity.
Qed.

End ProgressSync.

(** X27. [syncProgressFiles] never throws; its requests are first those
    for PROGRESS.json and then those for PROGRESS.md, all on the
    configured branch.  PROGRESS.md is asked for only after the PUT of
    PROGRESS.json has been accepted, and the answer is [success: true]
    only if both files have been put and accepted, in that order. *)
Theorem progress_json_before_md (env : Env) (st : Settings)
    (progress : gmap jsstring SolvedEntry) (mp : Mapping) (w : World) :
  let jsonPath := baseDir st ++ lit "/PROGRESS.json" in
  let mdPath := baseDir st ++ lit "/PROGRESS.md" in
  let w' := exec (syncProgressFiles env st progress mp) w in
  exists (success : bool) (lj lm : list Request),
    result (syncProgressFiles env st progress mp) w = Ok success
    /\ sent w' = sent w ++ lj ++ lm
    /\ Forall (about jsonPath (branch st)) lj
    /\ Forall (about mdPath (branch st)) lm
    /\ (lm <> [] ->
        endsInAcceptedPut env (length (sent w)) jsonPath (branch st) lj)
    /\ (success = true ->
        endsInAcceptedPut env (length (sent w)) jsonPath (branch st) lj
        /\ endsInAcceptedPut env (length (sent w) + length lj) mdPath
             (branch st) lm).
Proof.
  intros jsonPath mdPath w'. subst w'. unfold exec, result.
  destruct (syncProgressFiles env st progress mp w) as [r wf] eqn:EX.
  cbn [fst snd].
  rewrite syncProgressFiles_steps in EX. fold jsonPath mdPath in EX.
  set (w0 := set_ticks (S (S (ticks w))) w) in EX.
  assert (S0 : sent w0 = sent w) by reflexivity.
  unfold try_catch, logger_success, logger_error in EX.
  destruct (progressMd env progress mp _) as [mdContent|e0].
  2:{ cbn [throw] in EX. unfold throw in EX. rewrite bind_run, addLog_run in EX.
      injection EX as <- <-. exists false, [], [].
      cbn [logged sent]. rewrite S0, app_nil_r.
      split; [reflexivity|]. split; [reflexivity|].
      split; [constructor|]. split; [constructor|].
      split; [congruence|discriminate]. }
  rewrite bind_run in EX.
  destruct (writeFile_run env jsonPath
              (progressJson env progress (clock env (ticks w))) (branch st) w0)
    as (lj & Sj & Fj & Hj).
  destruct (writeFile env jsonPath _ (branch st) w0) as [[u|e] w1];
    cbn [fst snd] in *.
  - rewrite bind_run in EX.
    destruct (writeFile_run env mdPath mdContent (branch st) w1)
      as (lm & Sm & Fm & Hm).
    destruct (writeFile env mdPath mdContent (branch st) w1) as [[u2|e] w2];
      cbn [fst snd] in *.
    + rewrite bind_run, addLog_run in EX. injection EX as <- <-.
      exists true, lj, lm.
      cbn [logged sent]. rewrite Sm, Sj, S0, <- app_assoc.
      split; [reflexivity|]. split; [reflexivity|].
      split; [exact Fj|]. split; [exact Fm|].
      rewrite S0 in Hj. rewrite Sj, S0, length_app in Hm.
      split; [intros _; apply Hj; eauto|].
      intros _. split; [apply Hj; eauto|apply Hm; eauto].
    + rewrite bind_run, addLog_run in EX. injection EX as <- <-.
      exists false, lj, lm.
      cbn [logged sent]. rewrite Sm, Sj, S0, <- app_assoc.
      split; [reflexivity|]. split; [reflexivity|].
      split; [exact Fj|]. split; [exact Fm|].
      rewrite S0 in Hj. split; [intros _; apply Hj; eauto|discriminate].
  - rewrite bind_run, addLog_run in EX. injection EX as <- <-.
    exists false, lj, [].
    cbn [logged sent]. rewrite Sj, S0, app_nil_r.
    split; [reflexivity|]. split; [reflexivity|].
    split; [exact Fj|]. split; [constructor|].
    split; [congruence|discriminate].
Qed.

(** ** progress.ts: the table of recent solutions *)

Section Recent.

Lemma insertRow_perm x l : Permutation (x :: l) (insertRow x l).
Proof.
  induction l as [|y l IH]; [reflexivity|]. cbn [insertRow].
  destruct (_ <=? _); [reflexivity|].
  rewrite perm_swap. now apply perm_skip.
Qed.

Lemma insertRow_Forall (P : jsstring * SolvedEntry -> Prop) x l :
  P x -> Forall P l -> Forall P (insertRow x l).
Proof.
  intros Hx Hl. induction Hl as [|y l Hy Hl IH]; cbn [insertRow].
  - now repeat constructor.
  - destruct (_ <=? _); repeat constructor; assumption.
Qed.

Lemma insertRow_sorted x l :
  StronglySorted notNewer l -> StronglySorted notNewer (insertRow x l).
Proof.
  induction 1 as [|y l Hs IH Hy]; cbn [insertRow].
  - repeat constructor.
  - destruct (Z.leb_spec (solvedAt (snd y)) (solvedAt (snd x))) as [H|H].
    + constructor; [now constructor|]. constructor; [exact H|].
      eapply List.Forall_impl; [|exact Hy]. unfold notNewer. intros z Hz. lia.
    + constructor; [exact IH|]. apply insertRow_Forall; [|exact Hy].
      unfold notNewer. lia.
Qed.

Lemma sortNewestFirst_spec rows :
  Permutation rows (sortNewestFirst rows)
  /\ StronglySorted notNewer (sortNewestFirst rows).
Proof.
  unfold sortNewestFirst. induction rows as [|x rows [IH1 IH2]]; cbn [fold_right].
  - split; constructor.
  - split; [|now apply insertRow_sorted].
    rewrite <- insertRow_perm. now apply perm_skip.
Qed.

(** Rows that are equally old keep their order. *)
Lemma insertRow_stable x l :
  Forall (fun y => solvedAt (snd y) <= solvedAt (snd x)) l ->
  insertRow x l = x :: l.
Proof.
  destruct l as [|y l]; [reflexivity|]. intros H.
  apply Forall_cons in H as [H _]. cbn [insertRow].
  apply Z.leb_le in H. now rewrite H.
Qed.

End Recent.

(** X28. The table "Recently Solved" lists the newest solutions, newest
    first: its rows are the first 20 (or all, if fewer) of a rearrangement
    of the solved entries in which no row is newer than a row before it,
    so every entry left out is at most as new as every row shown; entries
    that are already in this order keep it (the sort is stable). *)
Theorem recent_rows_are_the_newest (rows : list (jsstring * SolvedEntry)) :
  exists rest,
    Permutation rows (recentRows rows ++ rest)
    /\ StronglySorted notNewer (recentRows rows ++ rest)
    /\ length (recentRows rows) = Nat.min 20 (length rows)
    /\ (StronglySorted notNewer rows -> recentRows rows = firstn 20 rows).
Proof.
  destruct (sortNewestFirst_spec rows) as [Hp Hs].
  exists (skipn 20 (sortNewestFirst rows)). unfold recentRows.
  rewrite firstn_skipn. split; [exact Hp|]. split; [exact Hs|].
  split.
  - rewrite length_firstn. now rewrite <- (Permutation_length Hp).
  - intros H. f_equal. unfold sortNewestFirst. clear Hp Hs.
    induction H as [|x l Hl IH Hx]; [reflexivity|]. cbn [fold_right].
    rewrite IH. now apply insertRow_stable.
Qed.

(** ** queue.ts: what a submission changes *)

(** X29. [enqueueSubmission] works on storage alone and never removes a
    queued item: it never throws, sends no request, and leaves settings,
    token, catalog, solved-set, last-sync time and flag as they are; the
    queue before the call is a prefix of the queue after it, which is
    longer by one item exactly when the answer is [true]. *)
Theorem enqueue_never_shrinks_the_queue (env : Env) (s : Submission)
    (w : World) :
  let w' := exec (enqueueSubmission env s) w in
  exists (answer : bool) (added : list QueueItem),
    result (enqueueSubmission env s) w = Ok answer
    /\ queue w' = queue w ++ added
    /\ length added = (if answer then 1 else 0)%nat
    /\ sent w' = sent w /\ solved w' = solved w
    /\ settings w' = settings w /\ token w' = token w
    /\ mapping w' = mapping w /\ lastSync w' = lastSync w
    /\ isProcessing w' = isProcessing w.
Proof.
  intros w'. subst w'.
  unfold exec, result, enqueueSubmission,
    removeFromQueue, getSettings, getToken, getMapping, getProgress, getQueue,
    saveQueue, generateId, randomSuffix, logger_info, logger_success, member.
  unfold_monad.
  destruct w as [st tok mp sv q ls sl ll li ip tm tk rd sn at' op].
  cbn. destruct (sv !! sub_slug s) as [e|] eqn:He; cbn.
  - destruct (bool_decide _ && _) eqn:Hrecent; cbn.
    + rewrite addLog_run. cbn. exists false, []. rewrite app_nil_r.
      now repeat split.
    + destruct (List.find (samePair s) q) as [existing|]; cbn.
      * destruct (Js.eqb _ _); cbn; rewrite addLog_run; cbn;
          [exists false, []; rewrite app_nil_r; now repeat split|].
        eexists true, [_]. now repeat split.
      * rewrite addLog_run. cbn. eexists true, [_]. now repeat split.
  - destruct (isInherited (sub_slug s)); cbn;
      (destruct (List.find (samePair s) q) as [existing|]; cbn;
       [destruct (Js.eqb _ _); cbn; rewrite addLog_run; cbn;
          [exists false, []; rewrite app_nil_r; now repeat split|];
        eexists true, [_]; now repeat split
       |rewrite addLog_run; cbn; eexists true, [_]; now repeat split]).
Qed.

End Engine.

(** * The theorems on concrete worlds

    The examples are Basic Latin text, on which every engine agrees; they
    are run with [exampleEngine]. *)

#[global] Existing Instance exampleEngine.

Lemma retry_ceiling_witness :
  failures (steadyEnv 1700000100000 100000 unreachable) 6 oneItemWorld
    (id queuedTwoSum) = 6%nat
  /\ ~ In (id queuedTwoSum)
         (List.map id
            (queue (passes (steadyEnv 1700000100000 100000 unreachable) 6
                      oneItemWorld))).
Proof.
  assert (H6 : failures (steadyEnv 1700000100000 100000 unreachable) 6
                 oneItemWorld (id queuedTwoSum) = 6%nat)
    by (vm_compute; reflexivity).
  split; [exact H6|].
  destruct (retry_ceiling (steadyEnv 1700000100000 100000 unreachable)
              oneItemWorld queuedTwoSum 6) as (_ & _ & Hgone & _).
  - simpl. constructor; [intros []|constructor].
  - simpl. left. reflexivity.
  - reflexivity.
  - intros j Hj.
    do 6 (destruct j as [|j]; [vm_compute; reflexivity|]). lia.
  - exact (Hgone H6).
Defined.

(** C3, the counterexample: GitHub cannot be reached, the clock moves
    100 s between two readings, so the item is due in every pass.  Five
    passes make five failed attempts and leave the item queued with
    [retries] = 5; the sixth failure removes it. *)
Lemma five_failures_leave_the_item_queued :
  List.map snd
    (attempts (passes (steadyEnv 1700000100000 100000 unreachable) 5
                 oneItemWorld))
  = repeat (Failed (lit "Commit failed")) 5
  /\ List.map summary
       (queue (passes (steadyEnv 1700000100000 100000 unreachable) 5
                 oneItemWorld))
     = [(lit "two-sum", lit "python", lit "def f():pass", 5)]
  /\ List.map snd
       (attempts (passes (steadyEnv 1700000100000 100000 unreachable) 6
                    oneItemWorld))
     = repeat (Failed (lit "Commit failed")) 6
  /\ queue (passes (steadyEnv 1700000100000 100000 unreachable) 6
              oneItemWorld) = [].
Proof. vm_compute. repeat split. Qed.


Lemma failed_attempt_is_rescheduled_witness :
  result (processQueue (steadyEnv 1700000100000 1 conflicting)) oneItemWorld
  = Ok tt
  /\ In queuedTwoSum (queue oneItemWorld)
  /\ exists k,
       (ticks oneItemWorld <= k
        < ticks (exec (processQueue (steadyEnv 1700000100000 1 conflicting)) oneItemWorld))%nat
       /\ In {| id := id queuedTwoSum; slug := slug queuedTwoSum;
                title := title queuedTwoSum; category := category queuedTwoSum;
                listName := listName queuedTwoSum;
                difficulty := difficulty queuedTwoSum;
                language := language queuedTwoSum; code := code queuedTwoSum;
                meta := meta queuedTwoSum; source := source queuedTwoSum;
                at_ := at_ queuedTwoSum; retries := retries queuedTwoSum + 1;
                lastAttempt :=
                  Some (clock (steadyEnv 1700000100000 1 conflicting) k) |}
            (queue (exec (processQueue (steadyEnv 1700000100000 1 conflicting)) oneItemWorld))
       /\ forall y,
            In y (queue (exec (processQueue (steadyEnv 1700000100000 1 conflicting)) oneItemWorld)) ->
            id y = id queuedTwoSum ->
            retries y = retries queuedTwoSum + 1
            /\ lastAttempt y
               = Some (clock (steadyEnv 1700000100000 1 conflicting) k).
Proof.
  apply (failed_attempt_is_rescheduled (steadyEnv 1700000100000 1 conflicting)
           oneItemWorld queuedTwoSum (lit "Commit failed")).
  - simpl. constructor; [intros []|constructor].
  - vm_compute. left. reflexivity.
  - reflexivity.
Defined.





Lemma unconfigured_pass_is_inert_witness :
  queue (exec (processQueue (steadyEnv 1700000100000 1 unreachable))
           waitingWorld) = queue waitingWorld
  /\ sent (exec (processQueue (steadyEnv 1700000100000 1 unreachable))
             waitingWorld) = [].
Proof.
  destruct (unconfigured_pass_is_inert (steadyEnv 1700000100000 1 unreachable)
              waitingWorld (or_introl eq_refl))
    as (_ & Hq & _ & _ & Hs & _).
  split; [exact Hq|exact Hs].
Defined.

(** C7, the counterexample: nothing is configured and the queue is empty;
    the pass ends without a warning, the log stays empty. *)
Lemma empty_queue_pass_logs_nothing :
  token freshWorld = None
  /\ result (processQueue (steadyEnv 1700000100000 1 unreachable)) freshWorld
     = Ok tt
  /\ storedLogs (exec (processQueue (steadyEnv 1700000100000 1 unreachable))
                   freshWorld) = []
  /\ loggerLogs (exec (processQueue (steadyEnv 1700000100000 1 unreachable))
                   freshWorld) = [].
Proof. now vm_compute. Qed.

Lemma processQueue_busy_is_noop_witness :
  isProcessing busyWithWork = true
  /\ queue busyWithWork = [queuedTwoSum]
  /\ result (processQueue (steadyEnv 1700000100000 1 accepting)) busyWithWork
     = Ok tt
  /\ queue (exec (processQueue (steadyEnv 1700000100000 1 accepting)) busyWithWork)
     = queue busyWithWork
  /\ solved (exec (processQueue (steadyEnv 1700000100000 1 accepting)) busyWithWork)
     = solved busyWithWork
  /\ lastSync (exec (processQueue (steadyEnv 1700000100000 1 accepting)) busyWithWork)
     = lastSync busyWithWork
  /\ settings (exec (processQueue (steadyEnv 1700000100000 1 accepting)) busyWithWork)
     = settings busyWithWork
  /\ token (exec (processQueue (steadyEnv 1700000100000 1 accepting)) busyWithWork)
     = token busyWithWork
  /\ mapping (exec (processQueue (steadyEnv 1700000100000 1 accepting)) busyWithWork)
     = mapping busyWithWork
  /\ sent (exec (processQueue (steadyEnv 1700000100000 1 accepting)) busyWithWork)
     = sent busyWithWork
  /\ attempts (exec (processQueue (steadyEnv 1700000100000 1 accepting)) busyWithWork)
     = attempts busyWithWork
  /\ timers (exec (processQueue (steadyEnv 1700000100000 1 accepting)) busyWithWork)
     = timers busyWithWork
  /\ isProcessing (exec (processQueue (steadyEnv 1700000100000 1 accepting)) busyWithWork)
     = true
  /\ (exists l,
        ops (exec (processQueue (steadyEnv 1700000100000 1 accepting)) busyWithWork)
        = ops busyWithWork ++ l /\ logsOnly l)
  /\ (exists e,
        head (storedLogs (exec (processQueue (steadyEnv 1700000100000 1 accepting)) busyWithWork))
        = Some e
        /\ le_level e = LInfo
        /\ le_message e = lit "Queue processing already in progress").
Proof.
  split; [reflexivity|]. split; [reflexivity|].
  exact (processQueue_busy_is_noop (steadyEnv 1700000100000 1 accepting)
           busyWithWork eq_refl).
Defined.

(** The same world with the flag clear: the pass commits the item. *)
Example idle_pass_commits_the_item :
  List.map snd
    (attempts (exec (processQueue (steadyEnv 1700000100000 1 accepting))
                 (set_isProcessing false busyWithWork)))
  = [Committed]
  /\ queue (exec (processQueue (steadyEnv 1700000100000 1 accepting))
              (set_isProcessing false busyWithWork)) = [].
Proof. vm_compute. split; reflexivity. Qed.


Lemma getCommentStyle_c_means_block_witness :
  includes (toLowerCase (lit "Racket")) (lit "c") = true
  /\ getCommentStyle (lit "Racket") = blockStyle.
Proof.
  split; [reflexivity|].
  apply (getCommentStyle_c_means_block (lit "Racket")). reflexivity.
Defined.

Lemma header_runs_into_code_witness :
  includeHeader DEFAULT_SETTINGS = true
  /\ exists pre,
       itemContent isoExample DEFAULT_SETTINGS queuedTwoSum None
       = pre ++ newline ++ cs_end (headerStyle queuedTwoSum)
         ++ code queuedTwoSum.
Proof.
  split; [reflexivity|].
  apply (header_runs_into_code isoExample DEFAULT_SETTINGS queuedTwoSum None).
  reflexivity.
Defined.

Lemma getFile_takes_404_for_absent_witness :
  result (getFile (steadyEnv 1700000000000 1 overloaded) twoSumPath
            (lit "main")) configuredWorld
  = Ok JNull
  /\ sent (exec (getFile (steadyEnv 1700000000000 1 overloaded) twoSumPath
                  (lit "main")) configuredWorld)
     = sent configuredWorld ++ [getRequest twoSumPath (lit "main")].
Proof.
  apply (getFile_takes_404_for_absent (steadyEnv 1700000000000 1 overloaded)
           twoSumPath (lit "main") configuredWorld
           {| status := 500; bodyText := Ok (lit "Server Error (request 8404)");
              bodyJson := Throw (lit "Unexpected token S in JSON") |}
           (lit "Server Error (request 8404)")).
  - reflexivity.
  - reflexivity.
  - reflexivity.
  - right. reflexivity.
Defined.

(** A path with a lone surrogate: no request is made, [getFile] throws. *)
Example getFile_of_a_lone_surrogate :
  result (getFile (steadyEnv 1700000000000 1 overloaded) [0xD83D%N]
            (lit "main")) configuredWorld
  = Throw (lit "URI malformed")
  /\ sent (exec (getFile (steadyEnv 1700000000000 1 overloaded) [0xD83D%N]
                  (lit "main")) configuredWorld) = [].
Proof. vm_compute. split; reflexivity. Qed.

Lemma commit_skips_existing_witness :
  commitSolutionFile (steadyEnv 1700000000000 1 conflicting) (lit "main")
    twoSumPath (lit "def f():pass") false configuredWorld
  = (Ok true,
     logged (steadyEnv 1700000000000 1 conflicting) LInfo
       (lit "File already exists, skipping: " ++ twoSumPath) None
       (set_sent (sent configuredWorld ++ [getRequest twoSumPath (lit "main")])
          configuredWorld)).
Proof.
  apply (commit_skips_existing (steadyEnv 1700000000000 1 conflicting)
           (lit "main") twoSumPath (lit "def f():pass") configuredWorld
           {| status := 200; bodyText := Ok (lit ""); bodyJson := Ok storedFile |}
           storedFile).
  - reflexivity.
  - reflexivity.
  - reflexivity.
  - reflexivity.
  - reflexivity.
Defined.

Lemma commit_new_file_asks_twice_witness :
  sent (exec (commitSolutionFile (steadyEnv 1700000000000 1 accepting)
                (lit "main") twoSumPath (lit "def f():pass") true)
          configuredWorld)
  = sent configuredWorld
    ++ [getRequest twoSumPath (lit "main"); getRequest twoSumPath (lit "main")]
    ++ [putRequest twoSumPath (lit "main") None]
  /\ result (commitSolutionFile (steadyEnv 1700000000000 1 accepting)
               (lit "main") twoSumPath (lit "def f():pass") true)
       configuredWorld
     = Ok (true
           && accepted (steadyEnv 1700000000000 1 accepting)
                (S (S (length (sent configuredWorld))))
                (putRequest twoSumPath (lit "main") None)).
Proof.
  apply (commit_new_file_asks_twice (steadyEnv 1700000000000 1 accepting)
           (lit "main") twoSumPath (lit "def f():pass") true configuredWorld
           {| status := 404; bodyText := Ok (lit "Not Found");
              bodyJson := Ok (JObject []) |}
           {| status := 404; bodyText := Ok (lit "Not Found");
              bodyJson := Ok (JObject []) |}
           (lit "Not Found") (lit "Not Found"));
    reflexivity.
Defined.

(** A solution with a lone surrogate: the file is looked up twice, the
    content cannot be encoded, no PUT is made and the commit fails. *)
Example commit_of_a_lone_surrogate :
  List.map rq_method
    (sent (exec (commitSolutionFile (steadyEnv 1700000000000 1 accepting)
                   (lit "main") twoSumPath [0xD83D%N] true) configuredWorld))
  = [GET; GET]
  /\ result (commitSolutionFile (steadyEnv 1700000000000 1 accepting)
               (lit "main") twoSumPath [0xD83D%N] true) configuredWorld
     = Ok false.
Proof. vm_compute. split; reflexivity. Qed.

Lemma commit_overwrite_carries_sha_witness :
  sent (exec (commitSolutionFile (steadyEnv 1700000000000 1 conflicting)
                (lit "main") twoSumPath (lit "def f():pass") true)
          configuredWorld)
  = sent configuredWorld
    ++ [getRequest twoSumPath (lit "main")]
    ++ [putRequest twoSumPath (lit "main") (Some storedSha)]
  /\ result (commitSolutionFile (steadyEnv 1700000000000 1 conflicting)
               (lit "main") twoSumPath (lit "def f():pass") true)
       configuredWorld
     = Ok (true
           && accepted (steadyEnv 1700000000000 1 conflicting)
                (S (length (sent configuredWorld)))
                (putRequest twoSumPath (lit "main") (Some storedSha))).
Proof.
  apply (commit_overwrite_carries_sha (steadyEnv 1700000000000 1 conflicting)
           (lit "main") twoSumPath (lit "def f():pass") configuredWorld
           {| status := 200; bodyText := Ok (lit ""); bodyJson := Ok storedFile |}
           storedFile storedSha);
    reflexivity.
Defined.

Lemma committed_items_leave_the_queue_witness :
  In queuedTwoSum (queue oneItemWorld)
  /\ ~ In (id queuedTwoSum)
         (List.map id
            (queue (exec (processQueue (steadyEnv 1700000100000 1 accepting)) oneItemWorld)))
  /\ (slug queuedTwoSum <> lit "__proto__"
      \/ is_Some (solved oneItemWorld !! slug queuedTwoSum) ->
      exists y e,
        In (y, Committed)
           (attemptsOf (steadyEnv 1700000100000 1 accepting) oneItemWorld)
        /\ slug y = slug queuedTwoSum
        /\ solved (exec (processQueue (steadyEnv 1700000100000 1 accepting)) oneItemWorld)
             !! slug queuedTwoSum = Some e
        /\ se_title e = title y /\ se_language e = language y
        /\ solvedAt e = at_ y
        /\ se_sha256 e = Some (sha256 (slug y ++ language y ++ code y)))
  /\ (slug queuedTwoSum = lit "__proto__" ->
      solved oneItemWorld !! slug queuedTwoSum = None ->
      solved (exec (processQueue (steadyEnv 1700000100000 1 accepting)) oneItemWorld)
        !! slug queuedTwoSum = None).
Proof.
  apply (committed_items_leave_the_queue
           (steadyEnv 1700000100000 1 accepting) oneItemWorld queuedTwoSum).
  - simpl. constructor; [intros []|constructor].
  - vm_compute. left. reflexivity.
Defined.

(** An item with the slug "__proto__" is committed and leaves the queue;
    no entry is stored for it, and the same submission is accepted again
    at once. *)
Example proto_commit_stores_nothing :
  attemptsOf (steadyEnv 1700000100000 1 accepting) protoWorld
  = [(protoItem, Committed)]
  /\ solved oneItemWorld !! lit "__proto__" = None
  /\ solved (exec (processQueue (steadyEnv 1700000100000 1 accepting))
               protoWorld) !! lit "__proto__" = None
  /\ result (enqueueSubmission (steadyEnv 1700000100000 1 accepting)
               (submitAs "__proto__" "python" "pass"))
       (exec (processQueue (steadyEnv 1700000100000 1 accepting)) protoWorld)
     = Ok true.
Proof. vm_compute. repeat split. Qed.

Lemma resubmission_window_witness :
  result (enqueueSubmission (steadyEnv 1700000100000 1 accepting)
            (submit "python" "def f():pass"))
    (exec (processQueue (steadyEnv 1700000100000 1 accepting)) oneItemWorld)
  = Ok (negb
          ((negb (Js.eqb (slug queuedTwoSum) (lit "__proto__"))
            || bool_decide (is_Some (solved oneItemWorld !! slug queuedTwoSum)))
           && (clock (steadyEnv 1700000100000 1 accepting)
                 (ticks (exec (processQueue (steadyEnv 1700000100000 1 accepting)) oneItemWorld))
               - at_ queuedTwoSum <? 60000)
           || queuedSame (submit "python" "def f():pass")
                (queue (exec (processQueue (steadyEnv 1700000100000 1 accepting)) oneItemWorld)))).
Proof.
  apply (resubmission_window (steadyEnv 1700000100000 1 accepting)
           oneItemWorld queuedTwoSum (submit "python" "def f():pass") [] []).
  - vm_compute. reflexivity.
  - constructor.
  - reflexivity.
  - reflexivity.
  - reflexivity.
Defined.

Lemma catalog_merge_is_idempotent_witness :
  result (handleMappingMerge (steadyEnv 1700000000000 1 unreachable) protoEvent) catalogWorld
  = Ok (true, Z.of_nat (length protoEvent))
  /\ entries (mapping (exec (handleMappingMerge (steadyEnv 1700000000000 1 unreachable) protoEvent) catalogWorld))
     = mergeEntries
         (List.filter (fun e => negb (Js.eqb (fst e) (lit "__proto__")))
            protoEvent)
         (entries (mapping catalogWorld))
  /\ (forall k e, In (k, e) protoEvent -> k <> lit "__proto__" ->
      entries (mapping (exec (handleMappingMerge (steadyEnv 1700000000000 1 unreachable) protoEvent) catalogWorld)) !! k
      = Some
          {| me_title :=
               or_else (in_title e)
                 (entries (mapping catalogWorld) !! k ≫= me_title);
             me_category :=
               or_else (in_category e)
                 (entries (mapping catalogWorld) !! k ≫= me_category);
             me_listName :=
               or_else (in_listName e)
                 (entries (mapping catalogWorld) !! k ≫= me_listName);
             me_difficulty :=
               or_else (in_difficulty e)
                 (entries (mapping catalogWorld) !! k ≫= me_difficulty);
             me_sources :=
               Some (uniq []
                       (default []
                          (entries (mapping catalogWorld) !! k ≫= me_sources)
                        ++ [sourceUrl e])) |})
  /\ (forall k, k ∉ List.map fst protoEvent \/ k = lit "__proto__" ->
      entries (mapping (exec (handleMappingMerge (steadyEnv 1700000000000 1 unreachable) protoEvent) catalogWorld)) !! k
      = entries (mapping catalogWorld) !! k)
  /\ entries (mapping
       (exec (handleMappingMerge (steadyEnv 1700000000000 1 unreachable) protoEvent)
          (exec (handleMappingMerge (steadyEnv 1700000000000 1 unreachable) protoEvent) catalogWorld)))
     = entries (mapping (exec (handleMappingMerge (steadyEnv 1700000000000 1 unreachable) protoEvent) catalogWorld)).
Proof.
  apply (catalog_merge_is_idempotent (steadyEnv 1700000000000 1 unreachable)
           protoEvent catalogWorld).
  constructor; [simpl; intuition discriminate|].
  constructor; [simpl; tauto|constructor].
Defined.

(** The event of two entries is answered with the count 2; one entry is
    merged. *)
Example proto_entry_is_counted_not_merged :
  result (handleMappingMerge (steadyEnv 1700000000000 1 unreachable) protoEvent) catalogWorld
  = Ok (true, 2)
  /\ size (entries (mapping (exec (handleMappingMerge (steadyEnv 1700000000000 1 unreachable) protoEvent) catalogWorld))) = 1%nat.
Proof. vm_compute. split; reflexivity. Qed.

